(** * autoscaler/autoscaling_groups.py: a shallow embedding

    The module talks to AWS through boto3 clients.  Every answer of the
    provider is an argument of the function that asks for it, every call
    that changes something at the provider is recorded in a trace of
    [event]s, and the mutable Python objects ([AutoScalingGroup], the
    dictionaries of [AutoScalingTimeouts]) are records passed in and
    returned.  A call to the provider returns, except where the function
    has a handler for what it raises ([scale_nodes_in]).  The clock reads
    of one pass of [reconcile_limits] or [refresh_timeouts] see one
    instant, [now].  Time is the number of
    microseconds since the epoch (the resolution of [datetime]); a
    [timedelta] is a difference of two such numbers.  Floats are binary64
    numbers.  Strings are 8-bit strings.  Logging is left out, but for
    the lines that stand for an action not taken or failed. *)

From Stdlib Require Import ZArith Ascii String List Bool Lia PrimFloat Uint63.
From stdpp Require Import base option list gmap strings pretty sorting.

Local Open Scope string_scope.
Local Open Scope Z_scope.

(** ** Python's [re], as far as the patterns of this file use it

    The patterns of [AutoScalingErrorMessages] and
    [AutoScalingCauseMessages] are built from literal characters,
    backslash escapes of punctuation, [\d], [.], the greedy [+] on a
    single character class, and groups [(...)] / [(?P<name>...)] that are
    neither nested, repeated nor alternated.  [compile] reads exactly this
    fragment from the pattern text; the matcher backtracks like [re] does:
    longest repetition first, first success wins. *)
Module Re.

Inductive cls : Type :=
| Exact (a : ascii)
| Dot
| Digit.

Inductive item : Type :=
| One (c : cls)
| Many (c : cls)
| Open (name : option string)
| Close.

Definition regex : Type := list item.

Definition is_digit (a : ascii) : bool :=
  (48 <=? N_of_ascii a)%N && (N_of_ascii a <=? 57)%N.

Definition is_letter (a : ascii) : bool :=
  ((65 <=? N_of_ascii a)%N && (N_of_ascii a <=? 90)%N)
  || ((97 <=? N_of_ascii a)%N && (N_of_ascii a <=? 122)%N).

(** [.] is every character but the newline (no DOTALL flag is used). *)
Definition cls_ok (c : cls) (a : ascii) : bool :=
  match c with
  | Exact b => Ascii.eqb a b
  | Dot => negb (Ascii.eqb a "010"%char)
  | Digit => is_digit a
  end.

(** *** Reading a pattern *)

Inductive pstate : Type :=
| PNorm
| PEsc
| POpen
| POpenQ
| POpenQP
| PName (acc : string)
| PBad.

(** The operators of [re] that are outside the fragment. *)
Definition is_other_operator (a : ascii) : bool :=
  existsb (Ascii.eqb a)
    ["*"; "?"; "["; "]"; "{"; "}"; "|"; "^"; "$"]%char.

(** Items are accumulated in reverse. *)
Definition norm_step (a : ascii) (acc : list item) : pstate * list item :=
  if is_other_operator a then (PBad, acc)
  else if Ascii.eqb a "\"%char then (PEsc, acc)
  else if Ascii.eqb a "("%char then (POpen, acc)
  else if Ascii.eqb a ")"%char then (PNorm, Close :: acc)
  else if Ascii.eqb a "."%char then (PNorm, One Dot :: acc)
  else if Ascii.eqb a "+"%char then
    match acc with
    | One c :: acc' => (PNorm, Many c :: acc')
    | _ => (PBad, acc)
    end
  else (PNorm, One (Exact a) :: acc).

Definition pstep (st : pstate) (a : ascii) (acc : list item)
  : pstate * list item :=
  match st with
  | PNorm => norm_step a acc
  | PEsc =>
      if Ascii.eqb a "d"%char then (PNorm, One Digit :: acc)
      else if is_digit a || is_letter a then (PBad, acc)
      else (PNorm, One (Exact a) :: acc)
  | POpen =>
      if Ascii.eqb a "?"%char then (POpenQ, acc)
      else norm_step a (Open None :: acc)
  | POpenQ => if Ascii.eqb a "P"%char then (POpenQP, acc) else (PBad, acc)
  | POpenQP => if Ascii.eqb a "<"%char then (PName "", acc) else (PBad, acc)
  | PName n =>
      if Ascii.eqb a ">"%char then (PNorm, Open (Some n) :: acc)
      else (PName (String.append n (String a "")), acc)
  | PBad => (PBad, acc)
  end.

Fixpoint parse_from (st : pstate) (acc : list item) (src : string)
  : option regex :=
  match src with
  | EmptyString =>
      match st with
      | PNorm => Some (rev acc)
      | _ => None
      end
  | String a src' =>
      let '(st', acc') := pstep st a acc in parse_from st' acc' src'
  end.

Definition parse (src : string) : option regex := parse_from PNorm [] src.

(** [re.compile]; a pattern outside the fragment compiles to nothing
    (the patterns of this file are all inside, see [patterns_compile]). *)
Definition compile (src : string) : regex := default [] (parse src).

(** *** Matching

    A successful match is the list of the texts consumed by the items of
    the pattern, one text per item. *)

Fixpoint star_greedy (c : cls) (k : string -> option (list string))
    (s : string) : option (string * list string) :=
  match s with
  | String a s' =>
      if cls_ok c a then
        match star_greedy c k s' with
        | Some (w, r) => Some (String a w, r)
        | None => pair "" <$> k s
        end
      else pair "" <$> k s
  | EmptyString => pair "" <$> k s
  end.

Definition plus_greedy (c : cls) (k : string -> option (list string))
    (s : string) : option (list string) :=
  match s with
  | String a s' =>
      if cls_ok c a then
        '(w, r) ← star_greedy c k s'; Some (String a w :: r)
      else None
  | EmptyString => None
  end.

Fixpoint match_here (p : regex) (s : string) : option (list string) :=
  match p with
  | [] => Some []
  | One c :: p' =>
      match s with
      | String a s' =>
          if cls_ok c a then cons (String a "") <$> match_here p' s'
          else None
      | EmptyString => None
      end
  | Many c :: p' => plus_greedy c (match_here p') s
  | Open _ :: p' => cons "" <$> match_here p' s
  | Close :: p' => cons "" <$> match_here p' s
  end.

(** The text of the group called [name]: what the items between its
    opening and its closing consumed. *)
Fixpoint until_close (p : regex) (segs : list string) : string :=
  match p, segs with
  | Close :: _, _ => ""
  | _ :: p', seg :: segs' => String.append seg (until_close p' segs')
  | _, _ => ""
  end.

Fixpoint group_text (name : string) (p : regex) (segs : list string)
  : option string :=
  match p, segs with
  | Open (Some n) :: p', _ :: segs' =>
      if String.eqb n name then Some (until_close p' segs')
      else group_text name p' segs'
  | _ :: p', _ :: segs' => group_text name p' segs'
  | _, _ => None
  end.

(** A match object: the pattern and what its items consumed. *)
Record match_obj : Type := MatchObj { m_re : regex; m_segs : list string }.

(** [pattern.match(s)]: at the start of [s] only. *)
Definition re_match (p : regex) (s : string) : option match_obj :=
  MatchObj p <$> match_here p s.

(** [pattern.search(s)]: the leftmost position where the pattern matches. *)
Fixpoint re_search (p : regex) (s : string) : option match_obj :=
  match match_here p s with
  | Some segs => Some (MatchObj p segs)
  | None =>
      match s with
      | String _ s' => re_search p s'
      | EmptyString => None
      end
  end.

(** [m.group(name)]; the groups asked for in this file always take part
    in the match. *)
Definition group (m : match_obj) (name : string) : string :=
  default "" (group_text name (m_re m) (m_segs m)).

(** [int(text)] on a run of decimal digits. *)
Definition digit_val (a : ascii) : Z := Z.of_N (N_of_ascii a) - 48.

Fixpoint int_from (acc : Z) (s : string) : Z :=
  match s with
  | EmptyString => acc
  | String a s' => int_from (10 * acc + digit_val a) s'
  end.

Definition int (s : string) : Z := int_from 0 s.

End Re.

(** ** Substrings: [needle in s], and [s.find(needle)] compared with -1 *)
Module PyStr.
Fixpoint starts_with (needle s : string) : bool :=
  match needle, s with
  | EmptyString, _ => true
  | String a n', String b s' => Ascii.eqb a b && starts_with n' s'
  | String _ _, EmptyString => false
  end.

Fixpoint contains (needle s : string) : bool :=
  starts_with needle s ||
  match s with
  | String _ s' => contains needle s'
  | EmptyString => false
  end.

(** [s[n:]] *)
Fixpoint drop (n : nat) (s : string) : string :=
  match n, s with
  | O, _ => s
  | S n', String _ s' => drop n' s'
  | S _, EmptyString => EmptyString
  end.
End PyStr.

(** ** class AutoScalingErrorMessages *)
Module AutoScalingErrorMessages.
Definition INSTANCE_LIMIT : Re.regex := Re.compile
  "You have requested more instances \((?P<requested>\d+)\) than your current instance limit of (?P<limit>\d+) allows for the specified instance type. Please visit http://aws.amazon.com/contact-us/ec2-request to request an adjustment to this limit. Launching EC2 instance failed.".
Definition VOLUME_LIMIT : Re.regex := Re.compile
  "Instance became unhealthy while waiting for instance to be in InService state. Termination Reason: Client.VolumeLimitExceeded: Volume limit exceeded".
Definition CAPACITY_LIMIT : Re.regex := Re.compile
  "Insufficient capacity\. Launching EC2 instance failed\.".
Definition SPOT_REQUEST_WAITING : Re.regex := Re.compile
  "Placed Spot instance request: (?P<request_id>.+). Waiting for instance\(s\)".
Definition SPOT_REQUEST_CANCELLED : Re.regex := Re.compile
  "Spot instance request: (?P<request_id>.+) has been cancelled\.".
Definition SPOT_LIMIT : Re.regex := Re.compile
  "Max spot instance count exceeded\. Placing Spot instance request failed\.".
Definition AZ_LIMIT : Re.regex := Re.compile
  "We currently do not have sufficient .+ capacity in the Availability Zone you requested (.+)\.".
End AutoScalingErrorMessages.

(** ** class AutoScalingCauseMessages *)
Module AutoScalingCauseMessages.
Definition LAUNCH_INSTANCE : Re.regex := Re.compile
  "At \d\d\d\d-\d\d-\d\dT\d\d:\d\d:\d\dZ an instance was started in response to a difference between desired and actual capacity, increasing the capacity from (?P<original_capacity>\d+) to (?P<target_capacity>\d+)\.".
Definition AZ_BALANCE : Re.regex := Re.compile
  "An instance was launched to aid in balancing the group\'s zones\.".
End AutoScalingCauseMessages.

(** ** Time, exceptions and the trace of effects *)

(** [datetime.timedelta(seconds=n)] *)
Definition seconds (n : Z) : Z := n * 1000000.

Inductive exn : Type :=
| ClientError (msg : string)   (* botocore.exceptions.ClientError, [str(e)] *)
| OtherError (msg : string)    (* anything else a client call raises *)
| ValueError                   (* [list.remove(x)]: x not in list *)
| KeyError (key : string)      (* [d[key]] on a missing key *)
| TypeError                    (* [None[...]] *)
| IndexError.                  (* [s[0]] on an empty string *)

(** What [scale] and [scale_nodes_in] use of a [KubeNode] (autoscaler/kube.py,
    not part of this file): the instance id, the unschedulable flag, and the
    object itself, which [list.remove] compares. *)
Record KubeNode : Type := {
  node_obj : nat;
  instance_id : string;
  unschedulable : bool
}.

Global Instance KubeNode_eq_dec : EqDecision KubeNode.
Proof. solve_decision. Defined.

Inductive event : Type :=
| SetDesiredCapacity (region name : string) (capacity : Z)
    (* client.set_desired_capacity(AutoScalingGroupName, DesiredCapacity,
       HonorCooldown=False) *)
| CancelSpotInstanceRequests (region request_id : string)
| TerminateInstanceInAutoScalingGroup (instance : string) (decrement : bool)
| Uncordon (node : KubeNode)
| LogDryRunSetCapacity (capacity : Z)
    (* '[Dry run] Would have set desired capacity to %s' *)
| LogDryRunCancelSpot (request_id : string)
    (* '[Dry run] Would have cancelled spot request %s and decremented
       desired capacity.' *)
| LogScaledIn (node : KubeNode)            (* 'Scaled node %s in' *)
| LogTerminateFailed (msg : string).       (* 'Failed to terminate instance: %s' *)

(** The calls that change something at the provider. *)
Definition is_mutation (e : event) : bool :=
  match e with
  | SetDesiredCapacity _ _ _
  | CancelSpotInstanceRequests _ _
  | TerminateInstanceInAutoScalingGroup _ _ => true
  | _ => false
  end.

(** The provider mutations among the events of a trace. *)
Definition mutations (tr : list event) : list event := List.filter is_mutation tr.

Definition is_cancel (e : event) : bool :=
  match e with
  | CancelSpotInstanceRequests _ _ => true
  | _ => false
  end.

(** The spot requests a trace cancelled. *)
Definition cancellations (tr : list event) : list event := List.filter is_cancel tr.

(** The raw dictionaries of the AWS API, with the keys this file reads. *)
Record launch_config : Type := {
  LaunchConfigurationName : string;
  InstanceType : string;
  ImageId : string;
  SpotPrice : option float   (* absent for on-demand groups; [float(...)]
                                of the text otherwise *)
}.

Record raw_group : Type := {
  AutoScalingGroupName : string;
  rg_LaunchConfigurationName : string;
  DesiredCapacity : Z;
  MinSize : Z;
  MaxSize : Z;
  Tags : list (string * string);          (* Key, Value *)
  Instances : list (option string)        (* inst.get('InstanceId') *)
}.

Record activity : Type := {
  ActivityId : string;
  act_AutoScalingGroupName : string;
  StartTime : Z;
  Progress : Z;
  StatusCode : string;
  StatusMessage : option string;
  Cause : option string
}.

Record price_item : Type := {
  Timestamp : Z;
  pi_InstanceType : string;
  AvailabilityZone : string;
  pi_SpotPrice : float                    (* [float(item['SpotPrice'])] *)
}.

(** A Python dict with string keys whose iteration order is read: an
    association list in insertion order; assigning to a key that is there
    keeps its place. *)
Module Dict.
Section Dict.
Context {V : Type}.

Fixpoint get (k : string) (d : list (string * V)) : option V :=
  match d with
  | [] => None
  | (k', v) :: d' => if String.eqb k' k then Some v else get k d'
  end.

Fixpoint set (k : string) (v : V) (d : list (string * V))
  : list (string * V) :=
  match d with
  | [] => [(k, v)]
  | (k', v') :: d' =>
      if String.eqb k' k then (k', v) :: d' else (k', v') :: set k v d'
  end.

Definition keys (d : list (string * V)) : list string := d.*1.
Definition values (d : list (string * V)) : list V := d.*2.
End Dict.
End Dict.

(** ** class AutoScalingGroup

    The client is the trace.  [is_spot], [instance_type] and [_id] are
    set once in [__init__] from the other fields and are functions here.
    [selectors] and [no_schedule_taints] are only read by the selector and
    taint predicates, which take them as arguments. *)
Module AutoScalingGroup.

Record t : Type := {
  region : string;
  launch_config_of : launch_config;
  name : string;
  desired_capacity : Z;
  min_size : Z;
  max_size : Z;
  instance_ids : list string;
  nodes : list KubeNode;
  unschedulable_nodes : list KubeNode
}.

Definition is_spot (g : t) : bool :=
  bool_decide (is_Some (SpotPrice (launch_config_of g))).
Definition instance_type (g : t) : string :=
  InstanceType (launch_config_of g).
Definition _id (g : t) : string * string := (region g, name g).

Definition with_desired_capacity (g : t) (n : Z) : t :=
  {| region := region g; launch_config_of := launch_config_of g;
     name := name g; desired_capacity := n; min_size := min_size g;
     max_size := max_size g; instance_ids := instance_ids g;
     nodes := nodes g; unschedulable_nodes := unschedulable_nodes g |}.

Definition with_nodes (g : t) (ns : list KubeNode) : t :=
  {| region := region g; launch_config_of := launch_config_of g;
     name := name g; desired_capacity := desired_capacity g;
     min_size := min_size g; max_size := max_size g;
     instance_ids := instance_ids g; nodes := ns;
     unschedulable_nodes := unschedulable_nodes g |}.

(** The loop over [tags_data] of [_extract_selectors]. *)
Definition add_tag (selectors : gmap string string) (tag : string * string)
  : gmap string string :=
  let '(key, value) := tag in
  if PyStr.starts_with "kube/" key
  then <[PyStr.drop 5 key := value]> selectors
  else selectors.

(** [_extract_selectors]; [None] stands for the [IndexError] of
    [launch_config['InstanceType'][0]] on an empty instance type. *)
Definition _extract_selectors (region : string) (lc : launch_config)
    (tags_data : list (string * string)) : option (gmap string string) :=
  match InstanceType lc with
  | EmptyString => None
  | String c _ =>
      let selectors : gmap string string :=
        <["aws/region" := region]>
          (<["aws/ami-id" := ImageId lc]>
             (<["aws/class" := String c ""]>
                (<["aws/type" := InstanceType lc]> ∅))) in
      let selectors := fold_left add_tag tags_data selectors in
      aws_type ← selectors !! "aws/type";
      let selectors := <["beta.kubernetes.io/instance-type" := aws_type]> selectors in
      aws_region ← selectors !! "aws/region";
      Some (<["failure-domain.beta.kubernetes.io/region" := aws_region]> selectors)
  end.

(** [__init__].  The first thing it computes is
    [self.selectors = self._extract_selectors(...)], which raises
    [IndexError] on an empty instance type: no object is built then.
    The selectors of the object built are that dictionary; they are not
    a field of [t] (see above). *)
Definition init (reg : string) (kube_nodes : list KubeNode)
    (rg : raw_group) (lc : launch_config) : t + exn :=
  match _extract_selectors reg lc (Tags rg) with
  | None => inr IndexError
  | Some _ =>
      let ids := omap (fun i => match i with
                                | Some s => if String.eqb s "" then None else Some s
                                | None => None
                                end) (Instances rg) in
      let ns := filter (fun n => instance_id n ∈ ids) kube_nodes in
      inl {| region := reg; launch_config_of := lc;
             name := AutoScalingGroupName rg;
             desired_capacity := DesiredCapacity rg;
             min_size := MinSize rg; max_size := MaxSize rg;
             instance_ids := ids; nodes := ns;
             unschedulable_nodes := filter (fun n => unschedulable n = true) ns |}
  end.

(** [def is_timed_out(self): return False] *)
Definition is_timed_out (g : t) : bool := false.

(** [actual_capacity] *)
Definition actual_capacity (g : t) : Z := Z.of_nat (length (nodes g)).

(** [set_desired_capacity]: the provider call, then the local field;
    the future it returns holds [True]. *)
Definition set_desired_capacity (g : t) (new_desired_capacity : Z)
  : t * list event * bool :=
  (with_desired_capacity g new_desired_capacity,
   [SetDesiredCapacity (region g) (name g) new_desired_capacity],
   true).

(** [scale]: the loop over [self.unschedulable_nodes].  [uncordon] is
    the answer of [node.uncordon()]. *)
Fixpoint uncordon_loop (uncordon : KubeNode -> bool) (desired : Z)
    (num_schedulable : Z) (ns : list KubeNode) : Z * list event :=
  match ns with
  | [] => (num_schedulable, [])
  | node :: ns' =>
      if uncordon node then
        if num_schedulable + 1 =? desired
        then (num_schedulable + 1, [Uncordon node])
        else
          let '(n, tr) :=
            uncordon_loop uncordon desired (num_schedulable + 1) ns' in
          (n, Uncordon node :: tr)
      else
        let '(n, tr) := uncordon_loop uncordon desired num_schedulable ns' in
        (n, Uncordon node :: tr)
  end.

(** [scale]: the group afterwards, the calls made, and the value of the
    future returned. *)
Definition scale (uncordon : KubeNode -> bool) (g : t)
    (new_desired_capacity : Z) : t * list event * bool :=
  let desired := Z.min (max_size g) new_desired_capacity in
  let num_unschedulable := Z.of_nat (length (unschedulable_nodes g)) in
  let num_schedulable := actual_capacity g - num_unschedulable in
  let '(num_schedulable, tr) :=
    if num_schedulable <? desired
    then uncordon_loop uncordon desired num_schedulable
           (unschedulable_nodes g)
    else (num_schedulable, []) in
  if negb (desired_capacity g =? desired) then
    if desired_capacity g =? max_size g then (g, tr, false)
    else
      let scale_up := desired_capacity g <? desired in
      if scale_up then
        let '(g', tr', r) := set_desired_capacity g desired in
        (g', (tr ++ tr')%list, r)
      else (g, tr, false)
  else (g, tr, false).






(** [global_priority] *)
Definition global_priority (g : t) : Z := 0.

(** [contains] *)
Definition contains (g : t) (node : KubeNode) : bool :=
  bool_decide (instance_id node ∈ instance_ids g).

(** [is_match_for_selectors]; [self_selectors] is [self.selectors] and
    [selectors] the items of the dictionary asked about. *)
Definition is_match_for_selectors (self_selectors : gmap string string)
    (selectors : list (string * string)) : bool :=
  forallb (fun '(label, value) =>
             bool_decide (self_selectors !! label = Some value))
    selectors.

(** What [is_taints_tolerated] reads of a [KubePod] (autoscaler/kube.py,
    not part of this file). *)
Record KubePod : Type := {
  pod_selectors : list (string * string);
  no_schedule_wildcard_toleration : bool;
  no_schedule_existential_tolerations : list string
}.

(** [is_taints_tolerated]; [no_schedule_taints] are the keys of
    [self.no_schedule_taints]. *)
Definition is_taints_tolerated (self_selectors : gmap string string)
    (no_schedule_taints : list string) (pod : KubePod) : bool :=
  is_match_for_selectors self_selectors (pod_selectors pod)
  && forallb (fun key =>
                no_schedule_wildcard_toleration pod
                || bool_decide (key ∈ no_schedule_existential_tolerations pod))
       no_schedule_taints.
End AutoScalingGroup.

(** ** class AutoScalingTimeouts *)
Module AutoScalingTimeouts.
Import AutoScalingErrorMessages AutoScalingCauseMessages.

Definition _TIMEOUT : Z := 3600.
Definition _SPOT_REQUEST_TIMEOUT : Z := 300.
Definition _MAX_OUTBIDS_IN_INTERVAL : Z := 60 * 20.
Definition _SPOT_HISTORY_PERIOD : Z := 60 * 60 * 5.

(** The four dictionaries of an instance.  A timeout entry is [None]
    once it was cleared. *)
Record t : Type := {
  _timeouts : gmap (string * string) (option Z);
  _last_activities : gmap string string;
  _spot_timeouts : gmap (string * string) (option Z);
  _spot_price_history : gmap string (list price_item)
}.

Definition init : t :=
  {| _timeouts := ∅; _last_activities := ∅;
     _spot_timeouts := ∅; _spot_price_history := ∅ |}.

Definition with_timeouts (ts : t) (m : gmap (string * string) (option Z)) : t :=
  {| _timeouts := m; _last_activities := _last_activities ts;
     _spot_timeouts := _spot_timeouts ts;
     _spot_price_history := _spot_price_history ts |}.

Definition with_last_activities (ts : t) (m : gmap string string) : t :=
  {| _timeouts := _timeouts ts; _last_activities := m;
     _spot_timeouts := _spot_timeouts ts;
     _spot_price_history := _spot_price_history ts |}.

Definition with_spot_timeouts (ts : t) (m : gmap (string * string) (option Z)) : t :=
  {| _timeouts := _timeouts ts; _last_activities := _last_activities ts;
     _spot_timeouts := m;
     _spot_price_history := _spot_price_history ts |}.

Definition with_spot_price_history (ts : t)
    (m : gmap string (list price_item)) : t :=
  {| _timeouts := _timeouts ts; _last_activities := _last_activities ts;
     _spot_timeouts := _spot_timeouts ts; _spot_price_history := m |}.

(** What a pass over one group works on: the reconciler, the group
    object, and the events so far. *)
Record state : Type := {
  ts : t;
  asg : AutoScalingGroup.t;
  trace : list event
}.

Definition emit (s : state) (evs : list event) : state :=
  {| ts := ts s; asg := asg s; trace := (trace s ++ evs)%list |}.

(** [asg.set_desired_capacity(n)] *)
Definition set_desired_capacity (s : state) (n : Z) : state :=
  let '(g', evs, _) := AutoScalingGroup.set_desired_capacity (asg s) n in
  {| ts := ts s; asg := g'; trace := (trace s ++ evs)%list |}.

(** [revert_capacity] *)
Definition revert_capacity (s : state) (entry : activity) (dry_run : bool)
  : state * bool :=
  match Re.re_search LAUNCH_INSTANCE (default "" (Cause entry)) with
  | Some cause_m =>
      let original_capacity := Re.int (Re.group cause_m "original_capacity") in
      if AutoScalingGroup.desired_capacity (asg s) >? original_capacity then
        (if negb dry_run then set_desired_capacity s original_capacity
         else emit s [LogDryRunSetCapacity original_capacity],
         true)
      else (s, false)
  | None => (s, false)
  end.

(** [time_out_asg] *)
Definition time_out_asg (s : state) (entry : activity) : state :=
  {| ts := with_timeouts (ts s)
             (<[AutoScalingGroup._id (asg s) :=
                  Some (StartTime entry + seconds _TIMEOUT)]>
                (_timeouts (ts s)));
     asg := asg s; trace := trace s |}.

(** [cancel_spot_request]; [describe region request_id] is the list of
    the [State]s in the answer of [describe_spot_instance_requests]. *)
Definition cancel_spot_request (describe : string -> string -> list string)
    (region request_id : string) : bool * list event :=
  match describe region request_id with
  | [] => (false, [])
  | st :: _ =>
      if String.eqb st "open" || String.eqb st "active"
      then (true, [CancelSpotInstanceRequests region request_id])
      else (false, [])
  end.

(** How the body of the loop of [reconcile_limits] ends: with the next
    entry ([continue], or the end of the body), or with [return]. *)
Inductive control : Type := Next | Return.

Section Reconcile.
Variable describe : string -> string -> list string.
Variable now : Z.
Variable dry_run : bool.

Definition failed_entry (s : state) (entry : activity) (status_msg : string)
  : state * control :=
  match Re.re_match INSTANCE_LIMIT status_msg with
  | Some m =>
      let max_desired_capacity := Re.int (Re.group m "requested") - 1 in
      if AutoScalingGroup.desired_capacity (asg s) >? max_desired_capacity
      then
        let s := time_out_asg s entry in
        (if negb dry_run then set_desired_capacity s max_desired_capacity
         else emit s [LogDryRunSetCapacity max_desired_capacity],
         Return)
      else (s, Return)
  | None =>
  match Re.re_match VOLUME_LIMIT status_msg with
  | Some _ => (time_out_asg s entry, Return)
  | None =>
  match Re.re_match CAPACITY_LIMIT status_msg with
  | Some _ =>
      let '(s, reverted) := revert_capacity s entry dry_run in
      (if reverted then time_out_asg s entry else s, Return)
  | None =>
  if bool_decide (is_Some (Re.re_search AZ_LIMIT status_msg))
     && PyStr.contains "only-az" (AutoScalingGroup.name (asg s))
  then
    let '(s, reverted) := revert_capacity s entry dry_run in
    (if reverted then time_out_asg s entry else s, Return)
  else
  match Re.re_search SPOT_REQUEST_CANCELLED status_msg with
  | Some _ => (s, Next)
  | None =>
  match Re.re_match SPOT_LIMIT status_msg with
  | Some _ =>
      let s := time_out_asg s entry in
      let actual := AutoScalingGroup.actual_capacity (asg s) in
      (if negb dry_run then set_desired_capacity s actual
       else emit s [LogDryRunSetCapacity actual],
       Return)
  | None => (s, Next)
  end end end end end.

Definition waiting_entry (s : state) (entry : activity) (status_msg : string)
  : state * control :=
  match Re.re_search AZ_BALANCE (default "" (Cause entry)) with
  | Some _ => (s, Next)
  | None =>
      if now - StartTime entry >? seconds _SPOT_REQUEST_TIMEOUT then
        let s := time_out_asg s entry in
        match Re.re_search SPOT_REQUEST_WAITING status_msg with
        | Some spot_request_m =>
            let spot_request_id := Re.group spot_request_m "request_id" in
            if negb dry_run then
              let '(cancelled, evs) :=
                cancel_spot_request describe
                  (AutoScalingGroup.region (asg s)) spot_request_id in
              let s := emit s evs in
              if cancelled
              then (set_desired_capacity s
                      (AutoScalingGroup.desired_capacity (asg s) - 1), Next)
              else (s, Next)
            else (emit s [LogDryRunCancelSpot spot_request_id], Next)
        | None => (s, Next)
        end
      else (s, Next)
  end.

Definition reconcile_entry (s : state) (entry : activity) : state * control :=
  let status_msg := default "" (StatusMessage entry) in
  if String.eqb (StatusCode entry) "Failed"
     || String.eqb (StatusCode entry) "Cancelled"
  then failed_entry s entry status_msg
  else if String.eqb (StatusCode entry) "WaitingForSpotInstanceId"
  then waiting_entry s entry status_msg
  else (s, Next).

Fixpoint reconcile_loop (s : state) (activities : list activity)
  : state * control :=
  match activities with
  | [] => (s, Next)
  | entry :: rest =>
      match reconcile_entry s entry with
      | (s', Return) => (s', Return)
      | (s', Next) => reconcile_loop s' rest
      end
  end.

(** [reconcile_limits]: the loop, and after a loop that was not left
    by [return], [self._timeouts[asg._id] = None]. *)
Definition reconcile_limits (s : state) (activities : list activity)
  : state :=
  match reconcile_loop s activities with
  | (s', Return) => s'
  | (s', Next) =>
      {| ts := with_timeouts (ts s')
                 (<[AutoScalingGroup._id (asg s') := None]>
                    (_timeouts (ts s')));
         asg := asg s'; trace := trace s' |}
  end.
End Reconcile.

(** [is_timed_out].  [timeout and now() < timeout]: a [datetime] is
    always true, so the test is on [None] alone.  The two tests read
    the clock one after the other. *)
Definition pending (o : option Z) (now : Z) : bool :=
  match o with
  | Some until => now <? until
  | None => false
  end.

Definition is_timed_out (self : t) (now now' : Z) (g : AutoScalingGroup.t)
  : bool :=
  let timeout := mjoin (_timeouts self !! AutoScalingGroup._id g) in
  let spot_timeout := mjoin (_spot_timeouts self !! AutoScalingGroup._id g) in
  if pending timeout now then true
  else if pending spot_timeout now' then true
  else false.

(** *** refresh_timeouts: the scan of one region's activities

    [iter_activities] yields the activities of all pages in order; the
    loop of [refresh_timeouts] reads them until it breaks.  [stream] is
    that sequence. *)
Record scan_state : Type := {
  start_time_cutoff : option Z;
  newest_completed_activity : option activity;
  activities : gmap string (list activity)
}.

Definition scan_init : scan_state :=
  {| start_time_cutoff := None; newest_completed_activity := None;
     activities := ∅ |}.

Fixpoint scan (last : option string) (now : Z) (st : scan_state)
    (stream : list activity) : scan_state :=
  match stream with
  | [] => st
  | act :: rest =>
      let newest :=
        match newest_completed_activity st with
        | None => if Progress act =? 100 then Some act else None
        | Some a => Some a
        end in
      if bool_decide (Some (ActivityId act) = last) then
        {| start_time_cutoff := start_time_cutoff st;
           newest_completed_activity := newest;
           activities := activities st |}
      else
        let cutoff :=
          match start_time_cutoff st with
          | None => now - seconds _TIMEOUT
          | Some c => c
          end in
        if StartTime act <? cutoff then
          {| start_time_cutoff := Some cutoff;
             newest_completed_activity := newest;
             activities := activities st |}
        else
          let key := act_AutoScalingGroupName act in
          scan last now
            {| start_time_cutoff := Some cutoff;
               newest_completed_activity := newest;
               activities :=
                 <[key := (default [] (activities st !! key) ++ [act])%list]>
                   (activities st) |}
            rest
  end.

(** The activities the loop reads before it stops: up to and with the
    one that makes it break. *)
Fixpoint consumed (last : option string) (now : Z) (stream : list activity)
  : list activity :=
  match stream with
  | [] => []
  | act :: rest =>
      if bool_decide (Some (ActivityId act) = last) then [act]
      else if StartTime act <? now - seconds _TIMEOUT then [act]
      else act :: consumed last now rest
  end.

(** The loop over [regional_asgs]: each group object is reconciled in
    turn, on the reconciler the groups before it left. *)
Fixpoint reconcile_all (describe : string -> string -> list string)
    (now : Z) (dry_run : bool) (acts : gmap string (list activity))
    (self : t) (regional_asgs : list AutoScalingGroup.t)
  : t * list AutoScalingGroup.t * list event :=
  match regional_asgs with
  | [] => (self, [], [])
  | g :: rest =>
      let s := reconcile_limits describe now dry_run
                 {| ts := self; asg := g; trace := [] |}
                 (default [] (acts !! AutoScalingGroup.name g)) in
      let '(self', gs, evs) :=
        reconcile_all describe now dry_run acts (ts s) rest in
      (self', asg s :: gs, (trace s ++ evs)%list)
  end.

(** The body of the loop over regions: scan, record the watermark,
    reconcile.  [newest_completed_activity['ActivityId']] on [None]
    raises [TypeError], before anything is stored or reconciled. *)
Definition refresh_region (describe : string -> string -> list string)
    (now : Z) (dry_run : bool) (self : t) (region : string)
    (regional_asgs : list AutoScalingGroup.t) (stream : list activity)
  : t * list AutoScalingGroup.t * list event * option exn :=
  let st := scan (_last_activities self !! region) now scan_init stream in
  match newest_completed_activity st with
  | None => (self, regional_asgs, [], Some TypeError)
  | Some a =>
      let self := with_last_activities self
                    (<[region := ActivityId a]> (_last_activities self)) in
      let '(self', gs, evs) :=
        reconcile_all describe now dry_run (activities st) self
          regional_asgs in
      (self', gs, evs, None)
  end.

(** *** time_out_spot_asgs *)

(** [timedelta.total_seconds()]: the microseconds over 10**6, as a
    binary64 number (exact rounding below 2**53 microseconds). *)
Definition float_of_Z (z : Z) : float :=
  if z <? 0 then PrimFloat.opp (PrimFloat.of_uint63 (Uint63.of_Z (- z)))
  else PrimFloat.of_uint63 (Uint63.of_Z z).

Definition total_seconds (td : Z) : float :=
  PrimFloat.div (float_of_Z td) 1000000%float.

(** The two dictionaries of the loop over [history].  The values of
    [outbid_time] are summed in the order of the dictionary. *)
Record az_state : Type := {
  last_az_bid : gmap string Z;
  outbid_time : list (string * Z)
}.

Definition az_init : az_state := {| last_az_bid := ∅; outbid_time := [] |}.

Definition outbid_step (instance_type : string) (bid_price : float)
    (st : az_state) (item : price_item) : az_state :=
  if negb (String.eqb (pi_InstanceType item) instance_type) then st
  else
    let az := AvailabilityZone item in
    let outbid :=
      if PrimFloat.ltb bid_price (pi_SpotPrice item) then
        let time_diff :=
          match last_az_bid st !! az with
          | Some t => t - Timestamp item
          | None => seconds 0
          end in
        Dict.set az
          (default (seconds 0) (Dict.get az (outbid_time st)) + time_diff)
          (outbid_time st)
      else outbid_time st in
    {| last_az_bid := <[az := Timestamp item]> (last_az_bid st);
       outbid_time := outbid |}.

Definition outbid_times (instance_type : string) (bid_price : float)
    (history : list price_item) : list (string * Z) :=
  outbid_time (fold_left (outbid_step instance_type bid_price) history az_init).

(** The zones of [items] with an observation of [instance_type] above
    the bid. *)
Definition outbid_zone (instance_type : string) (bid : float)
    (items : list price_item) (az : string) : Prop :=
  exists item, item ∈ items /\ pi_InstanceType item = instance_type /\
               AvailabilityZone item = az /\
               PrimFloat.ltb bid (pi_SpotPrice item) = true.

(** The loop over [history] as one zone sees it: [last] is the zone's
    entry of [last_az_bid], [acc] its entry of [outbid_time], and [items]
    are the observations of the zone for the instance type. *)
Fixpoint zone_outbid (bid : float) (last acc : option Z)
    (items : list price_item) : option Z :=
  match items with
  | [] => acc
  | item :: rest =>
      let acc' :=
        if PrimFloat.ltb bid (pi_SpotPrice item) then
          Some (default (seconds 0) acc +
                match last with
                | Some t => t - Timestamp item
                | None => seconds 0
                end)
        else acc in
      zone_outbid bid (Some (Timestamp item)) acc' rest
  end.

Definition zone_items (instance_type az : string) (history : list price_item)
  : list price_item :=
  List.filter
    (fun item => String.eqb (pi_InstanceType item) instance_type
                 && String.eqb (AvailabilityZone item) az)
    history.

(** [sum(...)] adds from the left, starting at 0. *)
Definition float_sum (l : list float) : float :=
  fold_left PrimFloat.add l 0%float.

Definition avg_outbid_time (outbid : list (string * Z)) : float :=
  match outbid with
  | [] => 0%float
  | _ :: _ =>
      PrimFloat.div (float_sum (total_seconds <$> Dict.values outbid))
        (float_of_Z (Z.of_nat (length outbid)))
  end.

(** The average as the specification words it, for comparison: the
    accumulated outbid time of all zones over the number of zones whose
    accumulated outbid time is not zero. *)
Definition avg_over_nonzero_zones (outbid : list (string * Z)) : float :=
  match List.filter (fun t => negb (t =? 0)) (Dict.values outbid) with
  | [] => 0%float
  | nonzero =>
      PrimFloat.div (float_sum (total_seconds <$> Dict.values outbid))
        (float_of_Z (Z.of_nat (length nonzero)))
  end.

(** [float(asg.launch_config['SpotPrice'])]; read for spot groups only,
    where the price is there. *)
Definition bid_price (g : AutoScalingGroup.t) : float :=
  default PrimFloat.nan (SpotPrice (AutoScalingGroup.launch_config_of g)).

(** The body of [for asg in asgs]. *)
Definition evaluate_spot_asg (now : Z) (history : list price_item)
    (instance_type : string) (self : t) (g : AutoScalingGroup.t) : t :=
  let avg := avg_outbid_time (outbid_times instance_type (bid_price g) history) in
  if PrimFloat.ltb (float_of_Z _MAX_OUTBIDS_IN_INTERVAL) avg then
    with_spot_timeouts self
      (<[AutoScalingGroup._id g := Some (now + seconds _TIMEOUT)]>
         (_spot_timeouts self))
  else
    with_spot_timeouts self
      (<[AutoScalingGroup._id g := None]> (_spot_timeouts self)).

(** [region_instance_asg_map] *)
Definition region_instance_asg_map (asgs : list AutoScalingGroup.t)
  : list (string * list (string * list AutoScalingGroup.t)) :=
  fold_left
    (fun m g =>
       if negb (AutoScalingGroup.is_spot g) then m
       else
         let instance_asg_map :=
           default [] (Dict.get (AutoScalingGroup.region g) m) in
         let instance_type := AutoScalingGroup.instance_type g in
         let l := default [] (Dict.get instance_type instance_asg_map) in
         Dict.set (AutoScalingGroup.region g)
           (Dict.set instance_type (l ++ [g])%list instance_asg_map) m)
    asgs [].

(** [max(item['Timestamp'] for item in history)] on a history that is
    not empty, [since] on an empty one. *)
Definition newest_spot_price (since : Z) (history : list price_item) : Z :=
  match history with
  | [] => since
  | item :: rest => fold_left (fun m i => Z.max m (Timestamp i)) rest (Timestamp item)
  end.

(** The body of the loop over regions; [fetch region start types] is
    what [describe_spot_price_history] returns, all pages. *)
Definition spot_region
    (fetch : string -> Z -> list string -> list price_item) (now : Z)
    (self : t)
    (entry : string * list (string * list AutoScalingGroup.t)) : t :=
  let '(region, instance_asg_map) := entry in
  let since := now - seconds _SPOT_HISTORY_PERIOD in
  let history :=
    filter (fun item => Timestamp item > since)
      (default [] (_spot_price_history self !! region)) in
  let history :=
    (history ++ fetch region (newest_spot_price since history)
                  (Dict.keys instance_asg_map))%list in
  let self :=
    with_spot_price_history self
      (<[region := history]> (_spot_price_history self)) in
  fold_left
    (fun self '(instance_type, asgs) =>
       fold_left (evaluate_spot_asg now history instance_type) asgs self)
    instance_asg_map self.

Definition time_out_spot_asgs
    (fetch : string -> Z -> list string -> list price_item) (now : Z)
    (self : t) (asgs : list AutoScalingGroup.t) : t :=
  fold_left (spot_region fetch now) (region_instance_asg_map asgs) self.

(** *** refresh_timeouts *)

Definition asgs_by_region (asgs : list AutoScalingGroup.t)
  : list (string * list AutoScalingGroup.t) :=
  fold_left
    (fun m g =>
       let r := AutoScalingGroup.region g in
       Dict.set r (default [] (Dict.get r m) ++ [g])%list m)
    asgs [].

(** The loop over regions stops at the first exception; the regions
    after it are not looked at. *)
Fixpoint refresh_regions (describe : string -> string -> list string)
    (activities_of : string -> list activity) (now : Z) (dry_run : bool)
    (self : t) (regions : list (string * list AutoScalingGroup.t))
  : t * list (string * list AutoScalingGroup.t) * list event * option exn :=
  match regions with
  | [] => (self, [], [], None)
  | (region, regional_asgs) :: rest =>
      match refresh_region describe now dry_run self region regional_asgs
              (activities_of region) with
      | (self', gs, evs, Some e) =>
          (self', (region, gs) :: rest, evs, Some e)
      | (self', gs, evs, None) =>
          let '(self'', rest', evs', e) :=
            refresh_regions describe activities_of now dry_run self' rest in
          (self'', (region, gs) :: rest', (evs ++ evs')%list, e)
      end
  end.

Definition refresh_timeouts
    (fetch : string -> Z -> list string -> list price_item)
    (describe : string -> string -> list string)
    (activities_of : string -> list activity) (now : Z) (dry_run : bool)
    (self : t) (asgs : list AutoScalingGroup.t)
  : t * list (string * list AutoScalingGroup.t) * list event * option exn :=
  let self := time_out_spot_asgs fetch now self asgs in
  refresh_regions describe activities_of now dry_run self
    (asgs_by_region asgs).

(** *** iter_activities

    One answer of [describe_scaling_activities]: the activities of the
    page and [data.get('NextToken')]. *)
Record page : Type := {
  Activities : list activity;
  NextToken : option string
}.

(** [if next_token]: [None] and the empty string are false. *)
Definition truthy (next_token : option string) : bool :=
  match next_token with
  | Some tok => negb (String.eqb tok "")
  | None => false
  end.

(** [iter_activities], run to its end: the activities it yields, in
    order.  [describe (Some tok)] is the answer to a call with
    [NextToken=tok], [describe None] the answer to a call without.  The
    [while True] loop has no bound of its own: [fuel] bounds the number
    of pages, and [None] says that it was not enough. *)
Fixpoint iter_activities (fuel : nat) (describe : option string -> page)
    (next_token : option string) : option (list activity) :=
  match fuel with
  | O => None
  | S fuel' =>
      let kwargs := if truthy next_token then next_token else None in
      let data := describe kwargs in
      let next_token := NextToken data in
      if negb (truthy next_token) then Some (Activities data)
      else
        app (Activities data) <$> iter_activities fuel' describe next_token
  end.
End AutoScalingTimeouts.

(** ** class AutoScalingGroups *)
Module AutoScalingGroups.

Definition _CLUSTER_KEY : string := "KubernetesCluster".
Definition _ROLE_KEYS : list string := ["KubernetesRole"; "Role"].
Definition _WORKER_ROLE_VALUES : list string := ["worker"; "kubernetes-minion"].

(** [range(0, stop, step)] for a positive step. *)
Definition range0 (stop step : nat) : list nat :=
  (fun k => k * step)%nat <$> seq 0 ((stop + step - 1) / step)%nat.

(** [l[a:b]] for [0 <= a <= b]; a slice past the end is empty. *)
Definition slice {A : Type} (a b : nat) (l : list A) : list A :=
  take (b - a) (drop a l).

Definition batch_size : nat := 50.

(** The values of [kwargs['LaunchConfigurationNames']], one per round
    of the loop. *)
Definition launch_config_batches (raw_groups : list raw_group)
  : list (list string) :=
  (fun launch_config_idx =>
     rg_LaunchConfigurationName <$>
       slice (launch_config_idx * batch_size)
             ((launch_config_idx + 1) * batch_size) raw_groups)
    <$> range0 (length raw_groups) batch_size.

(** [all_launch_configs.update(...)] *)
Definition update (m : gmap string launch_config) (lcs : list launch_config)
  : gmap string launch_config :=
  fold_left (fun m lc => <[LaunchConfigurationName lc := lc]> m) lcs m.

(** [get_all_raw_groups_and_launch_configs]; [raw_groups] is what the
    paginated [describe_auto_scaling_groups] returned, and
    [describe_launch_configurations names] what the provider answers
    to a request for [names], all pages.  (aws_utils.fetch_all is not
    part of this file.) *)
Definition get_all_raw_groups_and_launch_configs
    (describe_launch_configurations : list string -> list launch_config)
    (raw_groups : list raw_group)
  : list raw_group * gmap string launch_config :=
  (raw_groups,
   fold_left (fun m names => update m (describe_launch_configurations names))
     (launch_config_batches raw_groups) ∅).

(** [sorted(raw_groups, key=lambda g: g['AutoScalingGroupName'])]:
    stable, by the code points of the names. *)
Fixpoint insert_by_name (g : raw_group) (l : list raw_group) : list raw_group :=
  match l with
  | [] => [g]
  | h :: l' =>
      if String.leb (AutoScalingGroupName g) (AutoScalingGroupName h)
      then g :: h :: l'
      else h :: insert_by_name g l'
  end.

Definition sorted_by_name (l : list raw_group) : list raw_group :=
  foldr insert_by_name [] l.

(** The loop over [raw_group['Tags']]. *)
Definition scan_tags (tags : list (string * string))
  : option string * option string :=
  fold_left
    (fun '(cluster_name, role) '(key, value) =>
       if String.eqb key _CLUSTER_KEY then (Some value, role)
       else if bool_decide (key ∈ _ROLE_KEYS) then (cluster_name, Some value)
       else (cluster_name, role))
    tags (None, None).

(** Does the group pass the filter of [self.cluster_name]?  [None] and
    the empty name switch the filter off. *)
Definition selected (cluster_name : option string) (rg : raw_group) : bool :=
  match cluster_name with
  | None => true
  | Some cn =>
      if String.eqb cn "" then true
      else
        let '(c, role) := scan_tags (Tags rg) in
        let role_not_worker :=
          match role with
          | Some r => negb (bool_decide (r ∈ _WORKER_ROLE_VALUES))
          | None => true
          end in
        negb (negb (bool_decide (c = Some cn)) || role_not_worker)
  end.

(** The loop over the sorted groups of one region: the groups built, or
    the first exception: the [KeyError] of
    [launch_configs[raw_group['LaunchConfigurationName']]], or what the
    constructor raises. *)
Fixpoint build_groups (cluster_name : option string) (region : string)
    (kube_nodes : list KubeNode) (launch_configs : gmap string launch_config)
    (sorted_groups : list raw_group) : list AutoScalingGroup.t + exn :=
  match sorted_groups with
  | [] => inl []
  | rg :: rest =>
      if negb (selected cluster_name rg)
      then build_groups cluster_name region kube_nodes launch_configs rest
      else
        match launch_configs !! rg_LaunchConfigurationName rg with
        | None => inr (KeyError (rg_LaunchConfigurationName rg))
        | Some lc =>
            match AutoScalingGroup.init region kube_nodes rg lc with
            | inr e => inr e
            | inl g =>
                match build_groups cluster_name region kube_nodes
                        launch_configs rest with
                | inl gs => inl (g :: gs)
                | inr e => inr e
                end
            end
        end
  end.

(** [get_all_groups]; the fetches of the regions run in a thread pool
    and are joined in the order of [self.regions]. *)
Fixpoint get_all_groups
    (describe_auto_scaling_groups : string -> list raw_group)
    (describe_launch_configurations : string -> list string -> list launch_config)
    (cluster_name : option string) (regions : list string)
    (kube_nodes : list KubeNode) : list AutoScalingGroup.t + exn :=
  match regions with
  | [] => inl []
  | region :: rest =>
      let '(raw_groups, launch_configs) :=
        get_all_raw_groups_and_launch_configs
          (describe_launch_configurations region)
          (describe_auto_scaling_groups region) in
      match build_groups cluster_name region kube_nodes launch_configs
              (sorted_by_name raw_groups) with
      | inr e => inr e
      | inl gs =>
          match get_all_groups describe_auto_scaling_groups
                  describe_launch_configurations cluster_name rest
                  kube_nodes with
          | inl gs' => inl (gs ++ gs')%list
          | inr e => inr e
          end
      end
  end.
End AutoScalingGroups.

(** ** Notions the properties are stated with *)

(** A pass over a group writes [_timeouts] and nothing else of the
    reconciler. *)
Definition same_but_timeouts (a b : AutoScalingTimeouts.t) : Prop :=
  AutoScalingTimeouts._last_activities a
    = AutoScalingTimeouts._last_activities b /\
  AutoScalingTimeouts._spot_timeouts a
    = AutoScalingTimeouts._spot_timeouts b /\
  AutoScalingTimeouts._spot_price_history a
    = AutoScalingTimeouts._spot_price_history b.

(** [int(cause_m.group('original_capacity'))] of [revert_capacity], when
    the cause of the activity is a launch. *)
Definition original_capacity_of (entry : activity) : option Z :=
  (fun cause_m => Re.int (Re.group cause_m "original_capacity"))
    <$> Re.re_search AutoScalingCauseMessages.LAUNCH_INSTANCE
          (default "" (Cause entry)).

(** The failures that [reconcile_limits] answers with [revert_capacity]:
    a capacity limit, or an AZ limit on a group named only-az. *)
Definition reverting (g : AutoScalingGroup.t) (msg : string) : Prop :=
  is_Some (Re.re_match AutoScalingErrorMessages.CAPACITY_LIMIT msg) \/
  (is_Some (Re.re_search AutoScalingErrorMessages.AZ_LIMIT msg) /\
   PyStr.contains "only-az" (AutoScalingGroup.name g) = true).

(** The statuses [reconcile_limits] looks at. *)
Definition looked_at (status : string) : Prop :=
  status = "Failed" \/ status = "Cancelled" \/
  status = "WaitingForSpotInstanceId".

(** A spot request that [reconcile_limits] tries to cancel: waiting for
    more than 5 minutes, not an AZ-balance launch, with the request
    identifier in its status message. *)
Definition overdue_spot_request (now : Z) (entry : activity) : Prop :=
  StatusCode entry = "WaitingForSpotInstanceId" /\
  Re.re_search AutoScalingCauseMessages.AZ_BALANCE
    (default "" (Cause entry)) = None /\
  now - StartTime entry > seconds 300 /\
  is_Some (Re.re_search AutoScalingErrorMessages.SPOT_REQUEST_WAITING
             (default "" (StatusMessage entry))).

(** An event that concerns the group [g] alone: a capacity change of
    [g], a cancellation in its region, or a log line. *)
Definition about (g : AutoScalingGroup.t) (ev : event) : Prop :=
  match ev with
  | SetDesiredCapacity r n _ =>
      r = AutoScalingGroup.region g /\ n = AutoScalingGroup.name g
  | CancelSpotInstanceRequests r _ => r = AutoScalingGroup.region g
  | TerminateInstanceInAutoScalingGroup _ _ => False
  | Uncordon _ => False
  | _ => True
  end.

(** [spot_request_m.group('request_id')] of a waiting spot request. *)
Definition request_id_of (entry : activity) : string :=
  default ""
    ((fun m => Re.group m "request_id")
       <$> Re.re_search AutoScalingErrorMessages.SPOT_REQUEST_WAITING
             (default "" (StatusMessage entry))).

(** The activities at which the scan of [refresh_timeouts] breaks: the
    stored watermark of the region, or one that started more than an
    hour before the scan. *)
Definition scan_stops_at (last : option string) (now : Z) (act : activity)
  : Prop :=
  Some (ActivityId act) = last \/
  StartTime act < now - seconds AutoScalingTimeouts._TIMEOUT.

(** [list(instance_asg_map.keys())] of [time_out_spot_asgs] for a
    region: the instance types asked of [describe_spot_price_history]. *)
Definition spot_types (asgs : list AutoScalingGroup.t) (r : string)
  : list string :=
  Dict.keys
    (default [] (Dict.get r (AutoScalingTimeouts.region_instance_asg_map asgs))).

(** The price history [time_out_spot_asgs] stores for a region: what is
    left of the stored one after the entries of more than five hours
    ago are dropped, then what the provider returns. *)
Definition spot_history
    (fetch : string -> Z -> list string -> list price_item) (now : Z)
    (self : AutoScalingTimeouts.t) (r : string) (types : list string)
  : list price_item :=
  let since := now - seconds AutoScalingTimeouts._SPOT_HISTORY_PERIOD in
  let kept :=
    filter (fun item => Timestamp item > since)
      (default [] (AutoScalingTimeouts._spot_price_history self !! r)) in
  (kept ++ fetch r (AutoScalingTimeouts.newest_spot_price since kept) types)%list.

(** The value [time_out_spot_asgs] writes to the spot channel of a
    group, given the history of its region. *)
Definition spot_verdict (now : Z) (history : list price_item)
    (instance_type : string) (g : AutoScalingGroup.t) : option Z :=
  if PrimFloat.ltb
       (AutoScalingTimeouts.float_of_Z AutoScalingTimeouts._MAX_OUTBIDS_IN_INTERVAL)
       (AutoScalingTimeouts.avg_outbid_time
          (AutoScalingTimeouts.outbid_times instance_type
             (AutoScalingTimeouts.bid_price g) history))
  then Some (now + seconds AutoScalingTimeouts._TIMEOUT)
  else None.

(** The writes to [_spot_timeouts] of one region, in order. *)
Definition spot_writes (now : Z) (history : list price_item)
    (instance_asg_map : list (string * list AutoScalingGroup.t))
  : list ((string * string) * option Z) :=
  concat
    (map (fun entry : string * list AutoScalingGroup.t =>
            map (fun g => (AutoScalingGroup._id g,
                           spot_verdict now history entry.1 g)) entry.2)
       instance_asg_map).

Definition apply_writes (writes : list ((string * string) * option Z))
    (m : gmap (string * string) (option Z)) : gmap (string * string) (option Z) :=
  fold_left (fun m w => <[w.1 := w.2]> m) writes m.

(** The value of the last tag with key [kube/k], if there is one. *)
Definition kube_tag (tags : list (string * string)) (k : string)
  : option string :=
  snd <$> last (filter (fun t => t.1 = String.append "kube/" k) tags).

(** The order of [sorted]: strings compared by their code points. *)
Definition name_le (a b : string) : Prop := String.leb a b = true.

(** The value of the last tag whose key is one of [keys], if there is
    one. *)
Definition last_tag (keys : list string) (tags : list (string * string))
  : option string :=
  snd <$> last (filter (fun t => t.1 ∈ keys) tags).

(** The pages a provider serves from the call with [kwargs] on: each
    page but the last carries a token that is not empty, and the call
    with that token is answered with the next page. *)
Inductive serves (describe : option string -> AutoScalingTimeouts.page)
  : option string -> list AutoScalingTimeouts.page -> Prop :=
| serves_last (kwargs : option string) :
    AutoScalingTimeouts.truthy
      (AutoScalingTimeouts.NextToken (describe kwargs)) = false ->
    serves describe kwargs [describe kwargs]
| serves_more (kwargs : option string)
    (pages : list AutoScalingTimeouts.page) :
    AutoScalingTimeouts.truthy
      (AutoScalingTimeouts.NextToken (describe kwargs)) = true ->
    serves describe (AutoScalingTimeouts.NextToken (describe kwargs)) pages ->
    serves describe kwargs (describe kwargs :: pages).

(** The items of a pattern text that holds no operator but the dot. *)
Fixpoint literal (text : string) : Re.regex :=
  match text with
  | EmptyString => []
  | String a text' =>
      Re.One (if Ascii.eqb a "." then Re.Dot else Re.Exact a) :: literal text'
  end.

(** The characters of a text, one string each. *)
Fixpoint chars (text : string) : list string :=
  match text with
  | EmptyString => []
  | String a text' => String a "" :: chars text'
  end.

(** A run of decimal digits that is not empty. *)
Fixpoint all_digits (text : string) : bool :=
  match text with
  | EmptyString => true
  | String a text' => Re.is_digit a && all_digits text'
  end.

Definition digits (text : string) : Prop :=
  text <> "" /\ all_digits text = true.

(** The status message of an instance-limit failure asking for [n]
    instances at a limit of [l], followed by [tail]. *)
Definition instance_limit_message (n l tail : string) : string :=
  String.append "You have requested more instances ("
    (String.append n
       (String.append ") than your current instance limit of "
          (String.append l
             (String.append
                " allows for the specified instance type. Please visit http://aws.amazon.com/contact-us/ec2-request to request an adjustment to this limit. Launching EC2 instance failed."
                tail)))).

(** Closes the leaves of the case analysis of one activity: the other
    timeouts, the group and the events added. *)
Ltac frame_leaf :=
  cbn [AutoScalingTimeouts.ts AutoScalingTimeouts.asg
       AutoScalingTimeouts.trace fst AutoScalingTimeouts._timeouts
       AutoScalingTimeouts.with_timeouts];
  split; [intros id Hid; rewrite ?lookup_insert_ne by done; reflexivity |];
  split; [reflexivity |];
  eexists; split;
    [rewrite <- ?app_assoc; first [reflexivity | symmetry; apply app_nil_r]
    | simpl; repeat constructor].

(** Closes the side conditions on traces: what was filtered out of a
    trace that grew at its end, and that it grew at its end. *)
Ltac trace_facts :=
  unfold mutations, cancellations; simpl;
  rewrite ?List.filter_app; simpl; rewrite ?app_nil_r;
  try done;
  try (repeat (apply prefix_app_r); reflexivity).

(** ** Sample data: one group, a few activities and provider answers *)
Module Sample.
Definition lc : launch_config :=
  {| LaunchConfigurationName := "workers-lc"; InstanceType := "m4.large";
     ImageId := "ami-1"; SpotPrice := None |}.

Definition node (i : nat) : KubeNode :=
  {| node_obj := i; instance_id := String.append "i-" (pretty i);
     unschedulable := false |}.
Definition n1 : KubeNode := node 1.
Definition n2 : KubeNode := node 2.
Definition n3 : KubeNode := node 3.

Definition group : AutoScalingGroup.t :=
  {| AutoScalingGroup.region := "us-east-1";
     AutoScalingGroup.launch_config_of := lc;
     AutoScalingGroup.name := "workers";
     AutoScalingGroup.desired_capacity := 12;
     AutoScalingGroup.min_size := 1;
     AutoScalingGroup.max_size := 20;
     AutoScalingGroup.instance_ids := ["i-1"; "i-2"; "i-3"];
     AutoScalingGroup.nodes := [n1; n2; n3];
     AutoScalingGroup.unschedulable_nodes := [] |}.

Definition start : AutoScalingTimeouts.state :=
  {| AutoScalingTimeouts.ts := AutoScalingTimeouts.init;
     AutoScalingTimeouts.asg := group;
     AutoScalingTimeouts.trace := [] |}.

Definition now : Z := seconds 10000.

Definition limit_failure : activity :=
  {| ActivityId := "a-2"; act_AutoScalingGroupName := "workers";
     StartTime := seconds 8000; Progress := 100; StatusCode := "Failed";
     StatusMessage := Some
       "You have requested more instances (12) than your current instance limit of 10 allows for the specified instance type. Please visit http://aws.amazon.com/contact-us/ec2-request to request an adjustment to this limit. Launching EC2 instance failed.";
     Cause := None |}.

Definition waiting : activity :=
  {| ActivityId := "a-3"; act_AutoScalingGroupName := "workers";
     StartTime := seconds 9000; Progress := 30;
     StatusCode := "WaitingForSpotInstanceId";
     StatusMessage := Some
       "Placed Spot instance request: sir-1. Waiting for instance(s)";
     Cause := None |}.

Definition in_progress : activity :=
  {| ActivityId := "a-4"; act_AutoScalingGroupName := "workers";
     StartTime := seconds 9900; Progress := 50;
     StatusCode := "InProgress"; StatusMessage := None; Cause := None |}.

Definition launch_cause : string :=
  "At 2016-05-02T10:11:12Z an instance was started in response to a difference between desired and actual capacity, increasing the capacity from 10 to 12.".

Definition failure (id msg : string) (cause : option string) : activity :=
  {| ActivityId := id; act_AutoScalingGroupName := "workers";
     StartTime := seconds 8000; Progress := 100; StatusCode := "Failed";
     StatusMessage := Some msg; Cause := cause |}.

Definition volume_failure : activity :=
  failure "a-5"
    "Instance became unhealthy while waiting for instance to be in InService state. Termination Reason: Client.VolumeLimitExceeded: Volume limit exceeded"
    None.

Definition capacity_failure : activity :=
  failure "a-6" "Insufficient capacity. Launching EC2 instance failed."
    (Some launch_cause).

Definition az_failure : activity :=
  failure "a-7"
    "We currently do not have sufficient m4.large capacity in the Availability Zone you requested (us-east-1a). Our system will be working on provisioning additional capacity."
    (Some launch_cause).

Definition cancelled_request : activity :=
  failure "a-8" "Spot instance request: sir-1 has been cancelled." None.

Definition spot_limit_failure : activity :=
  failure "a-9"
    "Max spot instance count exceeded. Placing Spot instance request failed."
    None.

Definition successful : activity :=
  {| ActivityId := "a-1"; act_AutoScalingGroupName := "workers";
     StartTime := seconds 7000; Progress := 100; StatusCode := "Successful";
     StatusMessage := None; Cause := Some launch_cause |}.

(** A second request waiting since 9100 s. *)
Definition waiting' : activity :=
  {| ActivityId := "a-10"; act_AutoScalingGroupName := "workers";
     StartTime := seconds 9100; Progress := 30;
     StatusCode := "WaitingForSpotInstanceId";
     StatusMessage := Some
       "Placed Spot instance request: sir-2. Waiting for instance(s)";
     Cause := None |}.

(** [describe_spot_instance_requests]: nothing known, or one open
    request. *)
Definition no_requests : string -> string -> list string := fun _ _ => [].
Definition open_requests : string -> string -> list string :=
  fun _ _ => ["open"].





(** A spot group bidding 0.25, and a price history (newest first) in
    which zone [us-east-1a] is above the bid at 9000 s and at 7500 s
    and zone [us-east-1b] at 9000 s only. *)
Definition spot_lc : launch_config :=
  {| LaunchConfigurationName := "spot-lc"; InstanceType := "m4.large";
     ImageId := "ami-1"; SpotPrice := Some 0.25%float |}.

Definition spot_group : AutoScalingGroup.t :=
  {| AutoScalingGroup.region := "us-east-1";
     AutoScalingGroup.launch_config_of := spot_lc;
     AutoScalingGroup.name := "spot-workers";
     AutoScalingGroup.desired_capacity := 3;
     AutoScalingGroup.min_size := 0;
     AutoScalingGroup.max_size := 10;
     AutoScalingGroup.instance_ids := [];
     AutoScalingGroup.nodes := [];
     AutoScalingGroup.unschedulable_nodes := [] |}.

Definition price (t : Z) (az : string) (p : float) : price_item :=
  {| Timestamp := seconds t; pi_InstanceType := "m4.large";
     AvailabilityZone := az; pi_SpotPrice := p |}.

Definition history : list price_item :=
  [price 9000 "us-east-1a" 0.5%float;
   price 7500 "us-east-1a" 0.5%float;
   price 9000 "us-east-1b" 0.5%float].

(** Zone [us-east-1a] alone, outbid from 7500 s to 9000 s. *)
Definition history_a : list price_item :=
  [price 9000 "us-east-1a" 0.5%float;
   price 7500 "us-east-1a" 0.5%float].

(** Scaling groups [asg-0], [asg-1], ... with launch configurations
    [lc-0], [lc-1], ..., and a provider that answers a request for
    launch configurations with exactly the ones asked for. *)
Definition raw (i : nat) : raw_group :=
  {| AutoScalingGroupName := String.append "asg-" (pretty i);
     rg_LaunchConfigurationName := String.append "lc-" (pretty i);
     DesiredCapacity := 1; MinSize := 0; MaxSize := 2;
     Tags := []; Instances := [] |}.

Definition raw_groups (n : nat) : list raw_group := raw <$> seq 0 n.

Definition configuration (n : string) : launch_config :=
  {| LaunchConfigurationName := n; InstanceType := "m4.large";
     ImageId := "ami-1"; SpotPrice := None |}.

Definition asked_for (names : list string) : list launch_config :=
  configuration <$> names.
End Sample.

(** * Properties *)

Import AutoScalingGroup AutoScalingTimeouts.

(** The patterns of the file are inside the fragment [Re.parse] reads. *)
Lemma patterns_compile :
  Forall (fun src => is_Some (Re.parse src))
    [ "You have requested more instances \((?P<requested>\d+)\) than your current instance limit of (?P<limit>\d+) allows for the specified instance type. Please visit http://aws.amazon.com/contact-us/ec2-request to request an adjustment to this limit. Launching EC2 instance failed.";
      "Instance became unhealthy while waiting for instance to be in InService state. Termination Reason: Client.VolumeLimitExceeded: Volume limit exceeded";
      "Insufficient capacity\. Launching EC2 instance failed\.";
      "Placed Spot instance request: (?P<request_id>.+). Waiting for instance\(s\)";
      "Spot instance request: (?P<request_id>.+) has been cancelled\.";
      "Max spot instance count exceeded\. Placing Spot instance request failed\.";
      "We currently do not have sufficient .+ capacity in the Availability Zone you requested (.+)\.";
      "At \d\d\d\d-\d\d-\d\dT\d\d:\d\d:\d\dZ an instance was started in response to a difference between desired and actual capacity, increasing the capacity from (?P<original_capacity>\d+) to (?P<target_capacity>\d+)\.";
      "An instance was launched to aid in balancing the group\'s zones\." ].
Proof. repeat constructor; vm_compute; eauto. Qed.

(** The matcher on messages of the provider. *)
Example instance_limit_requested :
  (fun m => (Re.int (Re.group m "requested"), Re.int (Re.group m "limit")))
    <$> Re.re_match AutoScalingErrorMessages.INSTANCE_LIMIT
          (default "" (StatusMessage Sample.limit_failure))
  = Some (12, 10).
Proof. vm_compute. reflexivity. Qed.

Example spot_request_id :
  (fun m => Re.group m "request_id")
    <$> Re.re_search AutoScalingErrorMessages.SPOT_REQUEST_WAITING
          (default "" (StatusMessage Sample.waiting))
  = Some "sir-1".
Proof. vm_compute. reflexivity. Qed.

Example launch_instance_capacities :
  (fun m => (Re.int (Re.group m "original_capacity"),
             Re.int (Re.group m "target_capacity")))
    <$> Re.re_search AutoScalingCauseMessages.LAUNCH_INSTANCE
          "At 2016-05-02T10:11:12Z an instance was started in response to a difference between desired and actual capacity, increasing the capacity from 3 to 14."
  = Some (3, 14).
Proof. vm_compute. reflexivity. Qed.

Example match_is_anchored :
  Re.re_match AutoScalingErrorMessages.CAPACITY_LIMIT
    "Error: Insufficient capacity. Launching EC2 instance failed." = None /\
  is_Some (Re.re_search AutoScalingErrorMessages.CAPACITY_LIMIT
    "Error: Insufficient capacity. Launching EC2 instance failed.").
Proof. vm_compute. split; eauto. Qed.

(** ** is_timed_out *)

Lemma pending_spec (o : option Z) (now : Z) :
  pending o now = true <-> exists until, o = Some until /\ now < until.
Proof.
  destruct o as [u|]; simpl.
  - rewrite Z.ltb_lt. split; [eauto | intros (? & [= <-] & ?); done].
  - split; [done | intros (? & ? & _); done].
Qed.

Lemma mjoin_lookup_Some (m : gmap (string * string) (option Z)) k (v : Z) :
  mjoin (m !! k) = Some v <-> m !! k = Some (Some v).
Proof. destruct (m !! k) as [[?|]|]; simpl; split; congruence. Qed.

(** With two clock reads [now] and [now'], the first for the ordinary
    channel and the second for the spot channel. *)
Lemma is_timed_out_reads (self : AutoScalingTimeouts.t) (now now' : Z)
    (g : AutoScalingGroup.t) :
  AutoScalingTimeouts.is_timed_out self now now' g = true <->
  (exists until, _timeouts self !! _id g = Some (Some until) /\ now < until) \/
  (exists until, _spot_timeouts self !! _id g = Some (Some until) /\ now' < until).
Proof.
  unfold AutoScalingTimeouts.is_timed_out.
  destruct (pending (mjoin (_timeouts self !! _id g)) now) eqn:Ho.
  - split; [intros _; left | done].
    apply pending_spec in Ho as (u & Hu & ?). exists u.
    by rewrite <- mjoin_lookup_Some.
  - destruct (pending (mjoin (_spot_timeouts self !! _id g)) now') eqn:Hs.
    + split; [intros _; right | done].
      apply pending_spec in Hs as (u & Hu & ?). exists u.
      by rewrite <- mjoin_lookup_Some.
    + split; [done |].
      intros [(u & Hu & ?) | (u & Hu & ?)]; apply mjoin_lookup_Some in Hu.
      * assert (pending (mjoin (_timeouts self !! _id g)) now = true)
          by (apply pending_spec; eauto). congruence.
      * assert (pending (mjoin (_spot_timeouts self !! _id g)) now' = true)
          by (apply pending_spec; eauto). congruence.
Qed.

(** C2.  At evaluation time [now], the reconciler's [is_timed_out] is true
    exactly when the ordinary expiry of the group is there (not [None])
    and [now] is strictly before it, or the spot expiry is there and
    [now] is strictly before it; which of the two channels holds the
    expiry does not matter. *)
Theorem is_timed_out_iff (self : AutoScalingTimeouts.t) (now : Z)
    (g : AutoScalingGroup.t) :
  AutoScalingTimeouts.is_timed_out self now now g = true <->
  (exists until, _timeouts self !! _id g = Some (Some until) /\ now < until) \/
  (exists until, _spot_timeouts self !! _id g = Some (Some until) /\ now < until).
Proof. apply is_timed_out_reads. Qed.

(** ** AutoScalingGroup.is_timed_out *)

(** C10.  The group's own [is_timed_out] is false for every group,
    whatever the reconciler holds: for every group and time there is a
    reconciler state whose [is_timed_out] query says the group is timed
    out, and the group's method still answers false. *)
Theorem group_is_timed_out_never (g : AutoScalingGroup.t) :
  (forall (self : AutoScalingTimeouts.t) (now : Z),
      AutoScalingGroup.is_timed_out g = false) /\
  (forall now : Z, exists self : AutoScalingTimeouts.t,
      AutoScalingTimeouts.is_timed_out self now now g = true /\
      AutoScalingGroup.is_timed_out g = false).
Proof.
  split; [done |].
  intros now.
  exists (with_timeouts AutoScalingTimeouts.init
            (<[_id g := Some (now + 1)]> ∅)).
  split; [| done].
  apply is_timed_out_reads. left. exists (now + 1). split; [| lia].
  simpl. apply lookup_insert_eq.
Qed.

(** ** scale *)

Lemma mutations_app (tr tr' : list event) :
  mutations (tr ++ tr') = (mutations tr ++ mutations tr')%list.
Proof. apply List.filter_app. Qed.

Lemma uncordon_loop_no_mutation uncordon desired n ns :
  mutations (uncordon_loop uncordon desired n ns).2 = [].
Proof.
  revert n. induction ns as [|node ns IH]; intros n; simpl; [done |].
  destruct (uncordon node).
  - destruct (n + 1 =? desired); [done |].
    specialize (IH (n + 1)).
    destruct (uncordon_loop uncordon desired (n + 1) ns); simpl in *. done.
  - specialize (IH n).
    destruct (uncordon_loop uncordon desired n ns); simpl in *. done.
Qed.

(** C7.  [scale] never lowers [desired_capacity].  The only provider
    mutation it can issue is one [set_desired_capacity] to
    [min(max_size, target)], and it issues it exactly when that value is
    strictly above the current [desired_capacity]; the future then holds
    true and the local field holds the new value.  In every other case,
    so when the target is at or below the current value or the group is
    at [max_size], the group is unchanged, nothing is mutated and the
    future holds false. *)
Theorem scale_only_grows (uncordon : KubeNode -> bool)
    (g : AutoScalingGroup.t) (target : Z) :
  let desired := Z.min (max_size g) target in
  let '(g', tr, r) := scale uncordon g target in
  desired_capacity g <= desired_capacity g' /\
  (r = true <-> desired_capacity g < desired_capacity g') /\
  (if decide (desired_capacity g < desired)
   then r = true /\
        g' = with_desired_capacity g desired /\
        mutations tr = [SetDesiredCapacity (region g) (name g) desired]
   else r = false /\ g' = g /\ mutations tr = []) /\
  (target <= desired_capacity g \/ desired_capacity g = max_size g ->
   r = false /\ g' = g /\ mutations tr = []).
Proof.
  intros desired. unfold scale. fold desired.
  set (num := actual_capacity g - Z.of_nat (length (unschedulable_nodes g))).
  assert (Hun : forall p : Z * list event,
             p = (if num <? desired
                  then uncordon_loop uncordon desired num (unschedulable_nodes g)
                  else (num, [])) -> mutations p.2 = []).
  { intros p ->. destruct (num <? desired); [| done].
    apply uncordon_loop_no_mutation. }
  specialize (Hun _ eq_refl).
  destruct (if num <? desired then _ else _) as [n tr]; simpl in Hun.
  destruct (decide (desired_capacity g < desired)) as [Hlt | Hge].
  - destruct (Z.eqb_spec (desired_capacity g) desired); [lia |].
    destruct (Z.eqb_spec (desired_capacity g) (max_size g)); [lia |].
    destruct (Z.ltb_spec (desired_capacity g) desired); [| lia].
    simpl. rewrite mutations_app, Hun. simpl.
    repeat split; try done; try lia.
  - destruct (Z.eqb_spec (desired_capacity g) desired); simpl;
      [repeat split; try done; lia |].
    destruct (Z.eqb_spec (desired_capacity g) (max_size g));
      [repeat split; try done; lia |].
    destruct (Z.ltb_spec (desired_capacity g) desired); [lia |].
    repeat split; try done; lia.
Qed.

(** The two scenarios of the specification: a group at its maximum, and
    a group of 3 asked for 5. *)
Example scale_at_max :
  let g := with_nodes
             (with_desired_capacity
                {| region := "us-east-1"; launch_config_of := Sample.lc;
                   name := "workers"; desired_capacity := 5; min_size := 1;
                   max_size := 5; instance_ids := []; nodes := [];
                   unschedulable_nodes := [] |} 5)
             (Sample.node <$> seq 1 5) in
  scale (fun _ => true) g 5 = (g, [], false).
Proof. vm_compute. reflexivity. Qed.

Example scale_3_to_5 :
  let cordoned := {| node_obj := 4; instance_id := "i-4"; unschedulable := true |} in
  let g := {| region := "us-east-1"; launch_config_of := Sample.lc;
              name := "workers"; desired_capacity := 3; min_size := 1;
              max_size := 10; instance_ids := [];
              nodes := [Sample.n1; Sample.n2; cordoned];
              unschedulable_nodes := [cordoned] |} in
  scale (fun _ => true) g 5
  = (with_desired_capacity g 5,
     [Uncordon cordoned; SetDesiredCapacity "us-east-1" "workers" 5], true).
Proof. vm_compute. reflexivity. Qed.

(** ** scale_nodes_in *)









(** ** reconcile_limits *)

Opaque Re.re_match Re.re_search Re.int Re.group PyStr.contains.

Lemma status_failed_or_cancelled (entry : activity) :
  StatusCode entry = "Failed" \/ StatusCode entry = "Cancelled" ->
  String.eqb (StatusCode entry) "Failed"
  || String.eqb (StatusCode entry) "Cancelled" = true.
Proof. intros [-> | ->]; reflexivity. Qed.

Lemma instance_limit_caps_state (describe : string -> string -> list string)
    (now : Z) (dry_run : bool) (s : state) (entry : activity)
    (rest : list activity) (m : Re.match_obj) (N : Z) :
  StatusCode entry = "Failed" \/ StatusCode entry = "Cancelled" ->
  Re.re_match AutoScalingErrorMessages.INSTANCE_LIMIT
    (default "" (StatusMessage entry)) = Some m ->
  Re.int (Re.group m "requested") = N ->
  let s' := reconcile_limits describe now dry_run s (entry :: rest) in
  (if decide (desired_capacity (asg s) > N - 1) then
     ts s' = with_timeouts (ts s)
               (<[_id (asg s) := Some (StartTime entry + seconds 3600)]>
                  (_timeouts (ts s))) /\
     (if dry_run
      then asg s' = asg s /\
           trace s' = (trace s ++ [LogDryRunSetCapacity (N - 1)])%list
      else asg s' = with_desired_capacity (asg s) (N - 1) /\
           trace s' = (trace s ++ [SetDesiredCapacity (region (asg s))
                                     (name (asg s)) (N - 1)])%list)
   else s' = s) /\
  reconcile_loop describe now dry_run s (entry :: rest) = (s', Return) /\
  s' = reconcile_limits describe now dry_run s [entry].
Proof.
  intros Hstatus Hm HN s'. subst s'.
  unfold reconcile_limits. cbn [reconcile_loop].
  unfold reconcile_entry. rewrite (status_failed_or_cancelled _ Hstatus).
  unfold failed_entry. rewrite Hm, HN.
  destruct (decide (desired_capacity (asg s) > N - 1)) as [Hgt | Hle].
  - assert ((desired_capacity (asg s) >? N - 1) = true) as -> by lia.
    destruct dry_run; simpl; done.
  - assert ((desired_capacity (asg s) >? N - 1) = false) as -> by lia.
    done.
Qed.

(** C3.  The first activity is Failed or Cancelled and its status message
    matches INSTANCE_LIMIT with [requested] = N.  If the group's
    [desired_capacity] exceeds N - 1, the ordinary timeout of the group
    becomes the activity's start time plus one hour and, unless
    [dry_run], [set_desired_capacity(N - 1)] is issued and the local field
    follows (with [dry_run] the group is untouched and only the intent is
    logged).  If it does not, nothing changes at all.  In both cases the
    function returns at this activity: the result is that of the
    one-activity list, whatever follows. *)
Theorem instance_limit_caps (describe : string -> string -> list string)
    (now : Z) (dry_run : bool) (s : state) (entry : activity)
    (rest : list activity) (m : Re.match_obj) (N : Z) :
  StatusCode entry = "Failed" \/ StatusCode entry = "Cancelled" ->
  Re.re_match AutoScalingErrorMessages.INSTANCE_LIMIT
    (default "" (StatusMessage entry)) = Some m ->
  Re.int (Re.group m "requested") = N ->
  let s' := reconcile_limits describe now dry_run s (entry :: rest) in
  (if decide (desired_capacity (asg s) > N - 1) then
     _timeouts (ts s') !! _id (asg s)
     = Some (Some (StartTime entry + seconds 3600)) /\
     (forall id, id <> _id (asg s) ->
                 _timeouts (ts s') !! id = _timeouts (ts s) !! id) /\
     ts s' = with_timeouts (ts s)
               (<[_id (asg s) := Some (StartTime entry + seconds 3600)]>
                  (_timeouts (ts s))) /\
     (if dry_run
      then desired_capacity (asg s') = desired_capacity (asg s) /\
           asg s' = asg s /\
           trace s' = (trace s ++ [LogDryRunSetCapacity (N - 1)])%list
      else desired_capacity (asg s') = N - 1 /\
           asg s' = with_desired_capacity (asg s) (N - 1) /\
           trace s' = (trace s ++ [SetDesiredCapacity (region (asg s))
                                     (name (asg s)) (N - 1)])%list)
   else s' = s) /\
  reconcile_loop describe now dry_run s (entry :: rest) = (s', Return) /\
  s' = reconcile_limits describe now dry_run s [entry].
Proof.
  intros Hstatus Hm HN. cbv zeta.
  destruct (instance_limit_caps_state describe now dry_run s entry rest m N
              Hstatus Hm HN) as (Hcap & Hloop & Hone).
  split; [| done].
  destruct (decide (desired_capacity (asg s) > N - 1)); [| done].
  destruct Hcap as [Hts Hrest].
  split; [rewrite Hts; apply lookup_insert_eq |].
  split; [intros id Hne; rewrite Hts; simpl; by apply lookup_insert_ne |].
  split; [done |].
  destruct dry_run; destruct Hrest as [Hasg Htr];
    (split; [by rewrite Hasg | done]).
Qed.

Lemma status_waiting (entry : activity) :
  StatusCode entry = "WaitingForSpotInstanceId" ->
  String.eqb (StatusCode entry) "Failed"
  || String.eqb (StatusCode entry) "Cancelled" = false /\
  String.eqb (StatusCode entry) "WaitingForSpotInstanceId" = true.
Proof. intros ->. split; reflexivity. Qed.

Lemma waiting_entry_ts describe now dry_run s entry msg :
  ts (waiting_entry describe now dry_run s entry msg).1 =
    ts (if bool_decide (is_Some (Re.re_search
                                   AutoScalingCauseMessages.AZ_BALANCE
                                   (default "" (Cause entry))))
        then s
        else if now - StartTime entry >? seconds _SPOT_REQUEST_TIMEOUT
             then time_out_asg s entry else s) /\
  _id (asg (waiting_entry describe now dry_run s entry msg).1) = _id (asg s) /\
  (waiting_entry describe now dry_run s entry msg).2 = Next.
Proof.
  unfold waiting_entry.
  destruct (Re.re_search AutoScalingCauseMessages.AZ_BALANCE _); [done |].
  rewrite bool_decide_eq_false_2 by (by intros [? ?]).
  destruct (now - StartTime entry >? _); [| done].
  destruct (Re.re_search AutoScalingErrorMessages.SPOT_REQUEST_WAITING _);
    [| done].
  destruct dry_run; simpl; [done |].
  destruct (cancel_spot_request _ _ _) as [[|] evs]; done.
Qed.

(** *** dry_run against the real run *)

Lemma filter_prefix_eq (f : event -> bool) (l1 l2 l3 : list event) :
  l1 `prefix_of` l2 -> l2 `prefix_of` l3 ->
  List.filter f l3 = List.filter f l1 ->
  List.filter f l2 = List.filter f l1 /\ List.filter f l3 = List.filter f l2.
Proof.
  intros [a ->] [b ->]. rewrite !List.filter_app. intros H.
  rewrite <- app_assoc in H.
  rewrite <- (app_nil_r (List.filter f l1)) in H at 2.
  apply app_inv_head in H. apply app_eq_nil in H as [-> ->].
  by rewrite !app_nil_r.
Qed.

(** One entry, run with [dry_run] on one side and for real on the other,
    from the same reconciler and the same group. *)
Lemma reconcile_entry_sim describe now T G trd trr e :
  let '(sd', cd) :=
    reconcile_entry describe now true {| ts := T; asg := G; trace := trd |} e in
  let '(sr', cr) :=
    reconcile_entry describe now false {| ts := T; asg := G; trace := trr |} e in
  cd = cr /\ ts sd' = ts sr' /\ asg sd' = G /\ _id (asg sr') = _id G /\
  mutations (trace sd') = mutations trd /\
  trd `prefix_of` trace sd' /\ trr `prefix_of` trace sr' /\
  (cd = Next -> cancellations (trace sr') = cancellations trr -> asg sr' = G).
Proof.
  unfold reconcile_entry, failed_entry, waiting_entry, revert_capacity,
    time_out_asg, AutoScalingTimeouts.set_desired_capacity, emit,
    cancel_spot_request, AutoScalingGroup.set_desired_capacity.
  cbn [ts asg trace negb].
  destruct (String.eqb (StatusCode e) "Failed" || String.eqb (StatusCode e) "Cancelled").
  - destruct (Re.re_match AutoScalingErrorMessages.INSTANCE_LIMIT _).
    { destruct (_ >? _); repeat split; trace_facts. }
    destruct (Re.re_match AutoScalingErrorMessages.VOLUME_LIMIT _).
    { repeat split; trace_facts. }
    destruct (Re.re_match AutoScalingErrorMessages.CAPACITY_LIMIT _).
    { destruct (Re.re_search AutoScalingCauseMessages.LAUNCH_INSTANCE _);
        [destruct (_ >? _) |]; repeat split; trace_facts. }
    destruct (bool_decide _ && PyStr.contains _ _).
    { destruct (Re.re_search AutoScalingCauseMessages.LAUNCH_INSTANCE _);
        [destruct (_ >? _) |]; repeat split; trace_facts. }
    destruct (Re.re_search AutoScalingErrorMessages.SPOT_REQUEST_CANCELLED _).
    { repeat split; trace_facts. }
    destruct (Re.re_match AutoScalingErrorMessages.SPOT_LIMIT _);
      repeat split; trace_facts.
  - destruct (String.eqb (StatusCode e) "WaitingForSpotInstanceId");
      [| repeat split; trace_facts].
    destruct (Re.re_search AutoScalingCauseMessages.AZ_BALANCE _);
      [repeat split; trace_facts |].
    destruct (_ >? _); [| repeat split; trace_facts].
    destruct (Re.re_search AutoScalingErrorMessages.SPOT_REQUEST_WAITING _);
      [| repeat split; trace_facts].
    destruct (describe _ _) as [|st sts]; [repeat split; trace_facts |].
    destruct (String.eqb st "open" || String.eqb st "active");
      repeat split; trace_facts.
    intros _ Hc. apply (f_equal length) in Hc.
    rewrite length_app in Hc. simpl in Hc. lia.
Qed.

Lemma reconcile_entry_dry describe now s e :
  let '(sd', _) := reconcile_entry describe now true s e in
  asg sd' = asg s /\ mutations (trace sd') = mutations (trace s) /\
  trace s `prefix_of` trace sd'.
Proof.
  destruct s as [T G tr].
  pose proof (reconcile_entry_sim describe now T G tr tr e) as H.
  destruct (reconcile_entry describe now true _ e) as [sd' cd].
  destruct (reconcile_entry describe now false _ e) as [sr' cr].
  simpl. tauto.
Qed.

Lemma reconcile_entry_real describe now s e :
  let '(sr', _) := reconcile_entry describe now false s e in
  _id (asg sr') = _id (asg s) /\ trace s `prefix_of` trace sr'.
Proof.
  destruct s as [T G tr].
  pose proof (reconcile_entry_sim describe now T G tr tr e) as H.
  destruct (reconcile_entry describe now true _ e) as [sd' cd].
  destruct (reconcile_entry describe now false _ e) as [sr' cr].
  simpl. tauto.
Qed.

Lemma reconcile_loop_dry describe now acts s :
  let '(sd', _) := reconcile_loop describe now true s acts in
  asg sd' = asg s /\ mutations (trace sd') = mutations (trace s) /\
  trace s `prefix_of` trace sd'.
Proof.
  revert s. induction acts as [|e acts IH]; intros s; cbn [reconcile_loop];
    [done |].
  pose proof (reconcile_entry_dry describe now s e) as H1.
  destruct (reconcile_entry describe now true s e) as [s1 [|]]; [| done].
  specialize (IH s1).
  destruct (reconcile_loop describe now true s1 acts) as [sd' cd].
  destruct H1 as (Hg1 & Hm1 & Hp1), IH as (Hg & Hm & Hp).
  repeat split; [congruence | congruence | by etrans].
Qed.

Lemma reconcile_loop_real describe now acts s :
  let '(sr', _) := reconcile_loop describe now false s acts in
  _id (asg sr') = _id (asg s) /\ trace s `prefix_of` trace sr'.
Proof.
  revert s. induction acts as [|e acts IH]; intros s; cbn [reconcile_loop];
    [done |].
  pose proof (reconcile_entry_real describe now s e) as H1.
  destruct (reconcile_entry describe now false s e) as [s1 [|]]; [| done].
  specialize (IH s1).
  destruct (reconcile_loop describe now false s1 acts) as [sr' cr].
  destruct H1 as (Hid1 & Hp1), IH as (Hid & Hp).
  split; [congruence | by etrans].
Qed.

(** As long as the real run cancels no spot request, both runs take the
    same way through the loop and leave the same reconciler. *)
Lemma reconcile_loop_sim describe now acts T G trd trr :
  let '(sd', cd) :=
    reconcile_loop describe now true {| ts := T; asg := G; trace := trd |} acts in
  let '(sr', cr) :=
    reconcile_loop describe now false {| ts := T; asg := G; trace := trr |} acts in
  cancellations (trace sr') = cancellations trr ->
  cd = cr /\ ts sd' = ts sr'.
Proof.
  revert T G trd trr.
  induction acts as [|e acts IH]; intros T G trd trr; cbn [reconcile_loop];
    [done |].
  pose proof (reconcile_entry_sim describe now T G trd trr e) as H1.
  destruct (reconcile_entry describe now true _ e) as [sd1 cd1].
  destruct (reconcile_entry describe now false _ e) as [sr1 cr1].
  destruct H1 as (<- & Hts & Hgd & _ & _ & _ & Hpr & Hgr).
  destruct cd1; [| done].
  pose proof (reconcile_loop_real describe now acts sr1) as H2.
  destruct sd1 as [Td Gd trd1], sr1 as [Tr Gr trr1]. simpl in *. subst Gd Tr.
  destruct (reconcile_loop describe now false _ acts) as [sr' cr] eqn:Hreal.
  destruct H2 as [_ Hpr'].
  destruct (reconcile_loop describe now true _ acts) as [sd' cd] eqn:Hdry.
  intros Hc.
  destruct (filter_prefix_eq is_cancel _ _ _ Hpr Hpr' Hc) as [Hc1 Hc2].
  assert (Gr = G) as -> by (by apply Hgr).
  specialize (IH Td G trd1 trr1). rewrite Hreal, Hdry in IH.
  by apply IH.
Qed.

(** C8 (as amended).  With [dry_run], [reconcile_limits] leaves the group
    object as it was (so also its [desired_capacity]) and issues no
    provider mutation.  Its reconciler afterwards, the ordinary timeouts
    included, is the one of the real run on the same input whenever the
    real run cancels no spot request. *)
Theorem dry_run_frame (describe : string -> string -> list string) (now : Z)
    (self : AutoScalingTimeouts.t) (g : AutoScalingGroup.t)
    (acts : list activity) :
  let start := {| ts := self; asg := g; trace := [] |} in
  let d := reconcile_limits describe now true start acts in
  let r := reconcile_limits describe now false start acts in
  asg d = g /\
  mutations (trace d) = [] /\
  (cancellations (trace r) = [] -> ts d = ts r).
Proof.
  intros start d r. subst d r. unfold reconcile_limits.
  pose proof (reconcile_loop_dry describe now acts start) as Hd.
  pose proof (reconcile_loop_real describe now acts start) as Hr.
  pose proof (reconcile_loop_sim describe now acts self g [] []) as Hs.
  fold start in Hs.
  destruct (reconcile_loop describe now true start acts) as [sd' cd].
  destruct (reconcile_loop describe now false start acts) as [sr' cr].
  destruct Hd as (Hg & Hm & _), Hr as (Hid & _).
  assert (asg (match cd with
               | Next => {| ts := with_timeouts (ts sd')
                                    (<[_id (asg sd') := None]> (_timeouts (ts sd')));
                            asg := asg sd'; trace := trace sd' |}
               | Return => sd'
               end) = g) as Hasg by (by destruct cd).
  split; [by destruct cd |]. split; [by destruct cd |].
  intros Hc.
  assert (cancellations (trace sr') = cancellations []) as Hc'
    by (by destruct cr).
  destruct (Hs Hc') as [-> Hts].
  destruct cr; simpl; [| done].
  by rewrite Hts, Hg, Hid.
Qed.

(** *** The timeout of a waiting spot request *)

Lemma reconcile_loop_app describe now dry_run s pre rest s1 :
  reconcile_loop describe now dry_run s pre = (s1, Next) ->
  reconcile_loop describe now dry_run s (pre ++ rest)
  = reconcile_loop describe now dry_run s1 rest.
Proof.
  revert s. induction pre as [|e pre IH]; intros s; cbn [reconcile_loop app].
  - by intros [= ->].
  - destruct (reconcile_entry describe now dry_run s e) as [s' [|]];
      [apply IH | done].
Qed.

Lemma reconcile_loop_id describe now dry_run s acts :
  _id (asg (reconcile_loop describe now dry_run s acts).1) = _id (asg s).
Proof.
  destruct dry_run.
  - pose proof (reconcile_loop_dry describe now acts s) as H.
    destruct (reconcile_loop describe now true s acts) as [s' c]. simpl.
    by destruct H as [-> _].
  - pose proof (reconcile_loop_real describe now acts s) as H.
    destruct (reconcile_loop describe now false s acts) as [s' c]. simpl.
    by destruct H as [-> _].
Qed.

(** C1 (what the code does).  Let the loop reach, without a [return], a
    WaitingForSpotInstanceId activity that is not an AZ-balance launch
    and has waited for more than 5 minutes, and let it run from there to
    the end of the list without a [return].  The activity marks the group
    timed out (expiry = its start time + 1 hour) and does not leave the
    loop; after the loop [reconcile_limits] assigns [None] to the entry
    of the group, so on return the ordinary channel is cleared, whatever
    was marked during the pass. *)
Theorem waiting_timeout_is_cleared (describe : string -> string -> list string)
    (now : Z) (dry_run : bool) (s : state) (pre : list activity)
    (entry : activity) (post : list activity) (s1 s3 : state) :
  StatusCode entry = "WaitingForSpotInstanceId" ->
  Re.re_search AutoScalingCauseMessages.AZ_BALANCE
    (default "" (Cause entry)) = None ->
  now - StartTime entry > seconds 300 ->
  reconcile_loop describe now dry_run s pre = (s1, Next) ->
  reconcile_loop describe now dry_run
    (reconcile_entry describe now dry_run s1 entry).1 post = (s3, Next) ->
  let marked := reconcile_entry describe now dry_run s1 entry in
  let s' := reconcile_limits describe now dry_run s (pre ++ entry :: post) in
  marked.2 = Next /\
  _timeouts (ts marked.1) !! _id (asg s)
    = Some (Some (StartTime entry + seconds 3600)) /\
  reconcile_loop describe now dry_run s (pre ++ entry :: post) = (s3, Next) /\
  _timeouts (ts s') !! _id (asg s) = Some None /\
  pending (mjoin (_timeouts (ts s') !! _id (asg s))) now = false.
Proof.
  intros Hstatus Hcause Hlong Hpre Hpost marked s'. subst marked s'.
  pose proof (reconcile_loop_id describe now dry_run s pre) as Hid1.
  rewrite Hpre in Hid1. simpl in Hid1.
  pose proof (reconcile_loop_id describe now dry_run
                (reconcile_entry describe now dry_run s1 entry).1 post) as Hid3.
  rewrite Hpost in Hid3. simpl in Hid3.
  unfold reconcile_limits.
  rewrite (reconcile_loop_app _ _ _ _ _ (entry :: post) _ Hpre).
  cbn [reconcile_loop].
  revert Hpost Hid3. unfold reconcile_entry.
  destruct (status_waiting _ Hstatus) as [-> ->].
  destruct (waiting_entry_ts describe now dry_run s1 entry
              (default "" (StatusMessage entry))) as (Hts & Hid & Hc).
  destruct (waiting_entry describe now dry_run s1 entry _) as [s2 c].
  simpl in Hts, Hid, Hc. subst c. simpl. intros -> Hid3.
  rewrite Hcause in Hts.
  rewrite bool_decide_eq_false_2 in Hts by (by intros [? ?]).
  assert ((now - StartTime entry >? seconds _SPOT_REQUEST_TIMEOUT) = true)
    as Hgt by (unfold _SPOT_REQUEST_TIMEOUT; lia).
  rewrite Hgt in Hts. rewrite Hts, Hid3, Hid, Hid1. simpl.
  rewrite Hid1, !lookup_insert_eq. done.
Qed.

(** *** The theorems above on the sample data *)

Lemma instance_limit_caps_witness :
  let s' := reconcile_limits Sample.open_requests Sample.now false
              Sample.start [Sample.limit_failure; Sample.waiting] in
  _timeouts (ts s') !! ("us-east-1", "workers")
  = Some (Some (seconds 8000 + seconds 3600)) /\
  desired_capacity (asg Sample.start) = 12 /\
  desired_capacity (asg s') = 12 - 1 /\
  trace s' = [SetDesiredCapacity "us-east-1" "workers" 11].
Proof.
  pose proof (instance_limit_caps Sample.open_requests Sample.now false
                Sample.start Sample.limit_failure [Sample.waiting]) as H.
  edestruct H as [Hcap _].
  - left. reflexivity.
  - vm_compute. reflexivity.
  - vm_compute. reflexivity.
  - destruct (decide _) as [_ | Hle] in Hcap; [| vm_compute in Hle; done].
    destruct Hcap as (Hlook & _ & _ & Hcapacity & _ & Htrace).
    split; [exact Hlook |]. split; [reflexivity |].
    split; [exact Hcapacity | exact Htrace].
Defined.



(** C8 as stated fails.  A spot request that waited too long and is open
    at the provider, followed in the list by an instance-limit failure
    with requested = 12, on a group with desired capacity 12: the real
    run cancels the request and lowers the local capacity to 11, so the
    failure no longer exceeds the cap and the expiry stays the one of the
    waiting activity; the dry run keeps 12, and the failure sets its own
    expiry.  At 12000 s the real run has the group timed out and the dry
    run has not. *)
Lemma dry_run_timeout_differs :
  let acts := [Sample.waiting; Sample.limit_failure] in
  let d := reconcile_limits Sample.open_requests Sample.now true
             Sample.start acts in
  let r := reconcile_limits Sample.open_requests Sample.now false
             Sample.start acts in
  _timeouts (ts d) !! _id Sample.group = Some (Some (seconds 11600)) /\
  _timeouts (ts r) !! _id Sample.group = Some (Some (seconds 12600)) /\
  AutoScalingTimeouts.is_timed_out (ts d) (seconds 12000) (seconds 12000)
    Sample.group = false /\
  AutoScalingTimeouts.is_timed_out (ts r) (seconds 12000) (seconds 12000)
    Sample.group = true /\
  trace r = [CancelSpotInstanceRequests "us-east-1" "sir-1";
             SetDesiredCapacity "us-east-1" "workers" 11].
Proof. vm_compute. repeat split; reflexivity. Qed.

Lemma dry_run_frame_witness :
  let acts := [Sample.waiting; Sample.limit_failure] in
  ts (reconcile_limits Sample.no_requests Sample.now true Sample.start acts)
  = ts (reconcile_limits Sample.no_requests Sample.now false Sample.start acts).
Proof.
  apply (dry_run_frame Sample.no_requests Sample.now AutoScalingTimeouts.init
           Sample.group [Sample.waiting; Sample.limit_failure]).
  vm_compute. reflexivity.
Defined.

(** ** refresh_timeouts: the watermark *)

Lemma scan_newest last now stream st :
  start_time_cutoff st = None \/
  start_time_cutoff st = Some (now - seconds _TIMEOUT) ->
  newest_completed_activity (scan last now st stream) =
    match newest_completed_activity st with
    | Some a => Some a
    | None => List.find (fun a => Progress a =? 100) (consumed last now stream)
    end.
Proof.
  revert st. induction stream as [|act rest IH]; intros st Hcut; simpl.
  - by destruct (newest_completed_activity st).
  - assert (match start_time_cutoff st with
            | Some c => c
            | None => now - seconds _TIMEOUT
            end = now - seconds _TIMEOUT) as ->
      by (by destruct Hcut as [-> | ->]).
    destruct (bool_decide (Some (ActivityId act) = last)); simpl.
    { destruct (newest_completed_activity st); [done |].
      by destruct (Progress act =? 100). }
    destruct (StartTime act <? now - seconds _TIMEOUT); simpl.
    { destruct (newest_completed_activity st); [done |].
      by destruct (Progress act =? 100). }
    rewrite IH by (simpl; auto). simpl.
    destruct (newest_completed_activity st); [done |].
    by destruct (Progress act =? 100).
Qed.

Lemma find_none_progress (l : list activity) :
  (forall a, a ∈ l -> Progress a <> 100) ->
  List.find (fun a => Progress a =? 100) l = None.
Proof.
  induction l as [|a l IH]; intros H; simpl; [done |].
  destruct (Z.eqb_spec (Progress a) 100) as [Heq | _].
  - exfalso. apply (H a); [apply elem_of_cons; by left | done].
  - apply IH. intros b Hb. apply H, elem_of_cons. by right.
Qed.

Lemma reconcile_entry_other_fields describe now dry_run s e :
  same_but_timeouts (ts (reconcile_entry describe now dry_run s e).1) (ts s).
Proof.
  unfold reconcile_entry, failed_entry, waiting_entry, revert_capacity,
    time_out_asg, AutoScalingTimeouts.set_desired_capacity, emit,
    cancel_spot_request, AutoScalingGroup.set_desired_capacity,
    same_but_timeouts.
  destruct s as [T G tr]. cbn [ts asg trace].
  repeat (case_match; cbn [ts asg trace fst]); simplify_eq/=; done.
Qed.

Lemma reconcile_limits_other_fields describe now dry_run s acts :
  same_but_timeouts (ts (reconcile_limits describe now dry_run s acts)) (ts s).
Proof.
  assert (forall s, same_but_timeouts
                      (ts (reconcile_loop describe now dry_run s acts).1) (ts s))
    as Hloop.
  { induction acts as [|e acts IH]; intros s0; cbn [reconcile_loop]; [done |].
    pose proof (reconcile_entry_other_fields describe now dry_run s0 e) as H1.
    destruct (reconcile_entry describe now dry_run s0 e) as [s1 [|]];
      [| done].
    specialize (IH s1). unfold same_but_timeouts in *. simpl in *.
    intuition congruence. }
  specialize (Hloop s). unfold reconcile_limits.
  by destruct (reconcile_loop describe now dry_run s acts) as [s' [|]].
Qed.

Lemma reconcile_all_other_fields describe now dry_run acts self gs :
  same_but_timeouts (reconcile_all describe now dry_run acts self gs).1.1 self.
Proof.
  revert self. induction gs as [|g gs IH]; intros self; cbn [reconcile_all];
    [done |].
  pose proof (reconcile_limits_other_fields describe now dry_run
                {| ts := self; asg := g; trace := [] |}
                (default [] (acts !! name g))) as H1.
  specialize (IH (ts (reconcile_limits describe now dry_run
                        {| ts := self; asg := g; trace := [] |}
                        (default [] (acts !! name g))))).
  destruct (reconcile_all describe now dry_run acts _ gs) as [[self' gs'] evs].
  unfold same_but_timeouts in *. simpl in *. intuition congruence.
Qed.

(** When the scan of a region reads a completed activity, the watermark
    stored for the region is the identifier of the first one it read. *)
Lemma refresh_region_watermark describe now dry_run self region regional_asgs
    stream a :
  List.find (fun a => Progress a =? 100)
    (consumed (_last_activities self !! region) now stream) = Some a ->
  Progress a = 100 /\
  (refresh_region describe now dry_run self region regional_asgs stream).2
    = None /\
  _last_activities
    (refresh_region describe now dry_run self region regional_asgs stream).1.1.1
    = <[region := ActivityId a]> (_last_activities self).
Proof.
  intros Hfind. split.
  { apply List.find_some in Hfind as [_ Hp]. lia. }
  unfold refresh_region. rewrite scan_newest by (by left). simpl.
  rewrite Hfind.
  pose proof (reconcile_all_other_fields describe now dry_run
    (activities (scan (_last_activities self !! region) now scan_init stream))
    (with_last_activities self
       (<[region := ActivityId a]> (_last_activities self)))
    regional_asgs) as (Hl & _).
  destruct (reconcile_all _ _ _ _ _ regional_asgs) as [[self' gs] evs].
  simpl in *. done.
Qed.

Lemma refresh_region_no_watermark describe now dry_run self region
    regional_asgs stream :
  (forall a, a ∈ consumed (_last_activities self !! region) now stream ->
             Progress a <> 100) ->
  refresh_region describe now dry_run self region regional_asgs stream
  = (self, regional_asgs, [], Some TypeError).
Proof.
  intros Hnone. unfold refresh_region.
  rewrite scan_newest by (by left). simpl.
  by rewrite find_none_progress.
Qed.

(** C5 (what the code does).  When none of the activities the scan of a
    region reads has progress 100, [newest_completed_activity] is still
    [None] after the scan and the subscript
    [newest_completed_activity['ActivityId']] raises [TypeError]: no
    watermark is stored for the region and none of its groups is
    reconciled. *)
Theorem refresh_region_without_completed
    (describe : string -> string -> list string) (now : Z) (dry_run : bool)
    (self : AutoScalingTimeouts.t) (region : string)
    (regional_asgs : list AutoScalingGroup.t) (stream : list activity) :
  (forall a, a ∈ consumed (_last_activities self !! region) now stream ->
             Progress a <> 100) ->
  newest_completed_activity
    (scan (_last_activities self !! region) now scan_init stream) = None /\
  refresh_region describe now dry_run self region regional_asgs stream
  = (self, regional_asgs, [], Some TypeError).
Proof.
  intros Hnone. split; [| by apply refresh_region_no_watermark].
  rewrite scan_newest by (by left). simpl. by apply find_none_progress.
Qed.

Lemma refresh_region_without_completed_witness :
  refresh_region Sample.no_requests Sample.now false AutoScalingTimeouts.init
    "us-east-1" [Sample.group] [Sample.in_progress; Sample.waiting]
  = (AutoScalingTimeouts.init, [Sample.group], [], Some TypeError) /\
  refresh_region Sample.no_requests Sample.now false AutoScalingTimeouts.init
    "us-east-1" [Sample.group] []
  = (AutoScalingTimeouts.init, [Sample.group], [], Some TypeError).
Proof.
  split.
  - apply (refresh_region_without_completed Sample.no_requests Sample.now
             false AutoScalingTimeouts.init "us-east-1" [Sample.group]
             [Sample.in_progress; Sample.waiting]).
    intros a Ha. vm_compute in Ha.
    apply elem_of_cons in Ha as [-> | Ha]; [done |].
    apply elem_of_cons in Ha as [-> | Ha]; [done |].
    by apply elem_of_nil in Ha.
  - apply (refresh_region_without_completed Sample.no_requests Sample.now
             false AutoScalingTimeouts.init "us-east-1" [Sample.group] []).
    intros a Ha. by apply elem_of_nil in Ha.
Defined.

(** The exception leaves [refresh_timeouts]: the loop over the regions
    ends at the first region without a completed activity. *)
Lemma refresh_regions_without_completed describe activities_of now dry_run
    self region regional_asgs rest :
  (forall a, a ∈ consumed (_last_activities self !! region) now
                   (activities_of region) ->
             Progress a <> 100) ->
  refresh_regions describe activities_of now dry_run self
    ((region, regional_asgs) :: rest)
  = (self, (region, regional_asgs) :: rest, [], Some TypeError).
Proof.
  intros Hnone. cbn [refresh_regions].
  by rewrite (refresh_region_no_watermark _ _ _ _ _ _ _ Hnone).
Qed.

Example refresh_timeouts_sample :
  refresh_timeouts (fun _ _ _ => Sample.history) Sample.no_requests
    (fun _ => [Sample.in_progress; Sample.waiting]) Sample.now false
    AutoScalingTimeouts.init [Sample.group]
  = (AutoScalingTimeouts.init, [("us-east-1", [Sample.group])], [],
     Some TypeError).
Proof. vm_compute. reflexivity. Qed.

Example time_out_spot_asgs_sample :
  let self := time_out_spot_asgs (fun _ _ _ => Sample.history) Sample.now
                AutoScalingTimeouts.init [Sample.group; Sample.spot_group] in
  _spot_timeouts self !! _id Sample.spot_group = Some None /\
  _spot_timeouts self !! _id Sample.group = None /\
  _spot_price_history self !! "us-east-1" = Some Sample.history.
Proof. vm_compute. repeat split; reflexivity. Qed.

(** ** get_all_raw_groups_and_launch_configs: the batches *)

Import AutoScalingGroups.

Lemma range0_succ (n step : nat) :
  (0 < n)%nat -> (0 < step)%nat ->
  exists c, range0 n step = 0%nat :: ((fun k => k * step)%nat <$> seq 1 c).
Proof.
  intros Hn Hs. unfold range0.
  destruct ((n + step - 1) / step)%nat as [|c] eqn:Hc.
  - apply Nat.div_small_iff in Hc; lia.
  - exists c. reflexivity.
Qed.

Lemma slice_past_end {A : Type} (a b : nat) (l : list A) :
  (length l <= a)%nat -> slice a b l = [].
Proof. intros H. unfold slice. by rewrite drop_ge, take_nil. Qed.

Lemma concat_all_nil {A : Type} (ls : list (list A)) :
  Forall (fun l => l = []) ls -> concat ls = [].
Proof. induction 1 as [|l ls -> _ IH]; [done | by simpl]. Qed.

(** Every request names at most 50 launch configurations. *)
Lemma launch_config_batches_size (raw_groups : list raw_group) :
  Forall (fun names => (length names <= batch_size)%nat)
    (launch_config_batches raw_groups).
Proof.
  unfold launch_config_batches. apply Forall_fmap, Forall_forall.
  intros idx _. simpl. unfold slice.
  rewrite length_fmap, length_take. lia.
Qed.

(** For up to 2500 groups only the first round of the loop asks for
    anything. *)
Lemma launch_config_batches_concat (raw_groups : list raw_group) :
  (length raw_groups <= 2500)%nat ->
  concat (launch_config_batches raw_groups)
  = rg_LaunchConfigurationName <$> take 50 raw_groups.
Proof.
  intros Hlen. unfold launch_config_batches.
  destruct raw_groups as [|g gs]; [done |].
  destruct (range0_succ (length (g :: gs)) batch_size) as [c ->];
    [simpl; lia | unfold batch_size; lia |].
  rewrite fmap_cons. cbn [concat].
  rewrite concat_all_nil.
  - rewrite app_nil_r. unfold slice, batch_size. simpl. done.
  - apply Forall_fmap, Forall_fmap, Forall_forall.
    intros k Hk. apply elem_of_seq in Hk. simpl.
    rewrite slice_past_end; [done |]. unfold batch_size. lia.
Qed.

(** C4 (what the code does).  The loop index already steps by the batch
    size and is multiplied by it once more, so the rounds ask for the
    groups at 0..49, 2500..2549, and so on.  For up to 2500 groups the
    requests together name the launch configurations of the first 50
    groups and of no other group; every request names at most 50. *)
Theorem launch_config_batches_first_50 (raw_groups : list raw_group) :
  (length raw_groups <= 2500)%nat ->
  concat (launch_config_batches raw_groups)
  = rg_LaunchConfigurationName <$> take 50 raw_groups /\
  Forall (fun names => (length names <= 50)%nat)
    (launch_config_batches raw_groups).
Proof.
  intros Hlen. split.
  - by apply launch_config_batches_concat.
  - apply launch_config_batches_size.
Qed.

(** With 51 groups there are two rounds, the second with no name at all,
    and [lc-50] is never asked for; at a provider that answers with the
    configurations asked for, [get_all_groups] ends in the [KeyError] of
    the 51st group. *)
Lemma launch_config_batches_first_50_witness :
  concat (launch_config_batches (Sample.raw_groups 51))
  = rg_LaunchConfigurationName <$> take 50 (Sample.raw_groups 51).
Proof.
  apply (proj1 (launch_config_batches_first_50 (Sample.raw_groups 51)
                  ltac:(unfold Sample.raw_groups;
                        rewrite length_fmap, length_seq; lia))).
Defined.

Lemma get_all_groups_51 :
  length <$> launch_config_batches (Sample.raw_groups 51) = [50; 0]%nat /\
  bool_decide ("lc-50" ∈ concat (launch_config_batches (Sample.raw_groups 51)))
    = false /\
  get_all_groups (fun _ => Sample.raw_groups 51) (fun _ => Sample.asked_for)
    None ["us-east-1"] []
  = inr (KeyError "lc-50") /\
  is_Some (sum_rect (fun _ => option (list AutoScalingGroup.t)) Some (fun _ => None)
    (get_all_groups (fun _ => Sample.raw_groups 50) (fun _ => Sample.asked_for)
       None ["us-east-1"] [])).
Proof. vm_compute. repeat split; eauto. Qed.

(** ** time_out_spot_asgs: the average outbid time *)

Lemma dict_keys_set {V : Type} (k : string) (v : V) (d : list (string * V)) :
  Dict.keys (Dict.set k v d) =
    if bool_decide (k ∈ Dict.keys d) then Dict.keys d
    else (Dict.keys d ++ [k])%list.
Proof.
  unfold Dict.keys. induction d as [|[k' v'] d IH]; csimpl; [done |].
  destruct (String.eqb_spec k' k) as [-> | Hne]; csimpl.
  - rewrite bool_decide_eq_true_2; [done | apply elem_of_cons; by left].
  - rewrite IH. destruct (bool_decide (k ∈ d.*1)) eqn:Hin.
    + apply bool_decide_eq_true in Hin.
      rewrite bool_decide_eq_true_2; [done | apply elem_of_cons; by right].
    + apply bool_decide_eq_false in Hin.
      rewrite bool_decide_eq_false_2; [done |].
      intros [-> | ?]%elem_of_cons; done.
Qed.

Lemma outbid_zone_snoc instance_type bid seen item az :
  outbid_zone instance_type bid (seen ++ [item]) az <->
  outbid_zone instance_type bid seen az \/
  (pi_InstanceType item = instance_type /\ AvailabilityZone item = az /\
   PrimFloat.ltb bid (pi_SpotPrice item) = true).
Proof.
  unfold outbid_zone. split.
  - intros (i & Hi & Hty & Haz & Hlt).
    apply elem_of_app in Hi as [Hi | Hi].
    + left. exists i. auto.
    + apply list_elem_of_singleton in Hi as ->. right. auto.
  - intros [(i & Hi & Hrest) | Hitem].
    + exists i. split; [apply elem_of_app; by left | done].
    + exists item. split; [| done].
      apply elem_of_app. right. by apply list_elem_of_singleton.
Qed.

Lemma outbid_fold_keys instance_type bid history st seen :
  NoDup (Dict.keys (outbid_time st)) ->
  (forall az, az ∈ Dict.keys (outbid_time st) <->
              outbid_zone instance_type bid seen az) ->
  let st' := fold_left (outbid_step instance_type bid) history st in
  NoDup (Dict.keys (outbid_time st')) /\
  (forall az, az ∈ Dict.keys (outbid_time st') <->
              outbid_zone instance_type bid (seen ++ history) az).
Proof.
  revert st seen.
  induction history as [|item history IH]; intros st seen Hnd Hkeys; simpl.
  - by rewrite app_nil_r.
  - replace (seen ++ item :: history)%list
      with ((seen ++ [item]) ++ history)%list by (by rewrite <- app_assoc).
    apply IH.
    + unfold outbid_step.
      destruct (String.eqb _ _); simpl; [| done].
      destruct (PrimFloat.ltb _ _); simpl; [| done].
      rewrite dict_keys_set. case_bool_decide as Hin; [done |].
      apply NoDup_app. repeat split; [done | | apply NoDup_singleton].
      intros x Hx ->%list_elem_of_singleton. done.
    + intros az. rewrite outbid_zone_snoc, <- Hkeys. unfold outbid_step.
      destruct (String.eqb_spec (pi_InstanceType item) instance_type)
        as [Hty | Hty]; simpl; [| tauto].
      destruct (PrimFloat.ltb bid (pi_SpotPrice item)) eqn:Hlt; simpl;
        [| intuition congruence].
      rewrite dict_keys_set. case_bool_decide as Hin.
      * split; [tauto |]. intros [? | (_ & <- & _)]; done.
      * rewrite elem_of_app, list_elem_of_singleton.
        split; [intros [? | ->]; tauto | intros [? | (_ & <- & _)]; tauto].
Qed.

Lemma outbid_times_keys instance_type bid history :
  NoDup (Dict.keys (outbid_times instance_type bid history)) /\
  (forall az, az ∈ Dict.keys (outbid_times instance_type bid history) <->
              outbid_zone instance_type bid history az).
Proof.
  apply (outbid_fold_keys instance_type bid history az_init []).
  - apply NoDup_nil_2.
  - intros az. unfold outbid_zone. simpl. split.
    + by intros ?%elem_of_nil.
    + by intros (? & ?%elem_of_nil & _).
Qed.

Lemma dict_get_set_eq {V : Type} (k : string) (v : V) (d : list (string * V)) :
  Dict.get k (Dict.set k v d) = Some v.
Proof.
  induction d as [|[k' v'] d IH]; simpl.
  - by rewrite String.eqb_refl.
  - destruct (String.eqb_spec k' k) as [-> | Hne]; simpl.
    + by rewrite String.eqb_refl.
    + by destruct (String.eqb_spec k' k).
Qed.

Lemma dict_get_set_ne {V : Type} (k k' : string) (v : V) (d : list (string * V)) :
  k <> k' -> Dict.get k' (Dict.set k v d) = Dict.get k' d.
Proof.
  intros Hne. induction d as [|[k0 v0] d IH]; simpl.
  - by destruct (String.eqb_spec k k').
  - destruct (String.eqb_spec k0 k) as [-> | Hne0]; simpl.
    + by destruct (String.eqb_spec k k').
    + by rewrite IH.
Qed.

(** The zones do not interfere: the entry of a zone in [outbid_time] is
    what the loop makes of the observations of that zone alone. *)
Lemma outbid_fold_zone instance_type bid az history st :
  Dict.get az (outbid_time (fold_left (outbid_step instance_type bid) history st))
  = zone_outbid bid (last_az_bid st !! az) (Dict.get az (outbid_time st))
      (zone_items instance_type az history).
Proof.
  revert st. induction history as [|item history IH]; intros st; simpl;
    [done |].
  rewrite IH. unfold outbid_step.
  destruct (String.eqb_spec (pi_InstanceType item) instance_type)
    as [Hty | Hty]; simpl; [| done].
  destruct (String.eqb_spec (AvailabilityZone item) az) as [<- | Haz]; simpl.
  - rewrite lookup_insert_eq.
    destruct (PrimFloat.ltb bid (pi_SpotPrice item)); [| done].
    by rewrite dict_get_set_eq.
  - rewrite lookup_insert_ne by done.
    destruct (PrimFloat.ltb bid (pi_SpotPrice item)); [| done].
    by rewrite dict_get_set_ne.
Qed.

Lemma outbid_times_zone instance_type bid az history :
  Dict.get az (outbid_times instance_type bid history)
  = zone_outbid bid None None (zone_items instance_type az history).
Proof. apply outbid_fold_zone. Qed.

Lemma max_outbids_float :
  float_of_Z _MAX_OUTBIDS_IN_INTERVAL = 1200%float.
Proof. vm_compute. reflexivity. Qed.

(** C6 (as amended).  [outbid_time] has one entry per availability zone
    with at least one observation of the group's instance type above its
    bid, whether or not any outbid time accumulated for the zone; the
    entry is the time accumulated over the observations of that zone.
    The average is the sum of the entries over the number of these
    zones.  Without any such observation the average is 0 and the spot
    channel of the group is cleared; in general the channel becomes
    now + 1 hour when the average is strictly above 1200 seconds and is
    cleared otherwise. *)
Theorem outbid_average_over_observed_zones (now : Z)
    (history : list price_item) (instance_type : string)
    (self : AutoScalingTimeouts.t) (g : AutoScalingGroup.t) :
  let bid := bid_price g in
  let outbid := outbid_times instance_type bid history in
  let self' := evaluate_spot_asg now history instance_type self g in
  NoDup (Dict.keys outbid) /\
  (forall az, az ∈ Dict.keys outbid <->
              outbid_zone instance_type bid history az) /\
  (forall az, Dict.get az outbid =
              zone_outbid bid None None (zone_items instance_type az history)) /\
  (outbid <> [] ->
   avg_outbid_time outbid =
     PrimFloat.div (float_sum (total_seconds <$> Dict.values outbid))
       (float_of_Z (Z.of_nat (length (Dict.keys outbid))))) /\
  ((forall az, ~ outbid_zone instance_type bid history az) ->
   avg_outbid_time outbid = 0%float /\
   _spot_timeouts self' !! _id g = Some None) /\
  _spot_timeouts self' !! _id g =
    (if PrimFloat.ltb 1200 (avg_outbid_time outbid)
     then Some (Some (now + seconds 3600))
     else Some None).
Proof.
  intros bid outbid self'.
  destruct (outbid_times_keys instance_type bid history) as [Hnd Hkeys].
  fold outbid in Hnd, Hkeys.
  assert (_spot_timeouts self' !! _id g =
            (if PrimFloat.ltb 1200 (avg_outbid_time outbid)
             then Some (Some (now + seconds 3600))
             else Some None)) as Hchannel.
  { subst self'. unfold evaluate_spot_asg. fold bid. fold outbid.
    rewrite max_outbids_float.
    destruct (PrimFloat.ltb 1200 (avg_outbid_time outbid)); simpl;
      apply lookup_insert_eq. }
  assert ((forall az, ~ outbid_zone instance_type bid history az) ->
          outbid = []) as Hempty.
  { intros Hnone. destruct outbid as [|[az t] outbid']; [done |].
    exfalso. apply (Hnone az), Hkeys. unfold Dict.keys. csimpl.
    apply elem_of_cons. by left. }
  split; [done |]. split; [done |].
  split; [intros az; apply outbid_times_zone |].
  split; [| split; [| done]].
  - intros Hne. destruct outbid as [|kv outbid']; [done |].
    unfold avg_outbid_time, Dict.keys. by rewrite length_fmap.
  - intros Hnone. rewrite Hchannel, (Hempty Hnone). done.
Qed.

(** C6 as stated fails.  Zone [us-east-1a] accumulates 1500 s of outbid
    time; zone [us-east-1b] has a single observation above the bid and
    accumulates nothing, and is counted all the same: the average is
    1500 / 2 = 750 s and the group is not timed out, where the average
    over the zones with outbid time would be 1500 s, above the
    threshold. *)
Lemma zero_outbid_zone_is_counted :
  let outbid := outbid_times "m4.large" (bid_price Sample.spot_group)
                  Sample.history in
  outbid = [("us-east-1a", seconds 1500); ("us-east-1b", 0)] /\
  avg_outbid_time outbid = 750%float /\
  avg_over_nonzero_zones outbid = 1500%float /\
  PrimFloat.ltb 1200 (avg_over_nonzero_zones outbid) = true /\
  _spot_timeouts (evaluate_spot_asg Sample.now Sample.history "m4.large"
                    AutoScalingTimeouts.init Sample.spot_group)
    !! _id Sample.spot_group = Some None.
Proof. vm_compute. repeat split; reflexivity. Qed.

Lemma outbid_average_over_observed_zones_witness :
  avg_outbid_time (outbid_times "m4.large" (bid_price Sample.spot_group)
                     Sample.history_a) = 1500%float /\
  _spot_timeouts (evaluate_spot_asg Sample.now Sample.history_a "m4.large"
                    AutoScalingTimeouts.init Sample.spot_group)
    !! _id Sample.spot_group = Some (Some (Sample.now + seconds 3600)).
Proof.
  split; [vm_compute; reflexivity |].
  destruct (outbid_average_over_observed_zones Sample.now Sample.history_a
              "m4.large" AutoScalingTimeouts.init Sample.spot_group)
    as (_ & _ & _ & _ & _ & ->).
  vm_compute. reflexivity.
Defined.

Lemma waiting_timeout_is_cleared_witness :
  let acts := [Sample.in_progress; Sample.waiting] in
  let s' := reconcile_limits Sample.open_requests Sample.now false
              Sample.start acts in
  _timeouts (ts (reconcile_entry Sample.open_requests Sample.now false
                   Sample.start Sample.waiting).1) !! _id Sample.group
    = Some (Some (seconds 9000 + seconds 3600)) /\
  _timeouts (ts s') !! _id Sample.group = Some None /\
  AutoScalingTimeouts.is_timed_out (ts s') Sample.now Sample.now Sample.group
    = false.
Proof.
  edestruct (waiting_timeout_is_cleared Sample.open_requests Sample.now false
               Sample.start [Sample.in_progress] Sample.waiting [])
    as (_ & Hmark & _ & Hclear & _).
  - reflexivity.
  - vm_compute. reflexivity.
  - vm_compute. reflexivity.
  - vm_compute. reflexivity.
  - vm_compute. reflexivity.
  - split; [exact Hmark |]. split; [exact Hclear |].
    vm_compute. reflexivity.
Defined.

(** *** What the missing names do to get_all_groups *)

Lemma update_lookup (lcs : list launch_config) (m : gmap string launch_config)
    (k : string) :
  is_Some (update m lcs !! k) <->
  is_Some (m !! k) \/ k ∈ LaunchConfigurationName <$> lcs.
Proof.
  unfold update. revert m.
  induction lcs as [|lc lcs IH]; intros m; csimpl.
  - split; [auto | intros [? | ?%elem_of_nil]; done].
  - rewrite IH, elem_of_cons, lookup_insert_is_Some.
    destruct (decide (LaunchConfigurationName lc = k)); intuition congruence.
Qed.

Lemma assembled_lookup describe (batches : list (list string))
    (m : gmap string launch_config) (k : string) :
  is_Some (fold_left (fun m names => update m (describe names)) batches m !! k)
  <->
  is_Some (m !! k) \/
  exists names, names ∈ batches /\
                k ∈ LaunchConfigurationName <$> describe names.
Proof.
  revert m. induction batches as [|names batches IH]; intros m; simpl.
  - split; [auto | intros [? | (? & ?%elem_of_nil & _)]; done].
  - rewrite IH, update_lookup. split.
    + intros [[? | ?] | (ns & ? & ?)]; [by left | right | right].
      * exists names. split; [apply elem_of_cons; by left | done].
      * exists ns. split; [apply elem_of_cons; by right | done].
    + intros [? | (ns & [-> | ?]%elem_of_cons & ?)];
        [by left; left | by left; right | right; by exists ns].
Qed.

Lemma update_values (lcs : list launch_config) (m : gmap string launch_config)
    (k : string) (lc : launch_config) :
  update m lcs !! k = Some lc -> m !! k = Some lc \/ lc ∈ lcs.
Proof.
  unfold update. revert m.
  induction lcs as [|lc' lcs IH]; intros m; csimpl; [auto |].
  intros [H | H]%IH.
  - destruct (decide (LaunchConfigurationName lc' = k)) as [<- | Hne].
    + rewrite lookup_insert_eq in H. injection H as ->.
      right. apply elem_of_cons. by left.
    + rewrite lookup_insert_ne in H by done. by left.
  - right. apply elem_of_cons. by right.
Qed.

Lemma assembled_values describe (batches : list (list string))
    (m : gmap string launch_config) (k : string) (lc : launch_config) :
  fold_left (fun m names => update m (describe names)) batches m !! k
  = Some lc ->
  m !! k = Some lc \/ exists names, names ∈ batches /\ lc ∈ describe names.
Proof.
  revert m. induction batches as [|names batches IH]; intros m; simpl;
    [auto |].
  intros [[H | H]%update_values | (ns & Hns & H)]%IH.
  - by left.
  - right. exists names. split; [apply elem_of_cons; by left | done].
  - right. exists ns. split; [apply elem_of_cons; by right | done].
Qed.

Lemma elem_of_concat {A : Type} (x : A) (ls : list (list A)) :
  x ∈ concat ls <-> exists l, l ∈ ls /\ x ∈ l.
Proof.
  induction ls as [|l ls IH]; simpl.
  - split; [by intros ?%elem_of_nil | by intros (? & ?%elem_of_nil & _)].
  - rewrite elem_of_app, IH. split.
    + intros [? | (l' & ? & ?)].
      * exists l. split; [apply elem_of_cons; by left | done].
      * exists l'. split; [apply elem_of_cons; by right | done].
    + intros (l' & [-> | ?]%elem_of_cons & ?); [by left | right; by exists l'].
Qed.

Lemma insert_by_name_perm (g : raw_group) (l : list raw_group) :
  insert_by_name g l ≡ₚ g :: l.
Proof.
  induction l as [|h l IH]; simpl; [done |].
  destruct (String.leb _ _); [done |].
  rewrite IH. apply Permutation_swap.
Qed.

Lemma sorted_by_name_perm (l : list raw_group) : sorted_by_name l ≡ₚ l.
Proof.
  unfold sorted_by_name. induction l as [|g l IH]; simpl; [done |].
  by rewrite insert_by_name_perm, IH.
Qed.

(** [__init__] raises exactly on an empty instance type, and otherwise
    builds the object from the raw group, the launch configuration and
    the nodes of the cluster. *)
Lemma add_tag_keeps (m : gmap string string) (t : string * string)
    (k : string) :
  is_Some (m !! k) -> is_Some (AutoScalingGroup.add_tag m t !! k).
Proof.
  destruct t as [key value]. unfold add_tag. intros Hk.
  destruct (PyStr.starts_with "kube/" key); [| done].
  destruct (decide (PyStr.drop 5 key = k)) as [-> | Hne].
  - rewrite lookup_insert_eq. eauto.
  - by rewrite lookup_insert_ne.
Qed.

Lemma fold_add_tag_keeps (tags : list (string * string))
    (m : gmap string string) (k : string) :
  is_Some (m !! k) -> is_Some (fold_left add_tag tags m !! k).
Proof.
  revert m. induction tags as [|t tags IH]; intros m Hk; simpl; [done |].
  by apply IH, add_tag_keeps.
Qed.

Lemma extract_selectors_raises (reg : string) (lc : launch_config)
    (tags : list (string * string)) :
  _extract_selectors reg lc tags = None <-> InstanceType lc = "".
Proof.
  unfold _extract_selectors.
  destruct (InstanceType lc) as [|c rest]; [done |].
  set (defaults := <["aws/region" := reg]> _).
  destruct (fold_add_tag_keeps tags defaults "aws/type") as [ty ->].
  { subst defaults. rewrite !lookup_insert_ne by done.
    rewrite lookup_insert_eq. eauto. }
  destruct (fold_add_tag_keeps tags defaults "aws/region") as [r Hr].
  { subst defaults. rewrite lookup_insert_eq. eauto. }
  simpl. rewrite lookup_insert_ne by done. rewrite Hr. done.
Qed.

Lemma init_spec (reg : string) (kube_nodes : list KubeNode)
    (rg : raw_group) (lc : launch_config) :
  match AutoScalingGroup.init reg kube_nodes rg lc with
  | inl g =>
      InstanceType lc <> "" /\
      region g = reg /\ launch_config_of g = lc /\
      name g = AutoScalingGroupName rg /\
      desired_capacity g = DesiredCapacity rg /\
      min_size g = MinSize rg /\ max_size g = MaxSize rg /\
      (instance_ids g
       = omap (fun i => match i with
                        | Some s => if String.eqb s "" then None else Some s
                        | None => None
                        end) (Instances rg)) /\
      (nodes g
       = filter (fun n => instance_id n ∈ instance_ids g) kube_nodes) /\
      (unschedulable_nodes g
       = filter (fun n => unschedulable n = true) (nodes g))
  | inr e => InstanceType lc = "" /\ e = IndexError
  end.
Proof.
  unfold AutoScalingGroup.init.
  pose proof (extract_selectors_raises reg lc (Tags rg)) as Hraise.
  destruct (_extract_selectors reg lc (Tags rg)) as [sel|].
  - simpl. repeat split; try done.
    intros Hempty. apply Hraise in Hempty. done.
  - split; [by apply Hraise | done].
Qed.

Lemma init_builds (reg : string) (kube_nodes : list KubeNode)
    (rg : raw_group) (lc : launch_config) :
  InstanceType lc <> "" ->
  exists g, AutoScalingGroup.init reg kube_nodes rg lc = inl g /\
            name g = AutoScalingGroupName rg.
Proof.
  intros Hne. pose proof (init_spec reg kube_nodes rg lc) as H.
  destruct (AutoScalingGroup.init reg kube_nodes rg lc) as [g | e].
  - exists g. split; [done |]. tauto.
  - by destruct H.
Qed.

Lemma build_groups_all_found region kube_nodes
    (m : gmap string launch_config) (l : list raw_group) :
  (forall rg, rg ∈ l ->
              exists lc, m !! rg_LaunchConfigurationName rg = Some lc /\
                         InstanceType lc <> "") ->
  exists gs, build_groups None region kube_nodes m l = inl gs /\
             name <$> gs = AutoScalingGroupName <$> l.
Proof.
  induction l as [|rg l IH]; intros Hall; simpl; [by exists [] |].
  destruct (Hall rg) as (lc & -> & Hty); [apply elem_of_cons; by left |].
  destruct (init_builds region kube_nodes rg lc Hty) as (g & -> & Hname).
  destruct IH as (gs & -> & Hnames).
  { intros rg' Hin. apply Hall, elem_of_cons. by right. }
  eexists. split; [done |]. csimpl. by rewrite Hname, Hnames.
Qed.

Lemma build_groups_one_missing region kube_nodes
    (m : gmap string launch_config) (l : list raw_group) (rg : raw_group) :
  (forall k lc, m !! k = Some lc -> InstanceType lc <> "") ->
  rg ∈ l -> m !! rg_LaunchConfigurationName rg = None ->
  exists k, build_groups None region kube_nodes m l = inr (KeyError k) /\
            m !! k = None.
Proof.
  intros Hty.
  induction l as [|h l IH]; intros Hin Hnone; [by apply elem_of_nil in Hin |].
  simpl. destruct (m !! rg_LaunchConfigurationName h) as [lc|] eqn:Hh.
  - destruct (init_builds region kube_nodes h lc (Hty _ _ Hh)) as (g & -> & _).
    apply elem_of_cons in Hin as [-> | Hin]; [congruence |].
    destruct (IH Hin Hnone) as (k & -> & Hk). by exists k.
  - by exists (rg_LaunchConfigurationName h).
Qed.

(** Without a cluster filter and at a provider that answers a request
    with configurations it was asked for and with no other: among up to
    2500 groups of a region, one group whose launch configuration is not
    that of one of the first 50 groups makes [get_all_groups] end in a
    [KeyError]; with up to 50 groups, at a provider that answers every
    name it is asked for, all groups are built. *)
Lemma get_all_groups_beyond_first_batch
    (groups_of : string -> list raw_group)
    (describe : string -> list string -> list launch_config)
    (region : string) (regions : list string) (kube_nodes : list KubeNode)
    (rg : raw_group) :
  (forall names lc, lc ∈ describe region names ->
                    LaunchConfigurationName lc ∈ names /\
                    InstanceType lc <> "") ->
  (length (groups_of region) <= 2500)%nat ->
  rg ∈ groups_of region ->
  rg_LaunchConfigurationName rg
    ∉ rg_LaunchConfigurationName <$> take 50 (groups_of region) ->
  exists k, get_all_groups groups_of describe None (region :: regions)
              kube_nodes = inr (KeyError k).
Proof.
  intros Hasked Hlen Hin Hnot. cbn [get_all_groups].
  unfold get_all_raw_groups_and_launch_configs.
  set (m := fold_left _ _ ∅).
  assert (m !! rg_LaunchConfigurationName rg = None) as Hnone.
  { apply eq_None_not_Some. unfold m. rewrite assembled_lookup.
    intros [[? Habs] | (names & Hnames & Hk)];
      [by rewrite lookup_empty in Habs |].
    apply Hnot. rewrite <- (launch_config_batches_concat _ Hlen).
    apply elem_of_concat. exists names. split; [done |].
    apply list_elem_of_fmap in Hk as (lc & -> & Hlc).
    by apply Hasked in Hlc as [? _]. }
  destruct (build_groups_one_missing region kube_nodes m
              (sorted_by_name (groups_of region)) rg) as (k & -> & _).
  - intros k lc Hk. unfold m in Hk.
    apply assembled_values in Hk as [Hk | (names & _ & Hlc)];
      [by rewrite lookup_empty in Hk |].
    by apply Hasked in Hlc as [_ ?].
  - by rewrite sorted_by_name_perm.
  - done.
  - by exists k.
Qed.

Lemma get_all_groups_single_batch
    (groups_of : string -> list raw_group)
    (describe : string -> list string -> list launch_config)
    (region : string) (kube_nodes : list KubeNode) :
  (forall names n, n ∈ names ->
                   n ∈ LaunchConfigurationName <$> describe region names) ->
  (forall names lc, lc ∈ describe region names -> InstanceType lc <> "") ->
  (length (groups_of region) <= 50)%nat ->
  exists gs, get_all_groups groups_of describe None [region] kube_nodes
             = inl gs /\
             name <$> gs
             = AutoScalingGroupName <$> sorted_by_name (groups_of region).
Proof.
  intros Hanswers Htypes Hlen. cbn [get_all_groups].
  unfold get_all_raw_groups_and_launch_configs.
  set (m := fold_left _ _ ∅).
  destruct (build_groups_all_found region kube_nodes m
              (sorted_by_name (groups_of region))) as (gs & -> & Hnames).
  - intros rg Hin. rewrite sorted_by_name_perm in Hin.
    assert (is_Some (m !! rg_LaunchConfigurationName rg)) as [lc Hlc].
    { unfold m. apply assembled_lookup. right.
      assert (rg_LaunchConfigurationName rg
                ∈ concat (launch_config_batches (groups_of region))) as Hc.
      { rewrite launch_config_batches_concat by lia.
        rewrite take_ge by done. by apply list_elem_of_fmap_2. }
      apply elem_of_concat in Hc as (names & Hnames & Hk).
      exists names. split; [done |]. by apply Hanswers. }
    exists lc. split; [done |]. unfold m in Hlc.
    apply assembled_values in Hlc as [Hlc | (names & _ & Hin')];
      [by rewrite lookup_empty in Hlc |].
    by eapply Htypes.
  - exists (gs ++ [])%list. by rewrite app_nil_r.
Qed.

(** * Further properties *)

(** ** reconcile_limits: the other rules *)

Lemma time_out_asg_fields (s : state) (entry : activity) :
  ts (time_out_asg s entry)
  = with_timeouts (ts s)
      (<[_id (asg s) := Some (StartTime entry + seconds 3600)]>
         (_timeouts (ts s))) /\
  asg (time_out_asg s entry) = asg s /\
  trace (time_out_asg s entry) = trace s.
Proof. done. Qed.

Lemma volume_limit_times_out_state (describe : string -> string -> list string)
    (now : Z) (dry_run : bool) (s : state) (entry : activity)
    (rest : list activity) :
  StatusCode entry = "Failed" \/ StatusCode entry = "Cancelled" ->
  Re.re_match AutoScalingErrorMessages.INSTANCE_LIMIT
    (default "" (StatusMessage entry)) = None ->
  is_Some (Re.re_match AutoScalingErrorMessages.VOLUME_LIMIT
             (default "" (StatusMessage entry))) ->
  let s' := reconcile_limits describe now dry_run s (entry :: rest) in
  ts s' = with_timeouts (ts s)
            (<[_id (asg s) := Some (StartTime entry + seconds 3600)]>
               (_timeouts (ts s))) /\
  asg s' = asg s /\ trace s' = trace s.
Proof.
  intros Hstatus Hinst [m Hvol] s'. subst s'.
  unfold reconcile_limits. cbn [reconcile_loop].
  unfold reconcile_entry. rewrite (status_failed_or_cancelled _ Hstatus).
  unfold failed_entry. rewrite Hinst, Hvol. apply time_out_asg_fields.
Qed.

(** X1.  A Failed or Cancelled first activity whose status message is a
    volume limit (and not an instance limit) times the group out until
    its start time plus one hour, changes neither the group nor anything
    at the provider, with or without [dry_run], and ends the pass:
    what follows in the list is not looked at. *)
Theorem volume_limit_times_out (describe : string -> string -> list string)
    (now : Z) (dry_run : bool) (s : state) (entry : activity)
    (rest : list activity) :
  StatusCode entry = "Failed" \/ StatusCode entry = "Cancelled" ->
  Re.re_match AutoScalingErrorMessages.INSTANCE_LIMIT
    (default "" (StatusMessage entry)) = None ->
  is_Some (Re.re_match AutoScalingErrorMessages.VOLUME_LIMIT
             (default "" (StatusMessage entry))) ->
  let s' := reconcile_limits describe now dry_run s (entry :: rest) in
  _timeouts (ts s') !! _id (asg s)
  = Some (Some (StartTime entry + seconds 3600)) /\
  (forall id, id <> _id (asg s) ->
              _timeouts (ts s') !! id = _timeouts (ts s) !! id) /\
  same_but_timeouts (ts s') (ts s) /\
  ts s' = with_timeouts (ts s)
            (<[_id (asg s) := Some (StartTime entry + seconds 3600)]>
               (_timeouts (ts s))) /\
  asg s' = asg s /\ trace s' = trace s.
Proof.
  intros Hstatus Hinst Hvol. cbv zeta.
  destruct (volume_limit_times_out_state describe now dry_run s entry rest
              Hstatus Hinst Hvol) as (Hts & Hasg & Htr).
  split; [rewrite Hts; apply lookup_insert_eq |].
  split; [intros id Hne; rewrite Hts; simpl; by apply lookup_insert_ne |].
  split; [by rewrite Hts |]. done.
Qed.

Lemma failed_launch_is_reverted_state (describe : string -> string -> list string)
    (now : Z) (dry_run : bool) (s : state) (entry : activity)
    (rest : list activity) :
  StatusCode entry = "Failed" \/ StatusCode entry = "Cancelled" ->
  Re.re_match AutoScalingErrorMessages.INSTANCE_LIMIT
    (default "" (StatusMessage entry)) = None ->
  Re.re_match AutoScalingErrorMessages.VOLUME_LIMIT
    (default "" (StatusMessage entry)) = None ->
  reverting (asg s) (default "" (StatusMessage entry)) ->
  let s' := reconcile_limits describe now dry_run s (entry :: rest) in
  match original_capacity_of entry with
  | Some original =>
      if decide (desired_capacity (asg s) > original) then
        ts s' = with_timeouts (ts s)
                  (<[_id (asg s) := Some (StartTime entry + seconds 3600)]>
                     (_timeouts (ts s))) /\
        (if dry_run
         then asg s' = asg s /\
              trace s' = (trace s ++ [LogDryRunSetCapacity original])%list
         else asg s' = with_desired_capacity (asg s) original /\
              trace s' = (trace s ++ [SetDesiredCapacity (region (asg s))
                                        (name (asg s)) original])%list)
      else s' = s
  | None => s' = s
  end.
Proof.
  intros Hstatus Hinst Hvol Hrev s'. subst s'.
  unfold reconcile_limits. cbn [reconcile_loop].
  unfold reconcile_entry. rewrite (status_failed_or_cancelled _ Hstatus).
  unfold failed_entry. rewrite Hinst, Hvol.
  assert (forall c : state * control,
    c = (let '(s0, reverted) := revert_capacity s entry dry_run in
         (if reverted then time_out_asg s0 entry else s0, Return)) ->
    match original_capacity_of entry with
    | Some original =>
        if decide (desired_capacity (asg s) > original) then
          ts c.1 = with_timeouts (ts s)
                    (<[_id (asg s) := Some (StartTime entry + seconds 3600)]>
                       (_timeouts (ts s))) /\
          (if dry_run
           then asg c.1 = asg s /\
                trace c.1 = (trace s ++ [LogDryRunSetCapacity original])%list
           else asg c.1 = with_desired_capacity (asg s) original /\
                trace c.1 = (trace s ++ [SetDesiredCapacity (region (asg s))
                                          (name (asg s)) original])%list)
        else c.1 = s
    | None => c.1 = s
    end /\ c.2 = Return) as Hrevert.
  { intros c ->. unfold revert_capacity, original_capacity_of.
    destruct (Re.re_search AutoScalingCauseMessages.LAUNCH_INSTANCE _)
      as [cause_m|]; simpl; [| done].
    destruct (decide (desired_capacity (asg s) > _)) as [Hgt | Hle].
    - assert ((desired_capacity (asg s)
                 >? Re.int (Re.group cause_m "original_capacity")) = true)
        as -> by lia.
      by destruct dry_run.
    - assert ((desired_capacity (asg s)
                 >? Re.int (Re.group cause_m "original_capacity")) = false)
        as -> by lia.
      done. }
  destruct Hrev as [[m Hcap] | [[m Haz] Hname]].
  - rewrite Hcap.
    destruct (Hrevert _ eq_refl) as [Hres Hret].
    destruct (let '(s0, reverted) := revert_capacity s entry dry_run in _)
      as [s1 c1]. simpl in *. by subst c1.
  - destruct (Re.re_match AutoScalingErrorMessages.CAPACITY_LIMIT _).
    + destruct (Hrevert _ eq_refl) as [Hres Hret].
      destruct (let '(s0, reverted) := revert_capacity s entry dry_run in _)
        as [s1 c1]. simpl in *. by subst c1.
    + rewrite Haz, Hname.
      rewrite bool_decide_eq_true_2 by eauto. simpl.
      destruct (Hrevert _ eq_refl) as [Hres Hret].
      destruct (let '(s0, reverted) := revert_capacity s entry dry_run in _)
        as [s1 c1]. simpl in *. by subst c1.
Qed.

(** X2.  A Failed or Cancelled first activity that is a capacity limit,
    or an AZ limit on a group whose name holds only-az (and neither an
    instance nor a volume limit), ends the pass.  When its cause is a
    launch that raised the capacity from [original] and the group's
    desired capacity is still above [original], the group is timed out
    until the start time plus one hour and its desired capacity is set
    back to [original] (with [dry_run]: logged, the group untouched).  In
    every other case nothing changes at all: the timeout of the group is
    neither set nor cleared. *)
Theorem failed_launch_is_reverted (describe : string -> string -> list string)
    (now : Z) (dry_run : bool) (s : state) (entry : activity)
    (rest : list activity) :
  StatusCode entry = "Failed" \/ StatusCode entry = "Cancelled" ->
  Re.re_match AutoScalingErrorMessages.INSTANCE_LIMIT
    (default "" (StatusMessage entry)) = None ->
  Re.re_match AutoScalingErrorMessages.VOLUME_LIMIT
    (default "" (StatusMessage entry)) = None ->
  reverting (asg s) (default "" (StatusMessage entry)) ->
  let s' := reconcile_limits describe now dry_run s (entry :: rest) in
  match original_capacity_of entry with
  | Some original =>
      if decide (desired_capacity (asg s) > original) then
        _timeouts (ts s') !! _id (asg s)
        = Some (Some (StartTime entry + seconds 3600)) /\
        (forall id, id <> _id (asg s) ->
                    _timeouts (ts s') !! id = _timeouts (ts s) !! id) /\
        ts s' = with_timeouts (ts s)
                  (<[_id (asg s) := Some (StartTime entry + seconds 3600)]>
                     (_timeouts (ts s))) /\
        (if dry_run
         then desired_capacity (asg s') = desired_capacity (asg s) /\
              asg s' = asg s /\
              trace s' = (trace s ++ [LogDryRunSetCapacity original])%list
         else desired_capacity (asg s') = original /\
              asg s' = with_desired_capacity (asg s) original /\
              trace s' = (trace s ++ [SetDesiredCapacity (region (asg s))
                                        (name (asg s)) original])%list)
      else s' = s
  | None => s' = s
  end.
Proof.
  intros Hstatus Hinst Hvol Hrev. cbv zeta.
  pose proof (failed_launch_is_reverted_state describe now dry_run s entry
                rest Hstatus Hinst Hvol Hrev) as H.
  cbv zeta in H.
  destruct (original_capacity_of entry) as [original|]; [| done].
  destruct (decide (desired_capacity (asg s) > original)); [| done].
  destruct H as [Hts Hrest].
  split; [rewrite Hts; apply lookup_insert_eq |].
  split; [intros id Hne; rewrite Hts; simpl; by apply lookup_insert_ne |].
  split; [done |].
  destruct dry_run; destruct Hrest as [Hasg Htr];
    (split; [by rewrite Hasg | done]).
Qed.

Lemma failed_entry_skipped dry_run s entry msg :
  Re.re_match AutoScalingErrorMessages.INSTANCE_LIMIT msg = None ->
  Re.re_match AutoScalingErrorMessages.VOLUME_LIMIT msg = None ->
  Re.re_match AutoScalingErrorMessages.CAPACITY_LIMIT msg = None ->
  Re.re_search AutoScalingErrorMessages.AZ_LIMIT msg = None \/
    PyStr.contains "only-az" (name (asg s)) = false ->
  is_Some (Re.re_search AutoScalingErrorMessages.SPOT_REQUEST_CANCELLED msg) \/
    Re.re_match AutoScalingErrorMessages.SPOT_LIMIT msg = None ->
  failed_entry dry_run s entry msg = (s, Next).
Proof.
  intros Hinst Hvol Hcap Haz Hspot. unfold failed_entry.
  rewrite Hinst, Hvol, Hcap.
  assert (bool_decide (is_Some (Re.re_search AutoScalingErrorMessages.AZ_LIMIT msg))
          && PyStr.contains "only-az" (name (asg s)) = false) as ->.
  { destruct Haz as [-> | ->]; [| by rewrite andb_false_r].
    by rewrite bool_decide_eq_false_2 by (by intros [? ?]). }
  destruct Hspot as [[m ->] | Hlimit]; [done |].
  rewrite Hlimit.
  by destruct (Re.re_search AutoScalingErrorMessages.SPOT_REQUEST_CANCELLED msg).
Qed.

(** X3.  A Failed or Cancelled activity is passed over, with no timeout,
    no capacity change and the pass going on to the next activity, when
    it is no instance, volume or capacity limit, is no AZ limit or the
    group is not named only-az, and either tells of a cancelled spot
    request or is no spot limit.  So a cancelled spot request alone never
    times a group out, and an AZ limit does nothing to a group that is
    not bound to one zone. *)
Theorem failure_without_rule_is_skipped
    (describe : string -> string -> list string) (now : Z) (dry_run : bool)
    (s : state) (entry : activity) (rest : list activity) :
  StatusCode entry = "Failed" \/ StatusCode entry = "Cancelled" ->
  Re.re_match AutoScalingErrorMessages.INSTANCE_LIMIT
    (default "" (StatusMessage entry)) = None ->
  Re.re_match AutoScalingErrorMessages.VOLUME_LIMIT
    (default "" (StatusMessage entry)) = None ->
  Re.re_match AutoScalingErrorMessages.CAPACITY_LIMIT
    (default "" (StatusMessage entry)) = None ->
  Re.re_search AutoScalingErrorMessages.AZ_LIMIT
    (default "" (StatusMessage entry)) = None \/
    PyStr.contains "only-az" (name (asg s)) = false ->
  is_Some (Re.re_search AutoScalingErrorMessages.SPOT_REQUEST_CANCELLED
             (default "" (StatusMessage entry))) \/
    Re.re_match AutoScalingErrorMessages.SPOT_LIMIT
      (default "" (StatusMessage entry)) = None ->
  reconcile_entry describe now dry_run s entry = (s, Next) /\
  reconcile_limits describe now dry_run s (entry :: rest)
  = reconcile_limits describe now dry_run s rest.
Proof.
  intros Hstatus Hinst Hvol Hcap Haz Hspot.
  assert (reconcile_entry describe now dry_run s entry = (s, Next)) as Hentry.
  { unfold reconcile_entry. rewrite (status_failed_or_cancelled _ Hstatus).
    by apply failed_entry_skipped. }
  split; [done |].
  unfold reconcile_limits. cbn [reconcile_loop]. by rewrite Hentry.
Qed.

Lemma spot_limit_sets_actual_capacity_state
    (describe : string -> string -> list string) (now : Z) (dry_run : bool)
    (s : state) (entry : activity) (rest : list activity) :
  StatusCode entry = "Failed" \/ StatusCode entry = "Cancelled" ->
  Re.re_match AutoScalingErrorMessages.INSTANCE_LIMIT
    (default "" (StatusMessage entry)) = None ->
  Re.re_match AutoScalingErrorMessages.VOLUME_LIMIT
    (default "" (StatusMessage entry)) = None ->
  Re.re_match AutoScalingErrorMessages.CAPACITY_LIMIT
    (default "" (StatusMessage entry)) = None ->
  Re.re_search AutoScalingErrorMessages.AZ_LIMIT
    (default "" (StatusMessage entry)) = None \/
    PyStr.contains "only-az" (name (asg s)) = false ->
  Re.re_search AutoScalingErrorMessages.SPOT_REQUEST_CANCELLED
    (default "" (StatusMessage entry)) = None ->
  is_Some (Re.re_match AutoScalingErrorMessages.SPOT_LIMIT
             (default "" (StatusMessage entry))) ->
  let s' := reconcile_limits describe now dry_run s (entry :: rest) in
  let actual := Z.of_nat (length (nodes (asg s))) in
  ts s' = with_timeouts (ts s)
            (<[_id (asg s) := Some (StartTime entry + seconds 3600)]>
               (_timeouts (ts s))) /\
  (if dry_run
   then asg s' = asg s /\
        trace s' = (trace s ++ [LogDryRunSetCapacity actual])%list
   else asg s' = with_desired_capacity (asg s) actual /\
        trace s' = (trace s ++ [SetDesiredCapacity (region (asg s))
                                  (name (asg s)) actual])%list).
Proof.
  intros Hstatus Hinst Hvol Hcap Haz Hcancelled [m Hlimit] s' actual.
  subst s' actual.
  unfold reconcile_limits. cbn [reconcile_loop].
  unfold reconcile_entry. rewrite (status_failed_or_cancelled _ Hstatus).
  unfold failed_entry. rewrite Hinst, Hvol, Hcap.
  assert (bool_decide (is_Some (Re.re_search AutoScalingErrorMessages.AZ_LIMIT
                                  (default "" (StatusMessage entry))))
          && PyStr.contains "only-az" (name (asg s)) = false) as ->.
  { destruct Haz as [-> | ->]; [| by rewrite andb_false_r].
    by rewrite bool_decide_eq_false_2 by (by intros [? ?]). }
  rewrite Hcancelled, Hlimit.
  by destruct dry_run.
Qed.

(** X4.  A Failed or Cancelled first activity that is a spot limit (and
    falls under no earlier rule) times the group out until its start
    time plus one hour and sets the desired capacity to the number of
    nodes the group has, whether that is below or above the current
    value (with [dry_run]: logged, the group untouched), and ends the
    pass. *)
Theorem spot_limit_sets_actual_capacity
    (describe : string -> string -> list string) (now : Z) (dry_run : bool)
    (s : state) (entry : activity) (rest : list activity) :
  StatusCode entry = "Failed" \/ StatusCode entry = "Cancelled" ->
  Re.re_match AutoScalingErrorMessages.INSTANCE_LIMIT
    (default "" (StatusMessage entry)) = None ->
  Re.re_match AutoScalingErrorMessages.VOLUME_LIMIT
    (default "" (StatusMessage entry)) = None ->
  Re.re_match AutoScalingErrorMessages.CAPACITY_LIMIT
    (default "" (StatusMessage entry)) = None ->
  Re.re_search AutoScalingErrorMessages.AZ_LIMIT
    (default "" (StatusMessage entry)) = None \/
    PyStr.contains "only-az" (name (asg s)) = false ->
  Re.re_search AutoScalingErrorMessages.SPOT_REQUEST_CANCELLED
    (default "" (StatusMessage entry)) = None ->
  is_Some (Re.re_match AutoScalingErrorMessages.SPOT_LIMIT
             (default "" (StatusMessage entry))) ->
  let s' := reconcile_limits describe now dry_run s (entry :: rest) in
  let actual := Z.of_nat (length (nodes (asg s))) in
  _timeouts (ts s') !! _id (asg s)
  = Some (Some (StartTime entry + seconds 3600)) /\
  (forall id, id <> _id (asg s) ->
              _timeouts (ts s') !! id = _timeouts (ts s) !! id) /\
  ts s' = with_timeouts (ts s)
            (<[_id (asg s) := Some (StartTime entry + seconds 3600)]>
               (_timeouts (ts s))) /\
  (if dry_run
   then desired_capacity (asg s') = desired_capacity (asg s) /\
        asg s' = asg s /\
        trace s' = (trace s ++ [LogDryRunSetCapacity actual])%list
   else desired_capacity (asg s') = actual /\
        asg s' = with_desired_capacity (asg s) actual /\
        trace s' = (trace s ++ [SetDesiredCapacity (region (asg s))
                                  (name (asg s)) actual])%list).
Proof.
  intros Hstatus Hinst Hvol Hcap Haz Hcancelled Hlimit. cbv zeta.
  destruct (spot_limit_sets_actual_capacity_state describe now dry_run s
              entry rest Hstatus Hinst Hvol Hcap Haz Hcancelled Hlimit)
    as [Hts Hrest].
  split; [rewrite Hts; apply lookup_insert_eq |].
  split; [intros id Hne; rewrite Hts; simpl; by apply lookup_insert_ne |].
  split; [done |].
  destruct dry_run; destruct Hrest as [Hasg Htr];
    (split; [by rewrite Hasg | done]).
Qed.

(** ** reconcile_limits: what a pass leaves alone *)

Lemma about_with_desired_capacity g d ev :
  about (with_desired_capacity g d) ev <-> about g ev.
Proof. by destruct ev. Qed.

Lemma reconcile_entry_frame describe now dry_run s e :
  let s' := (reconcile_entry describe now dry_run s e).1 in
  (forall id, id <> _id (asg s) ->
              _timeouts (ts s') !! id = _timeouts (ts s) !! id) /\
  asg s' = with_desired_capacity (asg s) (desired_capacity (asg s')) /\
  exists evs, trace s' = (trace s ++ evs)%list /\ Forall (about (asg s)) evs.
Proof.
  destruct s as [T G tr]. destruct G.
  unfold reconcile_entry, failed_entry, waiting_entry, revert_capacity,
    time_out_asg, AutoScalingTimeouts.set_desired_capacity, emit,
    cancel_spot_request, AutoScalingGroup.set_desired_capacity,
    with_desired_capacity, _id.
  cbn [ts asg trace region name desired_capacity min_size max_size
       launch_config_of instance_ids nodes unschedulable_nodes].
  repeat (case_match; simplify_eq/=); frame_leaf.
Qed.

Lemma reconcile_loop_frame describe now dry_run acts s :
  let s' := (reconcile_loop describe now dry_run s acts).1 in
  (forall id, id <> _id (asg s) ->
              _timeouts (ts s') !! id = _timeouts (ts s) !! id) /\
  asg s' = with_desired_capacity (asg s) (desired_capacity (asg s')) /\
  exists evs, trace s' = (trace s ++ evs)%list /\ Forall (about (asg s)) evs.
Proof.
  revert s. induction acts as [|e acts IH]; intros s; cbn [reconcile_loop].
  - simpl. split; [done |]. split; [by destruct (asg s) |].
    exists []. by rewrite app_nil_r.
  - pose proof (reconcile_entry_frame describe now dry_run s e) as H1.
    destruct (reconcile_entry describe now dry_run s e) as [s1 [|]];
      [| exact H1].
    specialize (IH s1).
    destruct (reconcile_loop describe now dry_run s1 acts) as [s2 c].
    simpl in *.
    destruct H1 as (Ht1 & Hg1 & evs1 & Htr1 & Hab1).
    destruct IH as (Ht2 & Hg2 & evs2 & Htr2 & Hab2).
    assert (_id (asg s1) = _id (asg s)) as Hid by (by rewrite Hg1).
    split; [| split].
    + intros id Hne. rewrite Ht2 by (by rewrite Hid). by apply Ht1.
    + rewrite Hg2, Hg1. done.
    + exists (evs1 ++ evs2)%list. rewrite Htr2, Htr1, app_assoc.
      split; [done |]. apply Forall_app. split; [done |].
      eapply Forall_impl; [exact Hab2 |]. intros ev.
      rewrite Hg1. apply about_with_desired_capacity.
Qed.

Lemma reconcile_limits_frame_group describe now dry_run s acts :
  let s' := reconcile_limits describe now dry_run s acts in
  (forall id, id <> _id (asg s) ->
              _timeouts (ts s') !! id = _timeouts (ts s) !! id) /\
  asg s' = with_desired_capacity (asg s) (desired_capacity (asg s')) /\
  exists evs, trace s' = (trace s ++ evs)%list /\ Forall (about (asg s)) evs.
Proof.
  intros s'. subst s'.
  pose proof (reconcile_loop_frame describe now dry_run acts s) as Hfr.
  unfold reconcile_limits in *.
  destruct (reconcile_loop describe now dry_run s acts) as [s1 [|]];
    simpl in *; [| done].
  destruct Hfr as (Ht & Hg & Hev).
  split; [| done].
  intros id Hne. rewrite lookup_insert_ne; [by apply Ht |].
  by rewrite Hg.
Qed.

(** X5.  Whatever the activities, a pass over a group writes no timeout
    but the group's own, leaves the watermarks, the spot timeouts and the
    price history as they are, changes nothing of the group object but
    its desired capacity, and adds to the trace only capacity changes of
    this group, cancellations in its region and log lines: it never
    terminates an instance, uncordons a node or touches another group. *)
Theorem reconcile_limits_frame (describe : string -> string -> list string)
    (now : Z) (dry_run : bool) (s : state) (acts : list activity) :
  let s' := reconcile_limits describe now dry_run s acts in
  (forall id, id <> _id (asg s) ->
              _timeouts (ts s') !! id = _timeouts (ts s) !! id) /\
  same_but_timeouts (ts s') (ts s) /\
  asg s' = with_desired_capacity (asg s) (desired_capacity (asg s')) /\
  exists evs, trace s' = (trace s ++ evs)%list /\ Forall (about (asg s)) evs.
Proof.
  intros s'. subst s'.
  pose proof (reconcile_limits_other_fields describe now dry_run s acts) as Hof.
  destruct (reconcile_limits_frame_group describe now dry_run s acts)
    as (Ht & Hg & Hev).
  done.
Qed.

(** ** reconcile_limits: passes without a return *)

Lemma reconcile_entry_not_looked_at describe now dry_run s e :
  ~ looked_at (StatusCode e) ->
  reconcile_entry describe now dry_run s e = (s, Next).
Proof.
  intros Hno. unfold reconcile_entry, looked_at in *.
  destruct (String.eqb_spec (StatusCode e) "Failed"); [tauto |].
  destruct (String.eqb_spec (StatusCode e) "Cancelled"); [tauto |].
  destruct (String.eqb_spec (StatusCode e) "WaitingForSpotInstanceId");
    [tauto | done].
Qed.

Lemma uneventful_pass_state
    (describe : string -> string -> list string) (now : Z) (dry_run : bool)
    (s : state) (acts : list activity) :
  Forall (fun e => ~ looked_at (StatusCode e)) acts ->
  reconcile_limits describe now dry_run s acts
  = {| ts := with_timeouts (ts s)
               (<[_id (asg s) := None]> (_timeouts (ts s)));
       asg := asg s; trace := trace s |}.
Proof.
  intros Hall. unfold reconcile_limits.
  assert (reconcile_loop describe now dry_run s acts = (s, Next)) as ->; [| done].
  induction Hall as [|e acts He _ IH]; cbn [reconcile_loop]; [done |].
  by rewrite (reconcile_entry_not_looked_at _ _ _ _ _ He).
Qed.

(** X6.  A pass over activities of which none is Failed, Cancelled or
    WaitingForSpotInstanceId (the empty list among them) sets the
    group's ordinary timeout to [None], whatever it was, and does nothing
    else. *)
Theorem uneventful_pass_clears_timeout
    (describe : string -> string -> list string) (now : Z) (dry_run : bool)
    (s : state) (acts : list activity) :
  Forall (fun e => ~ looked_at (StatusCode e)) acts ->
  let s' := reconcile_limits describe now dry_run s acts in
  _timeouts (ts s') !! _id (asg s) = Some None /\
  (forall id, id <> _id (asg s) ->
              _timeouts (ts s') !! id = _timeouts (ts s) !! id) /\
  same_but_timeouts (ts s') (ts s) /\
  asg s' = asg s /\ trace s' = trace s /\
  s' = {| ts := with_timeouts (ts s)
                  (<[_id (asg s) := None]> (_timeouts (ts s)));
          asg := asg s; trace := trace s |}.
Proof.
  intros Hall. cbv zeta.
  rewrite (uneventful_pass_state describe now dry_run s acts Hall).
  cbn [ts asg trace].
  split; [apply lookup_insert_eq |].
  split; [intros id Hne; simpl; by apply lookup_insert_ne |].
  done.
Qed.

(** ** reconcile_limits: several spot requests in one pass *)

Lemma overdue_entry_cancels describe now s e :
  overdue_spot_request now e ->
  (forall r i, exists st sts,
      describe r i = st :: sts /\ (st = "open" \/ st = "active")) ->
  reconcile_entry describe now false s e
  = ({| ts := with_timeouts (ts s)
                (<[_id (asg s) := Some (StartTime e + seconds 3600)]>
                   (_timeouts (ts s)));
        asg := with_desired_capacity (asg s) (desired_capacity (asg s) - 1);
        trace := (trace s ++
                  [CancelSpotInstanceRequests (region (asg s)) (request_id_of e);
                   SetDesiredCapacity (region (asg s)) (name (asg s))
                     (desired_capacity (asg s) - 1)])%list |},
     Next).
Proof.
  intros (Hstatus & Hcause & Hlong & [m Hm]) Hopen.
  unfold reconcile_entry.
  destruct (status_waiting _ Hstatus) as [-> ->].
  unfold waiting_entry, request_id_of. rewrite Hcause, Hm.
  assert ((now - StartTime e >? seconds _SPOT_REQUEST_TIMEOUT) = true)
    as -> by (unfold _SPOT_REQUEST_TIMEOUT; lia).
  cbn [negb]. unfold cancel_spot_request. cbn [asg time_out_asg].
  destruct (Hopen (region (asg s)) (Re.group m "request_id"))
    as (st & sts & -> & Hst).
  assert (String.eqb st "open" || String.eqb st "active" = true) as ->
    by (destruct Hst as [-> | ->]; reflexivity).
  unfold AutoScalingTimeouts.set_desired_capacity, emit, time_out_asg. simpl.
  by rewrite <- app_assoc.
Qed.

Lemma overdue_loop_cancels describe now acts s :
  Forall (overdue_spot_request now) acts ->
  (forall r i, exists st sts,
      describe r i = st :: sts /\ (st = "open" \/ st = "active")) ->
  exists s',
    reconcile_loop describe now false s acts = (s', Next) /\
    asg s' = with_desired_capacity (asg s)
               (desired_capacity (asg s) - Z.of_nat (length acts)) /\
    cancellations (trace s')
    = (cancellations (trace s) ++
       ((fun e => CancelSpotInstanceRequests (region (asg s)) (request_id_of e))
          <$> acts))%list.
Proof.
  intros Hall Hopen. revert s.
  induction Hall as [|e acts He _ IH]; intros s; cbn [reconcile_loop].
  - exists s. split; [done |]. split.
    + rewrite Z.sub_0_r. by destruct (asg s).
    + by rewrite app_nil_r.
  - rewrite (overdue_entry_cancels _ _ _ _ He Hopen).
    destruct (IH {| ts := with_timeouts (ts s)
                            (<[_id (asg s) := Some (StartTime e + seconds 3600)]>
                               (_timeouts (ts s)));
                    asg := with_desired_capacity (asg s)
                             (desired_capacity (asg s) - 1);
                    trace := (trace s ++
                      [CancelSpotInstanceRequests (region (asg s)) (request_id_of e);
                       SetDesiredCapacity (region (asg s)) (name (asg s))
                         (desired_capacity (asg s) - 1)])%list |})
      as (s' & -> & Hg & Hc).
    exists s'. split; [done |]. simpl in Hg, Hc. split.
    + rewrite Hg. unfold with_desired_capacity. simpl. f_equal. lia.
    + rewrite Hc. unfold cancellations. rewrite List.filter_app. simpl.
      by rewrite <- app_assoc.
Qed.

(** X7.  When every activity of the list is a spot request waiting for
    more than 5 minutes (no AZ-balance launch, request identifier in the
    status message) and the provider reports each request open or
    active, a real pass cancels every one of them, in the order of the
    list, lowers the desired capacity by one per request, and leaves the
    group's ordinary timeout at [None]. *)
Theorem overdue_requests_are_all_cancelled
    (describe : string -> string -> list string) (now : Z) (s : state)
    (acts : list activity) :
  Forall (overdue_spot_request now) acts ->
  (forall r i, exists st sts,
      describe r i = st :: sts /\ (st = "open" \/ st = "active")) ->
  let s' := reconcile_limits describe now false s acts in
  desired_capacity (asg s')
  = desired_capacity (asg s) - Z.of_nat (length acts) /\
  cancellations (trace s')
  = (cancellations (trace s) ++
     ((fun e => CancelSpotInstanceRequests (region (asg s)) (request_id_of e))
        <$> acts))%list /\
  _timeouts (ts s') !! _id (asg s) = Some None.
Proof.
  intros Hall Hopen s'. subst s'. unfold reconcile_limits.
  destruct (overdue_loop_cancels describe now acts s Hall Hopen)
    as (s1 & -> & Hg & Hc).
  simpl. rewrite Hg. simpl. split; [done |]. split; [done |].
  apply lookup_insert_eq.
Qed.

(** ** The rules on the sample activities *)

Lemma volume_limit_times_out_witness :
  let s' := reconcile_limits Sample.no_requests Sample.now false Sample.start
              [Sample.volume_failure; Sample.limit_failure] in
  _timeouts (ts Sample.start) !! ("us-east-1", "workers") = None /\
  _timeouts (ts s') !! ("us-east-1", "workers")
  = Some (Some (seconds 8000 + seconds 3600)) /\
  asg s' = Sample.group /\ trace s' = [].
Proof.
  split; [reflexivity |].
  destruct (volume_limit_times_out Sample.no_requests Sample.now false
              Sample.start Sample.volume_failure [Sample.limit_failure])
    as (Hlook & _ & _ & _ & Hasg & Htr).
  - left. reflexivity.
  - vm_compute. reflexivity.
  - vm_compute. eauto.
  - split; [exact Hlook |]. split; [exact Hasg | exact Htr].
Defined.

Lemma failed_launch_is_reverted_witness :
  let s' := reconcile_limits Sample.no_requests Sample.now false Sample.start
              [Sample.capacity_failure; Sample.waiting] in
  _timeouts (ts s') !! ("us-east-1", "workers")
  = Some (Some (seconds 8000 + seconds 3600)) /\
  desired_capacity (asg Sample.start) = 12 /\
  desired_capacity (asg s') = 10 /\
  trace s' = [SetDesiredCapacity "us-east-1" "workers" 10].
Proof.
  pose proof (failed_launch_is_reverted Sample.no_requests Sample.now false
                Sample.start Sample.capacity_failure [Sample.waiting]) as H.
  assert (original_capacity_of Sample.capacity_failure = Some 10) as Horig
    by (vm_compute; reflexivity).
  rewrite Horig in H.
  destruct (decide (desired_capacity (asg Sample.start) > 10)) as [_ | Hle];
    [| vm_compute in Hle; done].
  destruct H as (Hlook & _ & _ & Hcapacity & _ & Htrace).
  - left. reflexivity.
  - vm_compute. reflexivity.
  - vm_compute. reflexivity.
  - left. vm_compute. eauto.
  - split; [exact Hlook |]. split; [reflexivity |].
    split; [exact Hcapacity | exact Htrace].
Defined.

Lemma failure_without_rule_is_skipped_witness :
  reconcile_entry Sample.no_requests Sample.now false Sample.start
    Sample.cancelled_request = (Sample.start, Next) /\
  reconcile_entry Sample.no_requests Sample.now false Sample.start
    Sample.az_failure = (Sample.start, Next).
Proof.
  split.
  - apply (failure_without_rule_is_skipped Sample.no_requests Sample.now false
             Sample.start Sample.cancelled_request []).
    + left. reflexivity.
    + vm_compute. reflexivity.
    + vm_compute. reflexivity.
    + vm_compute. reflexivity.
    + left. vm_compute. reflexivity.
    + left. vm_compute. eauto.
  - apply (failure_without_rule_is_skipped Sample.no_requests Sample.now false
             Sample.start Sample.az_failure []).
    + left. reflexivity.
    + vm_compute. reflexivity.
    + vm_compute. reflexivity.
    + vm_compute. reflexivity.
    + right. vm_compute. reflexivity.
    + right. vm_compute. reflexivity.
Defined.

Lemma spot_limit_sets_actual_capacity_witness :
  let s' := reconcile_limits Sample.no_requests Sample.now false Sample.start
              [Sample.spot_limit_failure] in
  _timeouts (ts s') !! ("us-east-1", "workers")
  = Some (Some (seconds 8000 + seconds 3600)) /\
  desired_capacity (asg Sample.start) = 12 /\
  desired_capacity (asg s') = 3 /\
  trace s' = [SetDesiredCapacity "us-east-1" "workers" 3].
Proof.
  destruct (spot_limit_sets_actual_capacity Sample.no_requests Sample.now
              false Sample.start Sample.spot_limit_failure [])
    as (Hlook & _ & _ & Hcapacity & _ & Htrace).
  - left. reflexivity.
  - vm_compute. reflexivity.
  - vm_compute. reflexivity.
  - vm_compute. reflexivity.
  - left. vm_compute. reflexivity.
  - vm_compute. reflexivity.
  - vm_compute. eauto.
  - split; [exact Hlook |]. split; [reflexivity |].
    split; [exact Hcapacity | exact Htrace].
Defined.

Lemma uneventful_pass_clears_timeout_witness :
  let s0 :=
    {| ts := {| _timeouts :=
                  <[("us-east-1", "workers") := Some (seconds 11600)]> ∅;
                _last_activities := ∅; _spot_timeouts := ∅;
                _spot_price_history := ∅ |};
       asg := Sample.group; trace := [] |} in
  let s' := reconcile_limits Sample.no_requests Sample.now false s0
              [Sample.in_progress; Sample.successful] in
  _timeouts (ts s0) !! ("us-east-1", "workers") = Some (Some (seconds 11600)) /\
  Sample.now < seconds 11600 /\
  _timeouts (ts s') !! ("us-east-1", "workers") = Some None /\
  asg s' = Sample.group /\ trace s' = [].
Proof.
  split; [reflexivity |]. split; [reflexivity |].
  destruct (uneventful_pass_clears_timeout Sample.no_requests Sample.now false
              {| ts := {| _timeouts :=
                            <[("us-east-1", "workers") :=
                                Some (seconds 11600)]> ∅;
                          _last_activities := ∅; _spot_timeouts := ∅;
                          _spot_price_history := ∅ |};
                 asg := Sample.group; trace := [] |}
              [Sample.in_progress; Sample.successful])
    as (Hlook & _ & _ & Hasg & Htr & _).
  - repeat constructor; intros [H | [H | H]]; discriminate H.
  - split; [exact Hlook |]. split; [exact Hasg | exact Htr].
Defined.

Lemma overdue_requests_are_all_cancelled_witness :
  let s' := reconcile_limits Sample.open_requests Sample.now false Sample.start
              [Sample.waiting; Sample.waiting'] in
  desired_capacity (asg s') = 12 - 2 /\
  cancellations (trace s')
  = [CancelSpotInstanceRequests "us-east-1" "sir-1";
     CancelSpotInstanceRequests "us-east-1" "sir-2"] /\
  _timeouts (ts s') !! _id Sample.group = Some None.
Proof.
  apply (overdue_requests_are_all_cancelled Sample.open_requests Sample.now
           Sample.start [Sample.waiting; Sample.waiting']).
  - repeat constructor; try (vm_compute; reflexivity); vm_compute; eauto.
  - intros r i. exists "open", []. split; [reflexivity | by left].
Defined.

(** ** is_timed_out: expiry *)

(** X8.  Timeouts only run out: a group that is not timed out at the
    clock readings [now] (ordinary channel) and [now'] (spot channel) is
    not timed out at any later readings, as long as the reconciler is
    not refreshed in between. *)
Theorem timeout_stays_expired (self : AutoScalingTimeouts.t)
    (now now' later later' : Z) (g : AutoScalingGroup.t) :
  AutoScalingTimeouts.is_timed_out self now now' g = false ->
  now <= later -> now' <= later' ->
  AutoScalingTimeouts.is_timed_out self later later' g = false.
Proof.
  intros Hnot Hle Hle'.
  apply not_true_is_false. intros Hlater.
  apply is_timed_out_reads in Hlater.
  assert (AutoScalingTimeouts.is_timed_out self now now' g = true) as Hnow;
    [| congruence].
  apply is_timed_out_reads.
  destruct Hlater as [(u & Hu & ?) | (u & Hu & ?)];
    [left | right]; exists u; split; [done | lia | done | lia].
Qed.

Lemma timeout_stays_expired_witness :
  AutoScalingTimeouts.is_timed_out
    (with_timeouts AutoScalingTimeouts.init
       (<[("us-east-1", "workers") := Some (seconds 11600)]> ∅))
    (seconds 11600) (seconds 11601) Sample.group = false /\
  AutoScalingTimeouts.is_timed_out
    (with_timeouts AutoScalingTimeouts.init
       (<[("us-east-1", "workers") := Some (seconds 11600)]> ∅))
    (seconds 20000) (seconds 20001) Sample.group = false.
Proof.
  assert (AutoScalingTimeouts.is_timed_out
            (with_timeouts AutoScalingTimeouts.init
               (<[("us-east-1", "workers") := Some (seconds 11600)]> ∅))
            (seconds 11600) (seconds 11601) Sample.group = false) as H
    by (vm_compute; reflexivity).
  split; [exact H |].
  apply (timeout_stays_expired _ (seconds 11600) (seconds 11601) _ _ _ H);
    vm_compute; discriminate.
Defined.

(** ** refresh_timeouts: the scan of a region *)

Lemma scan_keeps last now act :
  ~ scan_stops_at last now act ->
  bool_decide (Some (ActivityId act) = last) = false /\
  (StartTime act <? now - seconds _TIMEOUT) = false.
Proof.
  unfold scan_stops_at. intros H. split.
  - apply bool_decide_eq_false_2. tauto.
  - apply Z.ltb_ge. lia.
Qed.

Lemma scan_stops last now act st :
  start_time_cutoff st = None \/
  start_time_cutoff st = Some (now - seconds _TIMEOUT) ->
  scan_stops_at last now act ->
  forall rest, activities (scan last now st (act :: rest)) = activities st.
Proof.
  intros Hcut Hstop rest. cbn [scan].
  destruct (bool_decide (Some (ActivityId act) = last)) eqn:Hw; [done |].
  apply bool_decide_eq_false_1 in Hw.
  destruct Hstop as [? | Hold]; [done |].
  assert (match start_time_cutoff st with
          | Some c => c
          | None => now - seconds _TIMEOUT
          end = now - seconds _TIMEOUT) as ->
    by (by destruct Hcut as [-> | ->]).
  by assert ((StartTime act <? now - seconds _TIMEOUT) = true) as ->
    by (by apply Z.ltb_lt).
Qed.

Lemma scan_activities last now pre rest st n :
  start_time_cutoff st = None \/
  start_time_cutoff st = Some (now - seconds _TIMEOUT) ->
  Forall (fun a => ~ scan_stops_at last now a) pre ->
  (forall b, head rest = Some b -> scan_stops_at last now b) ->
  default [] (activities (scan last now st (pre ++ rest)) !! n)
  = (default [] (activities st !! n) ++
     filter (fun a => act_AutoScalingGroupName a = n) pre)%list.
Proof.
  intros Hcut Hpre Hrest. revert st Hcut.
  induction Hpre as [|act pre Hact _ IH]; intros st Hcut.
  - rewrite app_nil_r. simpl. destruct rest as [|b rest]; [done |].
    by rewrite (scan_stops last now b st Hcut (Hrest b eq_refl)).
  - destruct (scan_keeps _ _ _ Hact) as [Hw Hold].
    cbn [app scan]. rewrite Hw.
    assert (match start_time_cutoff st with
            | Some c => c
            | None => now - seconds _TIMEOUT
            end = now - seconds _TIMEOUT) as ->
      by (by destruct Hcut as [-> | ->]).
    rewrite Hold. rewrite IH by (simpl; auto). simpl.
    rewrite filter_cons.
    destruct (decide (act_AutoScalingGroupName act = n)) as [-> | Hne].
    + rewrite lookup_insert_eq. simpl. by rewrite <- app_assoc.
    + by rewrite lookup_insert_ne.
Qed.

Lemma consumed_app last now pre rest :
  Forall (fun a => ~ scan_stops_at last now a) pre ->
  (forall b, head rest = Some b -> scan_stops_at last now b) ->
  consumed last now (pre ++ rest) = (pre ++ take 1 rest)%list.
Proof.
  intros Hpre Hrest. induction Hpre as [|act pre Hact _ IH]; simpl.
  - destruct rest as [|b rest]; [done |]. simpl.
    destruct (bool_decide (Some (ActivityId b) = last)) eqn:Hw; [done |].
    apply bool_decide_eq_false_1 in Hw.
    destruct (Hrest b eq_refl) as [? | Hold]; [done |].
    by assert ((StartTime b <? now - seconds _TIMEOUT) = true) as ->
      by (by apply Z.ltb_lt).
  - destruct (scan_keeps _ _ _ Hact) as [-> ->]. by rewrite IH.
Qed.

(** X9.  The scan of a region's activity stream reads the activities up
    to the first one that is the stored watermark or started more than
    an hour ago.  Each group name is handed exactly the activities of
    that name read before that one, in the order of the stream (that one
    itself is handed to nobody), and the newest completed activity is
    the first activity with progress 100 among those read, that one
    included. *)
Theorem scan_hands_each_group_its_activities
    (last : option string) (now : Z) (pre rest : list activity) :
  Forall (fun a => ~ scan_stops_at last now a) pre ->
  (forall b, head rest = Some b -> scan_stops_at last now b) ->
  let st := scan last now scan_init (pre ++ rest) in
  (forall n, default [] (activities st !! n)
             = filter (fun a => act_AutoScalingGroupName a = n) pre) /\
  newest_completed_activity st
  = List.find (fun a => Progress a =? 100) (pre ++ take 1 rest).
Proof.
  intros Hpre Hrest st. subst st. split.
  - intros n. rewrite (scan_activities last now pre rest scan_init n);
      [| by left | done | done].
    simpl. by rewrite lookup_empty.
  - rewrite scan_newest by (by left). simpl.
    by rewrite consumed_app.
Qed.

Lemma scan_hands_each_group_its_activities_witness :
  let st := scan (Some "a-1") Sample.now scan_init
              ([Sample.in_progress; Sample.waiting; Sample.limit_failure] ++
               [Sample.successful; Sample.volume_failure]) in
  (forall n, default [] (activities st !! n)
             = filter (fun a => act_AutoScalingGroupName a = n)
                 [Sample.in_progress; Sample.waiting; Sample.limit_failure]) /\
  newest_completed_activity st
  = List.find (fun a => Progress a =? 100)
      ([Sample.in_progress; Sample.waiting; Sample.limit_failure] ++
       take 1 [Sample.successful; Sample.volume_failure]).
Proof.
  apply (scan_hands_each_group_its_activities (Some "a-1") Sample.now
           [Sample.in_progress; Sample.waiting; Sample.limit_failure]
           [Sample.successful; Sample.volume_failure]).
  - repeat constructor; intros [H | H]; vm_compute in H; discriminate H.
  - intros b [= <-]. left. vm_compute. reflexivity.
Defined.

(** ** refresh_timeouts: a region where nothing new happened *)

Lemma reconcile_all_quiet describe now dry_run acts self gs :
  Forall (fun g => default [] (acts !! name g) = []) gs ->
  reconcile_all describe now dry_run acts self gs
  = (with_timeouts self
       (fold_left (fun m g => <[_id g := None]> m) gs (_timeouts self)),
     gs, []).
Proof.
  intros Hq. revert self.
  induction Hq as [|g gs Hg _ IH]; intros self; cbn [reconcile_all].
  - by destruct self.
  - rewrite Hg. cbn [reconcile_limits reconcile_loop ts asg trace].
    rewrite IH. done.
Qed.

Lemma filter_other_names (pre : list activity) (g : AutoScalingGroup.t)
    (gs : list AutoScalingGroup.t) :
  Forall (fun e => act_AutoScalingGroupName e ∉ name <$> gs) pre ->
  g ∈ gs ->
  filter (fun a => act_AutoScalingGroupName a = name g) pre = [].
Proof.
  intros Hother Hg. induction Hother as [|e pre He _ IH]; [done |].
  rewrite filter_cons.
  destruct (decide (act_AutoScalingGroupName e = name g)) as [Heq | _];
    [| done].
  exfalso. apply He. rewrite Heq. by apply list_elem_of_fmap_2.
Qed.

Lemma quiet_region_state
    (describe : string -> string -> list string) (now : Z) (dry_run : bool)
    (self : AutoScalingTimeouts.t) (region : string)
    (regional_asgs : list AutoScalingGroup.t) (pre rest : list activity)
    (a : activity) :
  Forall (fun e => ~ scan_stops_at (_last_activities self !! region) now e)
    pre ->
  (forall b, head rest = Some b ->
             scan_stops_at (_last_activities self !! region) now b) ->
  List.find (fun e => Progress e =? 100) (pre ++ take 1 rest) = Some a ->
  Forall (fun e => act_AutoScalingGroupName e ∉ name <$> regional_asgs) pre ->
  refresh_region describe now dry_run self region regional_asgs (pre ++ rest)
  = (with_timeouts
       (with_last_activities self
          (<[region := ActivityId a]> (_last_activities self)))
       (fold_left (fun m g => <[_id g := None]> m) regional_asgs
          (_timeouts self)),
     regional_asgs, [], None).
Proof.
  intros Hpre Hrest Hfind Hother. unfold refresh_region.
  rewrite scan_newest by (by left). simpl.
  rewrite consumed_app by done. rewrite Hfind.
  rewrite reconcile_all_quiet; [done |].
  apply Forall_forall. intros g Hg.
  rewrite (scan_activities _ now pre rest scan_init (name g));
    [| by left | done | done].
  simpl. rewrite lookup_empty. simpl.
  by apply (filter_other_names pre g regional_asgs).
Qed.

Lemma cleared_lookup (gs : list AutoScalingGroup.t)
    (m : gmap (string * string) (option Z)) (id : string * string) :
  fold_left (fun m g => <[_id g := None]> m) gs m !! id
  = if decide (id ∈ _id <$> gs) then Some None else m !! id.
Proof.
  revert m. induction gs as [|g gs IH]; intros m; csimpl; [done |].
  rewrite IH. destruct (decide (id ∈ _id <$> gs)) as [Hin | Hnot].
  - rewrite decide_True; [done | apply elem_of_cons; by right].
  - destruct (decide (id = _id g)) as [-> | Hne].
    + rewrite lookup_insert_eq.
      rewrite decide_True; [done | apply elem_of_cons; by left].
    + rewrite lookup_insert_ne by done.
      rewrite decide_False; [done |].
      intros [? | ?]%elem_of_cons; done.
Qed.

(** X10.  When none of the activities the scan hands out belongs to a
    group of the region's list (so, in particular, when the first
    activity of the stream is the stored watermark: nothing happened
    since the last refresh), the refresh of the region stores the
    watermark, sets the ordinary timeout of every group of the list to
    [None], also one that an earlier refresh stored and that has not
    run out, and issues no call. *)
Theorem quiet_region_clears_timeouts
    (describe : string -> string -> list string) (now : Z) (dry_run : bool)
    (self : AutoScalingTimeouts.t) (region : string)
    (regional_asgs : list AutoScalingGroup.t) (pre rest : list activity)
    (a : activity) :
  Forall (fun e => ~ scan_stops_at (_last_activities self !! region) now e)
    pre ->
  (forall b, head rest = Some b ->
             scan_stops_at (_last_activities self !! region) now b) ->
  List.find (fun e => Progress e =? 100) (pre ++ take 1 rest) = Some a ->
  Forall (fun e => act_AutoScalingGroupName e ∉ name <$> regional_asgs) pre ->
  exists self',
    refresh_region describe now dry_run self region regional_asgs
      (pre ++ rest) = (self', regional_asgs, [], None) /\
    _last_activities self' !! region = Some (ActivityId a) /\
    (forall r, r <> region ->
               _last_activities self' !! r = _last_activities self !! r) /\
    (forall g, g ∈ regional_asgs -> _timeouts self' !! _id g = Some None) /\
    (forall id, id ∉ _id <$> regional_asgs ->
                _timeouts self' !! id = _timeouts self !! id) /\
    _spot_timeouts self' = _spot_timeouts self /\
    _spot_price_history self' = _spot_price_history self /\
    self' = with_timeouts
              (with_last_activities self
                 (<[region := ActivityId a]> (_last_activities self)))
              (fold_left (fun m g => <[_id g := None]> m) regional_asgs
                 (_timeouts self)).
Proof.
  intros Hpre Hrest Hfind Hother.
  eexists. split.
  { apply (quiet_region_state describe now dry_run self region regional_asgs
             pre rest a Hpre Hrest Hfind Hother). }
  cbn [_last_activities _timeouts _spot_timeouts _spot_price_history
       with_timeouts with_last_activities].
  split; [apply lookup_insert_eq |].
  split; [intros r Hne; by apply lookup_insert_ne |].
  split.
  { intros g Hg. rewrite cleared_lookup.
    rewrite decide_True; [done | by apply list_elem_of_fmap_2]. }
  split; [intros id Hid; rewrite cleared_lookup; by rewrite decide_False |].
  done.
Qed.

Lemma quiet_region_clears_timeouts_witness :
  let self :=
    {| _timeouts := <[("us-east-1", "workers") := Some (seconds 11600)]> ∅;
       _last_activities := <["us-east-1" := "a-1"]> ∅;
       _spot_timeouts := ∅; _spot_price_history := ∅ |} in
  _timeouts self !! ("us-east-1", "workers") = Some (Some (seconds 11600)) /\
  Sample.now < seconds 11600 /\
  exists self',
    refresh_region Sample.no_requests Sample.now false self "us-east-1"
      [Sample.group] ([] ++ [Sample.successful; Sample.limit_failure])
    = (self', [Sample.group], [], None) /\
    _last_activities self' !! "us-east-1" = Some "a-1" /\
    _timeouts self' !! ("us-east-1", "workers") = Some None.
Proof.
  split; [reflexivity |]. split; [reflexivity |].
  destruct (quiet_region_clears_timeouts Sample.no_requests Sample.now false
              {| _timeouts :=
                   <[("us-east-1", "workers") := Some (seconds 11600)]> ∅;
                 _last_activities := <["us-east-1" := "a-1"]> ∅;
                 _spot_timeouts := ∅; _spot_price_history := ∅ |}
              "us-east-1" [Sample.group] []
              [Sample.successful; Sample.limit_failure] Sample.successful)
    as (self' & Hrun & Hmark & _ & Hclear & _).
  - constructor.
  - intros b [= <-]. left. vm_compute. reflexivity.
  - vm_compute. reflexivity.
  - constructor.
  - exists self'. split; [exact Hrun |]. split; [exact Hmark |].
    apply (Hclear Sample.group). apply elem_of_cons. by left.
Defined.

(** ** refresh_timeouts: what a refresh leaves alone *)

Lemma reconcile_all_frame describe now dry_run acts self gs :
  let '(self', gs', evs) := reconcile_all describe now dry_run acts self gs in
  (forall id, id ∉ _id <$> gs ->
              _timeouts self' !! id = _timeouts self !! id) /\
  Forall2 (fun g g' => g' = with_desired_capacity g (desired_capacity g'))
    gs gs' /\
  Forall (fun ev => exists g, g ∈ gs /\ about g ev) evs.
Proof.
  revert self. induction gs as [|g gs IH]; intros self; cbn [reconcile_all].
  - repeat split; constructor.
  - destruct (reconcile_limits_frame_group describe now dry_run
                {| ts := self; asg := g; trace := [] |}
                (default [] (acts !! name g))) as (Ht & Hg & evs1 & Htr & Hab).
    specialize (IH (ts (reconcile_limits describe now dry_run
                          {| ts := self; asg := g; trace := [] |}
                          (default [] (acts !! name g))))).
    destruct (reconcile_all describe now dry_run acts _ gs)
      as [[self' gs'] evs].
    destruct IH as (Ht' & Hgs & Hevs). simpl in *.
    split; [| split].
    + intros id Hid. apply not_elem_of_cons in Hid as [Hne Hid].
      rewrite Ht' by done. by apply Ht.
    + by constructor.
    + rewrite Htr. apply Forall_app. split.
      * eapply Forall_impl; [exact Hab |]. intros ev Hev.
        exists g. split; [apply elem_of_cons; by left | done].
      * eapply Forall_impl; [exact Hevs |]. intros ev (g' & Hg' & Hev).
        exists g'. split; [apply elem_of_cons; by right | done].
Qed.

Lemma refresh_region_frame_aux
    (describe : string -> string -> list string) (now : Z) (dry_run : bool)
    (self : AutoScalingTimeouts.t) (region : string)
    (regional_asgs : list AutoScalingGroup.t) (stream : list activity) :
  let '(self', gs, evs, e) :=
    refresh_region describe now dry_run self region regional_asgs stream in
  (forall id, id ∉ _id <$> regional_asgs ->
              _timeouts self' !! id = _timeouts self !! id) /\
  (forall r, r <> region ->
             _last_activities self' !! r = _last_activities self !! r) /\
  _spot_timeouts self' = _spot_timeouts self /\
  _spot_price_history self' = _spot_price_history self /\
  Forall2 (fun g g' => g' = with_desired_capacity g (desired_capacity g'))
    regional_asgs gs /\
  Forall (fun ev => exists g, g ∈ regional_asgs /\ about g ev) evs.
Proof.
  unfold refresh_region.
  destruct (newest_completed_activity _) as [a|].
  - pose proof (reconcile_all_frame describe now dry_run
      (activities (scan (_last_activities self !! region) now scan_init stream))
      (with_last_activities self
         (<[region := ActivityId a]> (_last_activities self)))
      regional_asgs) as Hfr.
    pose proof (reconcile_all_other_fields describe now dry_run
      (activities (scan (_last_activities self !! region) now scan_init stream))
      (with_last_activities self
         (<[region := ActivityId a]> (_last_activities self)))
      regional_asgs) as (Hl & Hs & Hh).
    destruct (reconcile_all _ _ _ _ _ regional_asgs) as [[self' gs] evs].
    destruct Hfr as (Ht & Hgs & Hevs). simpl in *.
    repeat split; try done.
    intros r Hne. rewrite Hl. by apply lookup_insert_ne.
  - repeat split; try done.
    induction regional_asgs as [|g gs IH]; constructor; [| done].
    by destruct g.
Qed.

(** X11.  The refresh of one region, whatever the provider answers:
    ordinary timeouts of other ids than those of the region's groups,
    watermarks of other regions, spot timeouts and price history are
    unchanged; the group objects come back in the same order with
    nothing but their desired capacity changed; every event issued is a
    capacity change of a group of the list, a spot cancellation in such
    a group's region, or a log line. *)
Theorem refresh_region_frame
    (describe : string -> string -> list string) (now : Z) (dry_run : bool)
    (self : AutoScalingTimeouts.t) (region : string)
    (regional_asgs : list AutoScalingGroup.t) (stream : list activity) :
  let '(self', gs, evs, e) :=
    refresh_region describe now dry_run self region regional_asgs stream in
  (forall id, id ∉ _id <$> regional_asgs ->
              _timeouts self' !! id = _timeouts self !! id) /\
  (forall r, r <> region ->
             _last_activities self' !! r = _last_activities self !! r) /\
  _spot_timeouts self' = _spot_timeouts self /\
  _spot_price_history self' = _spot_price_history self /\
  Forall2 (fun g g' => g' = with_desired_capacity g (desired_capacity g'))
    regional_asgs gs /\
  Forall (fun ev => exists g, g ∈ regional_asgs /\ about g ev) evs.
Proof.
  apply (refresh_region_frame_aux describe now dry_run self region
           regional_asgs stream).
Qed.

(** ** refresh_timeouts: a dry run *)

Lemma reconcile_limits_dry describe now s acts :
  let s' := reconcile_limits describe now true s acts in
  asg s' = asg s /\ mutations (trace s') = mutations (trace s).
Proof.
  pose proof (reconcile_loop_dry describe now acts s) as H.
  unfold reconcile_limits.
  destruct (reconcile_loop describe now true s acts) as [s1 [|]];
    simpl; tauto.
Qed.

Lemma reconcile_all_dry describe now acts self gs :
  let '(_, gs', evs) := reconcile_all describe now true acts self gs in
  gs' = gs /\ mutations evs = [].
Proof.
  revert self. induction gs as [|g gs IH]; intros self; cbn [reconcile_all];
    [done |].
  destruct (reconcile_limits_dry describe now
              {| ts := self; asg := g; trace := [] |}
              (default [] (acts !! name g))) as (Hg & Hm).
  specialize (IH (ts (reconcile_limits describe now true
                        {| ts := self; asg := g; trace := [] |}
                        (default [] (acts !! name g))))).
  destruct (reconcile_all describe now true acts _ gs) as [[self' gs'] evs].
  destruct IH as (-> & Hevs). simpl in *.
  split; [by rewrite Hg |].
  by rewrite mutations_app, Hm, Hevs.
Qed.

Lemma refresh_region_dry describe now self region regional_asgs stream :
  let '(_, gs, evs, _) :=
    refresh_region describe now true self region regional_asgs stream in
  gs = regional_asgs /\ mutations evs = [].
Proof.
  unfold refresh_region.
  destruct (newest_completed_activity _) as [a|]; [| done].
  pose proof (reconcile_all_dry describe now
    (activities (scan (_last_activities self !! region) now scan_init stream))
    (with_last_activities self
       (<[region := ActivityId a]> (_last_activities self)))
    regional_asgs) as H.
  by destruct (reconcile_all _ _ _ _ _ regional_asgs) as [[self' gs] evs].
Qed.

Lemma refresh_regions_dry describe activities_of now self regions :
  let '(_, regions', evs, _) :=
    refresh_regions describe activities_of now true self regions in
  regions' = regions /\ mutations evs = [].
Proof.
  revert self. induction regions as [|[region regional_asgs] rest IH];
    intros self; cbn [refresh_regions]; [done |].
  pose proof (refresh_region_dry describe now self region regional_asgs
                (activities_of region)) as H.
  destruct (refresh_region describe now true self region regional_asgs
              (activities_of region)) as [[[self' gs] evs] [e|]].
  - destruct H as (-> & Hm). done.
  - specialize (IH self').
    destruct (refresh_regions describe activities_of now true self' rest)
      as [[[self'' rest'] evs'] e'].
    destruct H as (-> & Hm), IH as (-> & Hm').
    split; [done |]. by rewrite mutations_app, Hm, Hm'.
Qed.

(** X12.  A dry run of [refresh_timeouts] issues no provider mutation at
    all, in any region: no set_desired_capacity, no spot cancellation,
    and every group object comes back as it went in, whatever the
    activity streams and the price history hold and also when the
    refresh ends with an exception. *)
Theorem refresh_timeouts_dry_run
    (fetch : string -> Z -> list string -> list price_item)
    (describe : string -> string -> list string)
    (activities_of : string -> list activity) (now : Z)
    (self : AutoScalingTimeouts.t) (asgs : list AutoScalingGroup.t) :
  let '(_, regions, evs, _) :=
    refresh_timeouts fetch describe activities_of now true self asgs in
  regions = asgs_by_region asgs /\ mutations evs = [].
Proof.
  unfold refresh_timeouts.
  apply (refresh_regions_dry describe activities_of now
           (time_out_spot_asgs fetch now self asgs) (asgs_by_region asgs)).
Qed.

(** ** refresh_timeouts: the groups of a region *)

Lemma asgs_by_region_snoc (asgs : list AutoScalingGroup.t)
    (g : AutoScalingGroup.t) :
  asgs_by_region (asgs ++ [g])
  = Dict.set (region g)
      (default [] (Dict.get (region g) (asgs_by_region asgs)) ++ [g])%list
      (asgs_by_region asgs).
Proof. unfold asgs_by_region. by rewrite fold_left_app. Qed.

Lemma asgs_by_region_spec (asgs : list AutoScalingGroup.t) :
  NoDup (Dict.keys (asgs_by_region asgs)) /\
  forall r : string,
    Dict.get r (asgs_by_region asgs)
    = match filter (fun g => region g = r) asgs with
      | [] => None
      | l => Some l
      end.
Proof.
  induction asgs as [|g asgs [IHk IHg]] using rev_ind.
  - split; [constructor | done].
  - rewrite asgs_by_region_snoc. split.
    + rewrite dict_keys_set. case_bool_decide as Hin; [done |].
      apply NoDup_app. split; [done |]. split.
      * intros k Hk [-> | []%elem_of_nil]%elem_of_cons. done.
      * apply NoDup_singleton.
    + intros r. rewrite filter_app, filter_cons, filter_nil.
      destruct (decide (region g = r)) as [<- | Hne].
      * rewrite dict_get_set_eq, IHg.
        by destruct (filter (fun g0 => region g0 = region g) asgs).
      * rewrite dict_get_set_ne by done. rewrite IHg, app_nil_r. done.
Qed.


(** X13.  [asgs_by_region] partitions the groups by region: a region
    has an entry exactly when some group is of that region, its entry
    holds all groups of the region in the order of the input, and no
    region has two entries; so [refresh_timeouts] reconciles every group
    once, with the activities of its own region. *)
Theorem asgs_by_region_partition (asgs : list AutoScalingGroup.t) :
  NoDup (Dict.keys (asgs_by_region asgs)) /\
  forall r : string,
    Dict.get r (asgs_by_region asgs)
    = match filter (fun g => region g = r) asgs with
      | [] => None
      | l => Some l
      end.
Proof. apply asgs_by_region_spec. Qed.

(** ** time_out_spot_asgs: the groups of a region and instance type *)

Lemma dict_get_elem {V : Type} (k : string) (v : V) (d : list (string * V)) :
  Dict.get k d = Some v -> (k, v) ∈ d.
Proof.
  induction d as [|[k' v'] d IH]; simpl; [done |].
  destruct (String.eqb_spec k' k) as [-> | Hne].
  - intros [= ->]. apply elem_of_cons. by left.
  - intros H. apply elem_of_cons. right. by apply IH.
Qed.

Lemma dict_elem_get {V : Type} (k : string) (v : V) (d : list (string * V)) :
  NoDup (Dict.keys d) -> (k, v) ∈ d -> Dict.get k d = Some v.
Proof.
  unfold Dict.keys. induction d as [|[k' v'] d IH]; csimpl; intros Hnd Hin.
  - by apply elem_of_nil in Hin.
  - apply NoDup_cons in Hnd as [Hk' Hnd].
    apply elem_of_cons in Hin as [[= <- <-] | Hin].
    + by rewrite String.eqb_refl.
    + destruct (String.eqb_spec k' k) as [-> | Hne]; [| by apply IH].
      exfalso. apply Hk'. apply list_elem_of_fmap. by exists (k, v).
Qed.

Lemma dict_get_keys {V : Type} (k : string) (d : list (string * V)) :
  k ∈ Dict.keys d <-> is_Some (Dict.get k d).
Proof.
  unfold Dict.keys. induction d as [|[k' v'] d IH]; csimpl.
  - split; [by intros ?%elem_of_nil | by intros [? ?]].
  - destruct (String.eqb_spec k' k) as [-> | Hne].
    + split; [eauto | intros _; apply elem_of_cons; by left].
    + rewrite elem_of_cons, IH. split; [intros [? | ?]; done | auto].
Qed.

Lemma region_instance_asg_map_snoc (asgs : list AutoScalingGroup.t)
    (g : AutoScalingGroup.t) :
  region_instance_asg_map (asgs ++ [g])
  = if negb (is_spot g) then region_instance_asg_map asgs
    else
      let instance_asg_map :=
        default [] (Dict.get (region g) (region_instance_asg_map asgs)) in
      let l := default [] (Dict.get (instance_type g) instance_asg_map) in
      Dict.set (region g)
        (Dict.set (instance_type g) (l ++ [g])%list instance_asg_map)
        (region_instance_asg_map asgs).
Proof. unfold region_instance_asg_map. by rewrite fold_left_app. Qed.

Lemma region_instance_asg_map_keys (asgs : list AutoScalingGroup.t) :
  NoDup (Dict.keys (region_instance_asg_map asgs)) /\
  forall r im, Dict.get r (region_instance_asg_map asgs) = Some im ->
               NoDup (Dict.keys im).
Proof.
  induction asgs as [|g asgs [IHk IHi]] using rev_ind.
  - split; [constructor | done].
  - rewrite region_instance_asg_map_snoc.
    destruct (is_spot g); simpl; [| done].
    assert (NoDup (Dict.keys
              (default [] (Dict.get (region g) (region_instance_asg_map asgs)))))
      as Him.
    { destruct (Dict.get (region g) (region_instance_asg_map asgs)) as [im|] eqn:E;
        simpl; [by eapply IHi | constructor]. }
    assert (forall {V} k (v : V) d, NoDup (Dict.keys d) ->
                                    NoDup (Dict.keys (Dict.set k v d))) as Hset.
    { intros V k v d Hd. rewrite dict_keys_set. case_bool_decide as Hin; [done |].
      apply NoDup_app. split; [done |]. split; [| apply NoDup_singleton].
      intros k' Hk' [-> | []%elem_of_nil]%elem_of_cons. done. }
    split; [by apply Hset |].
    intros r im. destruct (decide (region g = r)) as [<- | Hne].
    + rewrite dict_get_set_eq. intros [= <-]. by apply Hset.
    + rewrite dict_get_set_ne by done. apply IHi.
Qed.

Lemma region_instance_asg_map_get (asgs : list AutoScalingGroup.t)
    (r ty : string) :
  Dict.get r (region_instance_asg_map asgs) ≫= Dict.get ty
  = match filter (fun g => is_spot g = true /\ region g = r /\
                           instance_type g = ty) asgs with
    | [] => None
    | l => Some l
    end.
Proof.
  induction asgs as [|g asgs IH] using rev_ind; [done |].
  rewrite region_instance_asg_map_snoc, filter_app, filter_cons, filter_nil.
  destruct (is_spot g) eqn:Hspot; simpl.
  - destruct (decide (region g = r)) as [<- | Hne].
    + rewrite dict_get_set_eq. simpl.
      destruct (decide (instance_type g = ty)) as [<- | Hty].
      * rewrite dict_get_set_eq.
        rewrite decide_True by done.
        destruct (Dict.get (region g) (region_instance_asg_map asgs))
          as [im|]; simpl in *.
        -- rewrite IH. by destruct (filter _ asgs).
        -- by destruct (filter _ asgs).
      * rewrite dict_get_set_ne by done.
        rewrite decide_False by tauto. rewrite app_nil_r.
        destruct (Dict.get (region g) (region_instance_asg_map asgs))
          as [im|]; simpl in *; [done |].
        by destruct (filter _ asgs).
    + rewrite dict_get_set_ne by done.
      rewrite decide_False by tauto. by rewrite app_nil_r.
  - by rewrite app_nil_r.
Qed.

(** X14.  The dictionary [time_out_spot_asgs] builds before it asks for
    prices: under a region and an instance type it holds exactly the
    spot groups of that region and type, in the order of the input, and
    nothing when there is none; groups without a spot price are in no
    entry; and the instance types asked of the provider for a region are
    those of the region's spot groups, each once. *)
Theorem region_instance_asg_map_partition (asgs : list AutoScalingGroup.t)
    (r : string) :
  (forall ty,
     Dict.get r (region_instance_asg_map asgs) ≫= Dict.get ty
     = match filter (fun g => is_spot g = true /\ region g = r /\
                              instance_type g = ty) asgs with
       | [] => None
       | l => Some l
       end) /\
  NoDup (spot_types asgs r) /\
  (forall ty, ty ∈ spot_types asgs r <->
              exists g, g ∈ asgs /\ is_spot g = true /\ region g = r /\
                        instance_type g = ty).
Proof.
  split; [intros ty; apply region_instance_asg_map_get |].
  destruct (region_instance_asg_map_keys asgs) as [_ Hi].
  unfold spot_types. split.
  - destruct (Dict.get r (region_instance_asg_map asgs)) as [im|] eqn:E;
      simpl; [by eapply Hi | constructor].
  - intros ty. rewrite dict_get_keys.
    pose proof (region_instance_asg_map_get asgs r ty) as Hget.
    destruct (Dict.get r (region_instance_asg_map asgs)) as [im|] eqn:E;
      simpl in *.
    + rewrite Hget. split.
      * intros [l Hl].
        destruct (filter _ asgs) as [|g l'] eqn:Ef; [done |].
        assert (g ∈ filter (fun g => is_spot g = true /\ region g = r /\
                                     instance_type g = ty) asgs) as Hg
          by (rewrite Ef; apply elem_of_cons; by left).
        apply list_elem_of_filter in Hg as [? ?]. exists g. tauto.
      * intros (g & Hg & Hp).
        assert (g ∈ filter (fun g => is_spot g = true /\ region g = r /\
                                     instance_type g = ty) asgs) as Hin
          by (by apply list_elem_of_filter).
        destruct (filter _ asgs); [by apply elem_of_nil in Hin | eauto].
    + split; [by intros [? ?] |].
      intros (g & Hg & Hp).
      assert (g ∈ filter (fun g => is_spot g = true /\ region g = r /\
                                   instance_type g = ty) asgs) as Hin
        by (by apply list_elem_of_filter).
      destruct (filter _ asgs); [by apply elem_of_nil in Hin | done].
Qed.

(** ** time_out_spot_asgs: what it writes *)

Lemma apply_writes_app W W' m :
  apply_writes (W ++ W') m = apply_writes W' (apply_writes W m).
Proof. apply fold_left_app. Qed.

Lemma apply_writes_other W m id :
  id ∉ W.*1 -> apply_writes W m !! id = m !! id.
Proof.
  revert m. induction W as [|[id' v'] W IH]; intros m Hid; csimpl in *;
    [done |].
  apply not_elem_of_cons in Hid as [Hne Hid].
  rewrite IH by done. by apply lookup_insert_ne.
Qed.

Lemma apply_writes_same W m id v :
  (forall v', (id, v') ∈ W -> v' = v) ->
  m !! id = Some v \/ id ∈ W.*1 ->
  apply_writes W m !! id = Some v.
Proof.
  revert m. induction W as [|[id' v'] W IH]; intros m Hv Hin; csimpl in *.
  - destruct Hin as [? | ?%elem_of_nil]; done.
  - apply IH.
    + intros v'' H. apply Hv, elem_of_cons. by right.
    + destruct (decide (id' = id)) as [-> | Hne].
      * left. rewrite lookup_insert_eq. f_equal.
        apply Hv, elem_of_cons. by left.
      * destruct Hin as [Hm | [? | Hin]%elem_of_cons]; [| done | by right].
        left. by rewrite lookup_insert_ne.
Qed.

Lemma evaluate_spot_asg_eq now history ty self g :
  evaluate_spot_asg now history ty self g
  = with_spot_timeouts self
      (<[_id g := spot_verdict now history ty g]> (_spot_timeouts self)).
Proof.
  unfold evaluate_spot_asg, spot_verdict.
  by destruct (PrimFloat.ltb _ _).
Qed.

Lemma evaluate_fold now history ty l self :
  fold_left (evaluate_spot_asg now history ty) l self
  = with_spot_timeouts self
      (apply_writes (map (fun g => (_id g, spot_verdict now history ty g)) l)
         (_spot_timeouts self)).
Proof.
  revert self. induction l as [|g l IH]; intros self; simpl.
  - by destruct self.
  - rewrite IH, evaluate_spot_asg_eq. done.
Qed.

Lemma types_fold now history im self :
  fold_left
    (fun self '(instance_type, asgs) =>
       fold_left (evaluate_spot_asg now history instance_type) asgs self)
    im self
  = with_spot_timeouts self
      (apply_writes (spot_writes now history im) (_spot_timeouts self)).
Proof.
  revert self. induction im as [|[ty l] im IH]; intros self; simpl.
  - by destruct self.
  - rewrite IH, evaluate_fold. unfold spot_writes. simpl.
    by rewrite apply_writes_app.
Qed.

Lemma spot_region_eq fetch now self r im :
  spot_region fetch now self (r, im)
  = with_spot_timeouts
      (with_spot_price_history self
         (<[r := spot_history fetch now self r (Dict.keys im)]>
            (_spot_price_history self)))
      (apply_writes
         (spot_writes now (spot_history fetch now self r (Dict.keys im)) im)
         (_spot_timeouts self)).
Proof. unfold spot_region. by rewrite types_fold. Qed.

Lemma elem_of_spot_writes now history im id v :
  (id, v) ∈ spot_writes now history im <->
  exists ty l g, (ty, l) ∈ im /\ g ∈ l /\ id = _id g /\
                 v = spot_verdict now history ty g.
Proof.
  unfold spot_writes. rewrite elem_of_concat. split.
  - intros (W & HW & Hin).
    apply list_elem_of_fmap in HW as ([ty l] & -> & Hentry).
    apply list_elem_of_fmap in Hin as (g & [= -> ->] & Hg).
    exists ty, l, g. done.
  - intros (ty & l & g & Hentry & Hg & -> & ->).
    exists (map (fun g => (_id g, spot_verdict now history ty g)) l). split.
    + apply list_elem_of_fmap. by exists (ty, l).
    + apply list_elem_of_fmap. by exists g.
Qed.

Lemma spot_writes_ids now history im id :
  id ∈ (spot_writes now history im).*1 <->
  exists ty l g, (ty, l) ∈ im /\ g ∈ l /\ id = _id g.
Proof.
  rewrite list_elem_of_fmap. split.
  - intros ([id' v] & -> & Hin).
    apply elem_of_spot_writes in Hin as (ty & l & g & ? & ? & ? & ?).
    by exists ty, l, g.
  - intros (ty & l & g & ? & ? & ->).
    exists (_id g, spot_verdict now history ty g). split; [done |].
    apply elem_of_spot_writes. by exists ty, l, g.
Qed.

(** The loop over the regions, for dictionaries with one entry per
    region: what it leaves alone, the history it stores, and the spot
    timeout of an id whose writers agree. *)
Lemma spot_regions_fold fetch now M self :
  NoDup (Dict.keys M) ->
  let self' := fold_left (spot_region fetch now) M self in
  _timeouts self' = _timeouts self /\
  _last_activities self' = _last_activities self /\
  (forall r, r ∉ Dict.keys M ->
             _spot_price_history self' !! r = _spot_price_history self !! r) /\
  (forall r im, (r, im) ∈ M ->
                _spot_price_history self' !! r
                = Some (spot_history fetch now self r (Dict.keys im))) /\
  (forall id,
     (forall r im ty l g, (r, im) ∈ M -> (ty, l) ∈ im -> g ∈ l ->
                          _id g <> id) ->
     _spot_timeouts self' !! id = _spot_timeouts self !! id) /\
  (forall id v,
     (forall r im ty l g,
        (r, im) ∈ M -> (ty, l) ∈ im -> g ∈ l -> _id g = id ->
        spot_verdict now (spot_history fetch now self r (Dict.keys im)) ty g
        = v) ->
     (_spot_timeouts self !! id = Some v \/
      exists r im ty l g, (r, im) ∈ M /\ (ty, l) ∈ im /\ g ∈ l /\
                          _id g = id) ->
     _spot_timeouts self' !! id = Some v).
Proof.
  revert self.
  induction M as [|[r im] M IH]; intros self Hnd self'; subst self'.
  { simpl. repeat split; try done.
    - intros r im Hin. by apply elem_of_nil in Hin.
    - intros id v _ [? | (r & im & ty & l & g & Hin & _)]; [done |].
      by apply elem_of_nil in Hin. }
  change (Dict.keys ((r, im) :: M)) with (r :: Dict.keys M) in *.
  apply NoDup_cons in Hnd as [Hr Hnd].
  specialize (IH (spot_region fetch now self (r, im)) Hnd).
  destruct IH as (Ht & Hl & Hh & HH & Ho & Hs).
  cbn [fold_left]. rewrite spot_region_eq in *.
  cbn [_timeouts _last_activities _spot_timeouts _spot_price_history
       with_spot_timeouts with_spot_price_history] in Ht, Hl, Hh, Ho, Hs.
  assert (forall r' types, r' <> r ->
            spot_history fetch now
              (with_spot_timeouts
                 (with_spot_price_history self
                    (<[r := spot_history fetch now self r (Dict.keys im)]>
                       (_spot_price_history self)))
                 (apply_writes
                    (spot_writes now
                       (spot_history fetch now self r (Dict.keys im)) im)
                    (_spot_timeouts self))) r' types
            = spot_history fetch now self r' types) as Hsame.
  { intros r' types Hne. unfold spot_history. simpl.
    by rewrite lookup_insert_ne. }
  assert (forall r' im', (r', im') ∈ M -> r' <> r) as Hother.
  { intros r' im' Hin ->. apply Hr. unfold Dict.keys.
    apply list_elem_of_fmap. by exists (r, im'). }
  split; [done |]. split; [done |]. split; [| split; [| split]].
  - intros r' Hr'. apply not_elem_of_cons in Hr' as [Hne Hr'].
    rewrite Hh by done. by apply lookup_insert_ne.
  - intros r' im' [[= -> ->] | Hin]%elem_of_cons.
    + rewrite Hh by done. apply lookup_insert_eq.
    + rewrite (HH r' im' Hin). f_equal. apply Hsame. by eapply Hother.
  - intros id Hid. rewrite Ho.
    + apply apply_writes_other. rewrite spot_writes_ids.
      intros (ty & l & g & Hentry & Hg & ->).
      eapply Hid; [apply elem_of_cons; by left | done | done | done].
    + intros r' im' ty l g Hin. apply (Hid r' im' ty l g).
      apply elem_of_cons. by right.
  - intros id v Hv Hin. apply Hs.
    + intros r' im' ty l g Hin' Hentry Hg Hid.
      rewrite Hsame by (by eapply Hother).
      eapply Hv; [apply elem_of_cons; by right | done | done | done].
    + destruct Hin as [Hm | (r' & im' & ty & l & g & Hin & Hentry & Hg & Hid)].
      * left. apply apply_writes_same; [| by left].
        intros v' Hw.
        apply elem_of_spot_writes in Hw as (ty & l & g & ? & ? & ? & ->).
        eapply Hv; [apply elem_of_cons; by left | done | done | done].
      * apply elem_of_cons in Hin as [[= -> ->] | Hin].
        -- left. apply apply_writes_same.
           ++ intros v' Hw.
              apply elem_of_spot_writes in Hw
                as (ty' & l' & g' & ? & ? & ? & ->).
              eapply Hv; [apply elem_of_cons; by left | done | done | done].
           ++ right. apply spot_writes_ids. by exists ty, l, g.
        -- right. by exists r', im', ty, l, g.
Qed.

Lemma spot_map_entry (asgs : list AutoScalingGroup.t) r im ty l g :
  (r, im) ∈ region_instance_asg_map asgs -> (ty, l) ∈ im -> g ∈ l ->
  g ∈ asgs /\ is_spot g = true /\ region g = r /\ instance_type g = ty /\
  Dict.keys im = spot_types asgs r.
Proof.
  intros Hin Hentry Hg.
  destruct (region_instance_asg_map_keys asgs) as [Hk Hi].
  apply dict_elem_get in Hin; [| done].
  pose proof (Hi r im Hin) as Him.
  apply dict_elem_get in Hentry; [| done].
  pose proof (region_instance_asg_map_get asgs r ty) as Hget.
  rewrite Hin in Hget. simpl in Hget. rewrite Hentry in Hget.
  destruct (filter _ asgs) as [|g0 l0] eqn:Ef; [done |].
  injection Hget as ->. rewrite <- Ef in Hg.
  apply list_elem_of_filter in Hg as [(? & ? & ?) ?].
  unfold spot_types. rewrite Hin. done.
Qed.

Lemma spot_map_has (asgs : list AutoScalingGroup.t) g :
  g ∈ asgs -> is_spot g = true ->
  exists im l, (region g, im) ∈ region_instance_asg_map asgs /\
               (instance_type g, l) ∈ im /\ g ∈ l.
Proof.
  intros Hg Hspot.
  pose proof (region_instance_asg_map_get asgs (region g) (instance_type g))
    as Hget.
  assert (g ∈ filter (fun g0 => is_spot g0 = true /\ region g0 = region g /\
                                instance_type g0 = instance_type g) asgs)
    as Hin by (by apply list_elem_of_filter).
  destruct (filter _ asgs) as [|g0 l0] eqn:Ef;
    [by apply elem_of_nil in Hin |].
  destruct (Dict.get (region g) (region_instance_asg_map asgs)) as [im|] eqn:E;
    [| done].
  simpl in Hget. exists im, (g0 :: l0).
  split; [by apply dict_get_elem |]. split; [by apply dict_get_elem | done].
Qed.

Lemma spot_map_no_region (asgs : list AutoScalingGroup.t) (r : string) :
  (forall g, g ∈ asgs -> is_spot g = true -> region g <> r) ->
  r ∉ Dict.keys (region_instance_asg_map asgs).
Proof.
  induction asgs as [|g asgs IH] using rev_ind; intros Hnone.
  - apply not_elem_of_nil.
  - assert (r ∉ Dict.keys (region_instance_asg_map asgs)) as Hr.
    { apply IH. intros g' Hg'. apply Hnone, elem_of_app. by left. }
    rewrite region_instance_asg_map_snoc.
    destruct (is_spot g) eqn:Hspot; simpl; [| done].
    rewrite dict_keys_set. case_bool_decide; [done |].
    apply not_elem_of_app. split; [done |].
    apply not_elem_of_cons. split; [| apply not_elem_of_nil].
    intros Heq. apply (Hnone g); [| done | done].
    apply elem_of_app. right. apply elem_of_cons. by left.
Qed.

Lemma spot_map_nil (asgs : list AutoScalingGroup.t) :
  (forall g, g ∈ asgs -> is_spot g = false) ->
  region_instance_asg_map asgs = [].
Proof.
  induction asgs as [|g asgs IH] using rev_ind; intros Hnone; [done |].
  rewrite region_instance_asg_map_snoc.
  rewrite (Hnone g) by (apply elem_of_app; right; apply elem_of_cons; by left).
  simpl. apply IH. intros g' Hg'. apply Hnone, elem_of_app. by left.
Qed.

(** X15.  [time_out_spot_asgs] writes nothing but spot timeouts and price
    history, and only those of the spot groups it is given: the
    ordinary timeouts and the watermarks are unchanged, the spot
    timeout of an id that is not the id of a spot group of the list is
    unchanged, and so is the price history of a region without a spot
    group in the list.  With no spot group in the list the reconciler is
    left as it is. *)
Theorem time_out_spot_asgs_frame
    (fetch : string -> Z -> list string -> list price_item) (now : Z)
    (self : AutoScalingTimeouts.t) (asgs : list AutoScalingGroup.t) :
  let self' := time_out_spot_asgs fetch now self asgs in
  _timeouts self' = _timeouts self /\
  _last_activities self' = _last_activities self /\
  (forall id,
     (forall g, g ∈ asgs -> is_spot g = true -> _id g <> id) ->
     _spot_timeouts self' !! id = _spot_timeouts self !! id) /\
  (forall r,
     (forall g, g ∈ asgs -> is_spot g = true -> region g <> r) ->
     _spot_price_history self' !! r = _spot_price_history self !! r) /\
  ((forall g, g ∈ asgs -> is_spot g = false) -> self' = self).
Proof.
  intros self'. subst self'. unfold time_out_spot_asgs.
  destruct (region_instance_asg_map_keys asgs) as [Hk _].
  destruct (spot_regions_fold fetch now _ self Hk)
    as (Ht & Hl & Hh & _ & Ho & _).
  split; [done |]. split; [done |]. split; [| split].
  - intros id Hid. apply Ho. intros r im ty l g Hin Hentry Hg.
    destruct (spot_map_entry asgs r im ty l g Hin Hentry Hg)
      as (? & ? & _). by apply Hid.
  - intros r Hr. apply Hh. by apply spot_map_no_region.
  - intros Hnone. by rewrite spot_map_nil.
Qed.

(** X16.  What [time_out_spot_asgs] leaves for a spot group of the list
    whose id no other spot group of the list has.  The price history of
    its region becomes the stored entries of the last five hours
    followed by what the provider returns when asked from the newest of
    them on (from five hours ago when none is left) for the instance
    types of the region's spot groups; and the group's spot timeout is
    decided on that history: now + 1 hour when the average outbid time
    of the group's instance type at its bid is above 1200 seconds,
    [None] otherwise. *)
Theorem time_out_spot_asgs_spot_group
    (fetch : string -> Z -> list string -> list price_item) (now : Z)
    (self : AutoScalingTimeouts.t) (asgs : list AutoScalingGroup.t)
    (g : AutoScalingGroup.t) :
  g ∈ asgs -> is_spot g = true ->
  (forall g', g' ∈ asgs -> is_spot g' = true -> _id g' = _id g -> g' = g) ->
  let since := now - seconds _SPOT_HISTORY_PERIOD in
  let kept :=
    filter (fun item => Timestamp item > since)
      (default [] (_spot_price_history self !! region g)) in
  let history :=
    (kept ++ fetch (region g) (newest_spot_price since kept)
               (spot_types asgs (region g)))%list in
  let self' := time_out_spot_asgs fetch now self asgs in
  _spot_price_history self' !! region g = Some history /\
  _spot_timeouts self' !! _id g
  = Some (if PrimFloat.ltb 1200
               (avg_outbid_time
                  (outbid_times (instance_type g) (bid_price g) history))
          then Some (now + seconds 3600)
          else None).
Proof.
  intros Hg Hspot Huniq since kept history self'.
  subst self'. unfold time_out_spot_asgs.
  destruct (region_instance_asg_map_keys asgs) as [Hk _].
  destruct (spot_regions_fold fetch now _ self Hk)
    as (_ & _ & _ & HH & _ & Hs).
  destruct (spot_map_has asgs g Hg Hspot) as (im & l & Hin & Hentry & Hgl).
  destruct (spot_map_entry asgs _ im _ l g Hin Hentry Hgl)
    as (_ & _ & _ & _ & Hkeys).
  split.
  - rewrite (HH _ im Hin). by rewrite Hkeys.
  - rewrite <- max_outbids_float.
    apply Hs; [| right; by exists (region g), im, (instance_type g), l, g].
    intros r' im' ty' l' g' Hin' Hentry' Hg' Hid.
    destruct (spot_map_entry asgs r' im' ty' l' g' Hin' Hentry' Hg')
      as (Hg'a & Hg's & <- & <- & Hkeys').
    rewrite (Huniq g' Hg'a Hg's Hid) in *.
    by rewrite Hkeys'.
Qed.

Lemma time_out_spot_asgs_spot_group_witness :
  let self' := time_out_spot_asgs (fun _ _ _ => Sample.history_a) Sample.now
                 AutoScalingTimeouts.init [Sample.group; Sample.spot_group] in
  _spot_price_history self' !! "us-east-1" = Some Sample.history_a /\
  _spot_timeouts self' !! ("us-east-1", "spot-workers")
  = Some (Some (Sample.now + seconds 3600)).
Proof.
  pose proof (time_out_spot_asgs_spot_group
                (fun _ _ _ => Sample.history_a) Sample.now
                AutoScalingTimeouts.init [Sample.group; Sample.spot_group]
                Sample.spot_group) as H.
  simpl in H. apply H.
  - apply elem_of_cons. right. apply elem_of_cons. by left.
  - reflexivity.
  - intros g' [-> | [-> | []%elem_of_nil]%elem_of_cons]%elem_of_cons;
      [intros Hs; vm_compute in Hs; discriminate Hs | done].
Defined.

(** ** scale: uncordoning *)

Lemma uncordon_loop_spec uncordon desired n ns :
  n < desired ->
  exists k : nat,
    (k <= length ns)%nat /\
    (uncordon_loop uncordon desired n ns).2 = Uncordon <$> take k ns /\
    (uncordon_loop uncordon desired n ns).1
    = n + Z.of_nat (length (filter (fun x => uncordon x = true) (take k ns))) /\
    (uncordon_loop uncordon desired n ns).1 <= desired /\
    ((k < length ns)%nat -> (uncordon_loop uncordon desired n ns).1 = desired).
Proof.
  revert n. induction ns as [|node ns IH]; intros n Hn; cbn [uncordon_loop].
  - exists 0%nat. simpl. repeat split; try done; lia.
  - destruct (uncordon node) eqn:Hu.
    + destruct (Z.eqb_spec (n + 1) desired) as [Heq | Hne].
      * exists 1%nat. cbn [take length fst snd].
        rewrite filter_cons, decide_True by done. simpl.
        repeat split; lia.
      * destruct (IH (n + 1) ltac:(lia)) as (k & Hk & Htr & Hcount & Hle & Hstop).
        destruct (uncordon_loop uncordon desired (n + 1) ns) as [n' tr].
        simpl in *. exists (S k). cbn [take length].
        rewrite filter_cons, decide_True by done. csimpl.
        repeat split; [lia | by rewrite Htr | lia | lia |].
        intros Hlt. apply Hstop. lia.
    + destruct (IH n Hn) as (k & Hk & Htr & Hcount & Hle & Hstop).
      destruct (uncordon_loop uncordon desired n ns) as [n' tr].
      simpl in *. exists (S k). cbn [take length].
      rewrite filter_cons, decide_False by (by rewrite Hu). csimpl.
      repeat split; [lia | by rewrite Htr | lia | lia |].
      intros Hlt. apply Hstop. lia.
Qed.

(** X17.  [scale] uncordons only what it needs.  With
    desired = min(max_size, target) and schedulable = actual capacity -
    number of unschedulable nodes: when schedulable >= desired no node
    is uncordoned; otherwise [uncordon] is called on the unschedulable
    nodes in order, the calls stop as soon as the successful ones bring
    the count of schedulable nodes to desired, and that count never
    passes desired.  The uncordon calls come before the capacity change
    (if one is made), and [scale] makes no other call. *)
Theorem scale_uncordons_what_is_needed (uncordon : KubeNode -> bool)
    (g : AutoScalingGroup.t) (target : Z) :
  let desired := Z.min (max_size g) target in
  let schedulable :=
    actual_capacity g - Z.of_nat (length (unschedulable_nodes g)) in
  exists k : nat,
    (k <= length (unschedulable_nodes g))%nat /\
    (scale uncordon g target).1.2
    = ((Uncordon <$> take k (unschedulable_nodes g)) ++
       mutations (scale uncordon g target).1.2)%list /\
    let uncordoned :=
      Z.of_nat (length (filter (fun n => uncordon n = true)
                          (take k (unschedulable_nodes g)))) in
    (desired <= schedulable -> k = 0%nat) /\
    (schedulable < desired ->
     schedulable + uncordoned <= desired /\
     ((k < length (unschedulable_nodes g))%nat ->
      schedulable + uncordoned = desired)).
Proof.
  intros desired schedulable. unfold scale. fold desired. fold schedulable.
  assert (forall tr ev,
            mutations tr = [] -> is_mutation ev = true ->
            mutations (tr ++ [ev]) = [ev]) as Hlast.
  { intros tr ev Htr Hev. rewrite mutations_app, Htr. simpl.
    unfold mutations. simpl. by rewrite Hev. }
  destruct (Z.ltb_spec schedulable desired) as [Hlt | Hge].
  - destruct (uncordon_loop_spec uncordon desired schedulable
                (unschedulable_nodes g) Hlt)
      as (k & Hk & Htr & Hcount & Hle & Hstop).
    pose proof (uncordon_loop_no_mutation uncordon desired schedulable
                  (unschedulable_nodes g)) as Hnm.
    destruct (uncordon_loop uncordon desired schedulable
                (unschedulable_nodes g)) as [n' tr].
    simpl in *. subst tr. exists k. split; [done |]. split.
    + destruct (negb (desired_capacity g =? desired)); simpl;
        [| by rewrite Hnm, app_nil_r].
      destruct (desired_capacity g =? max_size g); simpl;
        [by rewrite Hnm, app_nil_r |].
      destruct (desired_capacity g <? desired); simpl;
        [| by rewrite Hnm, app_nil_r].
      by rewrite (Hlast _ _ Hnm).
    + split; [lia |]. intros _. split; [lia |]. intros Hlt'.
      specialize (Hstop Hlt'). lia.
  - exists 0%nat. split; [lia |]. split.
    + destruct (negb (desired_capacity g =? desired)); simpl; [| done].
      destruct (desired_capacity g =? max_size g); simpl; [done |].
      by destruct (desired_capacity g <? desired).
    + split; [done | lia].
Qed.

(** ** scale_nodes_in: the whole batch *)



(** ** __init__ and contains *)

(** X19.  [__init__] raises [IndexError] when the instance type of the
    launch configuration is empty, and builds a group otherwise.  In the
    group it builds from the cluster's nodes, a node is among the
    group's nodes exactly when it is a node of the cluster and the group
    contains it; the group contains a node exactly when the node's
    instance id is the id of one of the raw group's instances and is not
    empty (an instance without an id, or with an empty one, matches no
    node); the nodes keep the order of the cluster's list; the
    unschedulable nodes are the group's nodes that are unschedulable, so
    the count of schedulable nodes that [scale] computes is never
    negative. *)
Theorem init_nodes (reg : string) (kube_nodes : list KubeNode)
    (rg : raw_group) (lc : launch_config) :
  match AutoScalingGroup.init reg kube_nodes rg lc with
  | inl g =>
      InstanceType lc <> "" /\
      (forall n, n ∈ nodes g <-> n ∈ kube_nodes /\ contains g n = true) /\
      (forall n, contains g n = true <->
                 instance_id n <> "" /\ Some (instance_id n) ∈ Instances rg) /\
      nodes g `sublist_of` kube_nodes /\
      (forall n, n ∈ unschedulable_nodes g <->
                 n ∈ nodes g /\ unschedulable n = true) /\
      0 <= actual_capacity g - Z.of_nat (length (unschedulable_nodes g))
  | inr e => InstanceType lc = "" /\ e = IndexError
  end.
Proof.
  pose proof (init_spec reg kube_nodes rg lc) as H.
  destruct (AutoScalingGroup.init reg kube_nodes rg lc) as [g | e]; [| done].
  destruct H as (Hty & _ & _ & _ & _ & _ & _ & Hids & Hnodes & Hun).
  split; [done |]. unfold contains, actual_capacity.
  split; [| split; [| split; [| split]]].
  - intros n. rewrite Hnodes, list_elem_of_filter, bool_decide_eq_true. tauto.
  - intros n. rewrite bool_decide_eq_true, Hids, list_elem_of_omap. split.
    + intros ([s|] & Hin & Hs); [| done].
      destruct (String.eqb_spec s ""); [done |].
      injection Hs as <-. done.
    + intros [Hne Hin]. exists (Some (instance_id n)). split; [done |].
      by destruct (String.eqb_spec (instance_id n) "").
  - rewrite Hnodes. apply sublist_filter.
  - intros n. rewrite Hun, list_elem_of_filter. tauto.
  - rewrite Hun.
    pose proof (length_filter (fun n => unschedulable n = true) (nodes g)).
    lia.
Qed.

(** ** Selectors *)

Lemma starts_with_kube (key : string) :
  PyStr.starts_with "kube/" key = true ->
  key = String.append "kube/" (PyStr.drop 5 key).
Proof.
  destruct key as [|a1 [|a2 [|a3 [|a4 [|a5 rest]]]]];
    cbn [PyStr.starts_with PyStr.drop];
    rewrite ?andb_false_r; try discriminate.
  rewrite !andb_true_iff, !Ascii.eqb_eq.
  intros (<- & <- & <- & <- & <- & _). done.
Qed.

Lemma add_tag_lookup (m : gmap string string) (t : string * string)
    (k : string) :
  AutoScalingGroup.add_tag m t !! k
  = if decide (t.1 = String.append "kube/" k) then Some t.2 else m !! k.
Proof.
  destruct t as [key value]. unfold add_tag. cbn [fst snd].
  destruct (PyStr.starts_with "kube/" key) eqn:Hs.
  - apply starts_with_kube in Hs.
    destruct (decide (key = String.append "kube/" k)) as [-> | Hne].
    + simpl. apply lookup_insert_eq.
    + apply lookup_insert_ne. intros Heq. apply Hne.
      by rewrite Hs, Heq.
  - rewrite decide_False; [done |]. intros ->. simpl in Hs. done.
Qed.

Lemma kube_tag_snoc (tags : list (string * string)) (t : string * string)
    (k : string) :
  kube_tag (tags ++ [t]) k
  = if decide (t.1 = String.append "kube/" k) then Some t.2
    else kube_tag tags k.
Proof.
  unfold kube_tag. rewrite filter_app, filter_cons, filter_nil.
  destruct (decide (t.1 = String.append "kube/" k)).
  - by rewrite last_snoc.
  - by rewrite app_nil_r.
Qed.

Lemma fold_add_tag_lookup (tags : list (string * string))
    (m : gmap string string) (k : string) :
  fold_left add_tag tags m !! k
  = match kube_tag tags k with
    | Some v => Some v
    | None => m !! k
    end.
Proof.
  induction tags as [|t tags IH] using rev_ind; [done |].
  rewrite fold_left_app. simpl.
  rewrite add_tag_lookup, kube_tag_snoc, IH.
  by destruct (decide (t.1 = String.append "kube/" k)).
Qed.

(** X20.  [_extract_selectors] on a launch configuration whose instance
    type is not empty returns the selectors, where: every label [k] that
    the last tag [kube/k] gives a value has that value, also when [k] is
    one of the four aws labels; the aws labels without such a tag are
    the instance type, its first character, the image id and the
    region; tags whose key does not start with [kube/] add nothing; and
    the two kube counterpart labels are set last, to the final values of
    [aws/type] and [aws/region], so that a tag cannot give them another
    value.  (With an empty instance type the function raises
    [IndexError].) *)
Theorem extract_selectors_labels (region : string) (lc : launch_config)
    (tags : list (string * string)) :
  InstanceType lc <> "" ->
  exists sel,
    _extract_selectors region lc tags = Some sel /\
    sel !! "beta.kubernetes.io/instance-type"
    = Some (default (InstanceType lc) (kube_tag tags "aws/type")) /\
    sel !! "failure-domain.beta.kubernetes.io/region"
    = Some (default region (kube_tag tags "aws/region")) /\
    forall k,
      k <> "beta.kubernetes.io/instance-type" ->
      k <> "failure-domain.beta.kubernetes.io/region" ->
      sel !! k
      = match kube_tag tags k with
        | Some v => Some v
        | None =>
            if String.eqb k "aws/type" then Some (InstanceType lc)
            else if String.eqb k "aws/class"
                 then Some (substring 0 1 (InstanceType lc))
            else if String.eqb k "aws/ami-id" then Some (ImageId lc)
            else if String.eqb k "aws/region" then Some region
            else None
        end.
Proof.
  intros Hne. unfold _extract_selectors.
  destruct (InstanceType lc) as [|c rest] eqn:Hty; [done |].
  set (defaults := <["aws/region" := region]> _).
  pose proof (fold_add_tag_lookup tags defaults) as Hfold.
  assert (fold_left add_tag tags defaults !! "aws/type"
          = Some (default (String c rest) (kube_tag tags "aws/type")))
    as Htype.
  { rewrite Hfold. by destruct (kube_tag tags "aws/type"). }
  assert (fold_left add_tag tags defaults !! "aws/region"
          = Some (default region (kube_tag tags "aws/region"))) as Hregion.
  { rewrite Hfold. by destruct (kube_tag tags "aws/region"). }
  rewrite Htype. simpl.
  rewrite lookup_insert_ne by done. rewrite Hregion. simpl.
  eexists. split; [reflexivity |]. split; [| split].
  - rewrite lookup_insert_ne by done. apply lookup_insert_eq.
  - apply lookup_insert_eq.
  - intros k Hk1 Hk2. rewrite !lookup_insert_ne by done.
    rewrite Hfold. destruct (kube_tag tags k); [done |].
    subst defaults.
    assert (substring 0 0 rest = "") as Hfirst by (by destruct rest).
    cbn [substring]. rewrite Hfirst.
    destruct (String.eqb_spec k "aws/type") as [-> | ?];
      [by rewrite !lookup_insert_ne, lookup_insert_eq by done |].
    destruct (String.eqb_spec k "aws/class") as [-> | ?];
      [by rewrite !lookup_insert_ne, lookup_insert_eq by done |].
    destruct (String.eqb_spec k "aws/ami-id") as [-> | ?];
      [by rewrite !lookup_insert_ne, lookup_insert_eq by done |].
    destruct (String.eqb_spec k "aws/region") as [-> | ?];
      [by rewrite lookup_insert_eq |].
    by rewrite !lookup_insert_ne by done.
Qed.

Lemma extract_selectors_labels_witness :
  exists sel,
    _extract_selectors "us-east-1" Sample.lc
      [("kube/role", "batch"); ("Name", "workers");
       ("kube/aws/type", "any"); ("kube/role", "web")] = Some sel /\
    sel !! "beta.kubernetes.io/instance-type" = Some "any" /\
    sel !! "failure-domain.beta.kubernetes.io/region" = Some "us-east-1" /\
    sel !! "role" = Some "web" /\ sel !! "Name" = None.
Proof.
  destruct (extract_selectors_labels "us-east-1" Sample.lc
              [("kube/role", "batch"); ("Name", "workers");
               ("kube/aws/type", "any"); ("kube/role", "web")])
    as (sel & Hsel & Htype & Hregion & Hothers); [done |].
  exists sel. split; [exact Hsel |]. split; [exact Htype |].
  split; [exact Hregion |].
  split; [by rewrite (Hothers "role") | by rewrite (Hothers "Name")].
Defined.

Lemma is_match_for_selectors_spec (sel : gmap string string)
    (l : list (string * string)) :
  is_match_for_selectors sel l = true <->
  forall k v, (k, v) ∈ l -> sel !! k = Some v.
Proof.
  unfold is_match_for_selectors. induction l as [|[k v] l IH]; simpl.
  - split; [intros _ k v Hin; by apply elem_of_nil in Hin | done].
  - rewrite andb_true_iff, bool_decide_eq_true, IH. split.
    + intros [Hk Hl] k' v' [[= -> ->] | Hin]%elem_of_cons; [done | by apply Hl].
    + intros H. split; [apply H, elem_of_cons; by left |].
      intros k' v' Hin. apply H, elem_of_cons. by right.
Qed.

(** X21.  The selector predicates.  [is_match_for_selectors] answers
    true exactly when the dictionary asked about is a sub-dictionary of
    the group's selectors (every label present with the same value; so
    the empty dictionary always matches, and a label the group does not
    have never does).  [is_taints_tolerated] answers true exactly when
    the pod's selectors match in that sense and the pod tolerates every
    key of the group's no-schedule taints, by its wildcard toleration or
    by name; with the empty [no_schedule_taints] that [__init__] sets it
    is the selector match alone. *)
Theorem selector_predicates (sel sel' : gmap string string)
    (taints : list string) (pod : KubePod) :
  (is_match_for_selectors sel (map_to_list sel') = true <-> sel' ⊆ sel) /\
  (is_taints_tolerated sel taints pod = true <->
   is_match_for_selectors sel (pod_selectors pod) = true /\
   (no_schedule_wildcard_toleration pod = true \/
    forall key, key ∈ taints ->
                key ∈ no_schedule_existential_tolerations pod)) /\
  is_taints_tolerated sel [] pod
  = is_match_for_selectors sel (pod_selectors pod).
Proof.
  split; [| split].
  - rewrite is_match_for_selectors_spec, map_subseteq_spec.
    split; intros H k v Hk; apply H; by apply elem_of_map_to_list.
  - unfold is_taints_tolerated. rewrite andb_true_iff.
    apply and_iff_compat_l.
    destruct (no_schedule_wildcard_toleration pod); simpl.
    + split; [by left |]. intros _. by induction taints.
    + induction taints as [|key taints IH]; simpl.
      * split; [intros _; right; intros key Hin; by apply elem_of_nil in Hin
               | done].
      * rewrite andb_true_iff, bool_decide_eq_true, IH. split.
        -- intros [Hkey [? | Hl]]; [done |]. right.
           intros key' [-> | Hin]%elem_of_cons; [done | by apply Hl].
        -- intros [? | H]; [done |]. split.
           ++ apply H, elem_of_cons. by left.
           ++ right. intros key' Hin. apply H, elem_of_cons. by right.
  - unfold is_taints_tolerated. simpl. apply andb_true_r.
Qed.

(** ** get_all_groups: order and cluster filter *)

Lemma string_compare_trans (s1 s2 s3 : string) :
  String.compare s1 s2 <> Gt -> String.compare s2 s3 <> Gt ->
  String.compare s1 s3 <> Gt.
Proof.
  revert s2 s3.
  induction s1 as [|a s1 IH]; intros [|b s2] [|c s3]; simpl; try done.
  unfold Ascii.compare.
  destruct (N.compare_spec (N_of_ascii a) (N_of_ascii b)) as [Hab|Hab|Hab];
    destruct (N.compare_spec (N_of_ascii b) (N_of_ascii c)) as [Hbc|Hbc|Hbc];
    destruct (N.compare_spec (N_of_ascii a) (N_of_ascii c)) as [Hac|Hac|Hac];
    intros H1 H2; try done; try lia.
  by eapply IH.
Qed.

Lemma name_le_trans (a b c : string) :
  name_le a b -> name_le b c -> name_le a c.
Proof.
  unfold name_le, String.leb. intros H1 H2.
  pose proof (string_compare_trans a b c) as H.
  destruct (String.compare a b), (String.compare b c),
    (String.compare a c); try done; exfalso; by apply H.
Qed.

Lemma insert_by_name_sorted (g : raw_group) (l : list raw_group) :
  StronglySorted
    (fun x y => name_le (AutoScalingGroupName x) (AutoScalingGroupName y)) l ->
  StronglySorted
    (fun x y => name_le (AutoScalingGroupName x) (AutoScalingGroupName y))
    (insert_by_name g l).
Proof.
  induction 1 as [|h l Hl IH Hh]; simpl.
  - repeat constructor.
  - destruct (String.leb (AutoScalingGroupName g) (AutoScalingGroupName h))
      eqn:Hle.
    + apply SSorted_cons; [by apply SSorted_cons |].
      constructor; [done |].
      eapply Forall_impl; [exact Hh |]. intros x Hx.
      by eapply name_le_trans.
    + apply SSorted_cons; [done |].
      apply Forall_forall. intros x Hx.
      rewrite insert_by_name_perm in Hx.
      apply elem_of_cons in Hx as [-> | Hx].
      * destruct (String.leb_total (AutoScalingGroupName g)
                    (AutoScalingGroupName h)); [congruence | done].
      * by eapply Forall_forall in Hh.
Qed.

Lemma sorted_by_name_sorted (l : list raw_group) :
  StronglySorted
    (fun x y => name_le (AutoScalingGroupName x) (AutoScalingGroupName y))
    (sorted_by_name l).
Proof.
  unfold sorted_by_name. induction l as [|g l IH]; simpl.
  - constructor.
  - by apply insert_by_name_sorted.
Qed.

Lemma StronglySorted_filter {A : Type} (R : A -> A -> Prop) (P : A -> Prop)
    `{forall x, Decision (P x)} (l : list A) :
  StronglySorted R l -> StronglySorted R (filter P l).
Proof.
  induction 1 as [|a l Hl IH Ha]; [constructor |].
  rewrite filter_cons. destruct (decide (P a)); [| done].
  apply SSorted_cons; [done |].
  apply Forall_forall. intros x [_ Hx]%list_elem_of_filter.
  by eapply Forall_forall in Ha.
Qed.

Lemma build_groups_spec cluster_name region kube_nodes
    (lcs : gmap string launch_config) (l : list raw_group) :
  match build_groups cluster_name region kube_nodes lcs l with
  | inl gs =>
      Forall2
        (fun g rg =>
           exists lc, lcs !! rg_LaunchConfigurationName rg = Some lc /\
                      AutoScalingGroup.init region kube_nodes rg lc = inl g)
        gs (filter (fun rg => selected cluster_name rg = true) l)
  | inr e =>
      exists pre rg post,
        l = (pre ++ rg :: post)%list /\
        selected cluster_name rg = true /\
        Forall (fun rg' =>
                  selected cluster_name rg' = true ->
                  exists lc, lcs !! rg_LaunchConfigurationName rg' = Some lc /\
                             InstanceType lc <> "") pre /\
        ((lcs !! rg_LaunchConfigurationName rg = None /\
          e = KeyError (rg_LaunchConfigurationName rg)) \/
         (exists lc, lcs !! rg_LaunchConfigurationName rg = Some lc /\
                     InstanceType lc = "" /\ e = IndexError))
  end.
Proof.
  induction l as [|rg l IH]; cbn [build_groups]; [constructor |].
  rewrite filter_cons.
  destruct (selected cluster_name rg) eqn:Hsel; simpl.
  - destruct (lcs !! rg_LaunchConfigurationName rg) as [lc|] eqn:Hlc.
    + pose proof (init_spec region kube_nodes rg lc) as Hinit.
      destruct (AutoScalingGroup.init region kube_nodes rg lc) as [g | e0]
        eqn:Hg.
      * destruct (build_groups cluster_name region kube_nodes lcs l)
          as [gs | e].
        -- constructor; [by exists lc | done].
        -- destruct IH as (pre & rg' & post & -> & Hsel' & Hpre & He).
           exists (rg :: pre), rg', post. split; [done |]. split; [done |].
           split; [| done]. constructor; [| done].
           intros _. exists lc. split; [done | tauto].
      * destruct Hinit as [Hty ->].
        exists [], rg, l. split; [done |]. split; [done |].
        split; [constructor |]. right. by exists lc.
    + exists [], rg, l. split; [done |]. split; [done |].
      split; [constructor |]. by left.
  - destruct (build_groups cluster_name region kube_nodes lcs l)
      as [gs | e]; [done |].
    destruct IH as (pre & rg' & post & -> & Hsel' & Hpre & He).
    exists (rg :: pre), rg', post. split; [done |]. split; [done |].
    split; [| done]. constructor; [| done]. intros Hs. congruence.
Qed.

(** X22.  The groups [get_all_groups] builds for one region, from the
    raw groups in any order.  When a group object is returned for the
    region, the objects are those of the raw groups that pass the
    cluster filter, each built by the constructor from the raw group
    and the launch configuration found under its name, in ascending
    order of the group names (by code points), whatever the order the
    provider listed them in.  Otherwise the exception is that of the
    first raw group, in that order, that passes the filter and cannot be
    built: the [KeyError] of its launch configuration name when the
    configuration is not among those fetched, the [IndexError] of the
    constructor when the configuration has an empty instance type.  A
    group that the filter drops never raises. *)
Theorem build_groups_sorted_and_filtered (cluster_name : option string)
    (region : string) (kube_nodes : list KubeNode)
    (lcs : gmap string launch_config) (raws : list raw_group) :
  sorted_by_name raws ≡ₚ raws /\
  match build_groups cluster_name region kube_nodes lcs
          (sorted_by_name raws) with
  | inl gs =>
      Forall2
        (fun g rg =>
           exists lc, lcs !! rg_LaunchConfigurationName rg = Some lc /\
                      AutoScalingGroup.init region kube_nodes rg lc = inl g)
        gs (filter (fun rg => selected cluster_name rg = true)
              (sorted_by_name raws)) /\
      StronglySorted name_le (name <$> gs)
  | inr e =>
      exists pre rg post,
        sorted_by_name raws = (pre ++ rg :: post)%list /\
        selected cluster_name rg = true /\
        Forall (fun rg' =>
                  selected cluster_name rg' = true ->
                  exists lc, lcs !! rg_LaunchConfigurationName rg' = Some lc /\
                             InstanceType lc <> "") pre /\
        ((lcs !! rg_LaunchConfigurationName rg = None /\
          e = KeyError (rg_LaunchConfigurationName rg)) \/
         (exists lc, lcs !! rg_LaunchConfigurationName rg = Some lc /\
                     InstanceType lc = "" /\ e = IndexError))
  end.
Proof.
  split; [apply sorted_by_name_perm |].
  pose proof (build_groups_spec cluster_name region kube_nodes lcs
                (sorted_by_name raws)) as H.
  destruct (build_groups cluster_name region kube_nodes lcs
              (sorted_by_name raws)) as [gs | e]; [| done].
  split; [done |].
  assert (name <$> gs
          = AutoScalingGroupName <$>
              filter (fun rg => selected cluster_name rg = true)
                (sorted_by_name raws)) as ->.
  { induction H as [|g rg gs rgs (lc & _ & Hg) _ IH]; [done |].
    csimpl. rewrite IH. f_equal.
    pose proof (init_spec region kube_nodes rg lc) as Hspec.
    rewrite Hg in Hspec. tauto. }
  apply (StronglySorted_fmap _
           (fun x y => name_le (AutoScalingGroupName x)
                         (AutoScalingGroupName y))); [done |].
  apply StronglySorted_filter, sorted_by_name_sorted.
Qed.

Example build_groups_empty_instance_type :
  build_groups None "us-east-1" []
    (<["lc-0" := {| LaunchConfigurationName := "lc-0"; InstanceType := "";
                    ImageId := "ami-1"; SpotPrice := None |}]> ∅)
    (sorted_by_name [Sample.raw 1; Sample.raw 0])
  = inr IndexError.
Proof. vm_compute. reflexivity. Qed.

Lemma last_tag_snoc (keys : list string) (tags : list (string * string))
    (t : string * string) :
  last_tag keys (tags ++ [t])
  = if decide (t.1 ∈ keys) then Some t.2 else last_tag keys tags.
Proof.
  unfold last_tag. rewrite filter_app, filter_cons, filter_nil.
  destruct (decide (t.1 ∈ keys)).
  - by rewrite last_snoc.
  - by rewrite app_nil_r.
Qed.

Lemma scan_tags_last (tags : list (string * string)) :
  scan_tags tags = (last_tag [_CLUSTER_KEY] tags, last_tag _ROLE_KEYS tags).
Proof.
  unfold scan_tags. induction tags as [|[key value] tags IH] using rev_ind;
    [done |].
  rewrite fold_left_app, IH, !last_tag_snoc. cbn [fold_left fst snd].
  destruct (String.eqb_spec key _CLUSTER_KEY) as [-> | Hne].
  - destruct (decide (_CLUSTER_KEY ∈ [_CLUSTER_KEY])) as [_ | Hn];
      [| exfalso; apply Hn, elem_of_cons; by left].
    destruct (decide (_CLUSTER_KEY ∈ _ROLE_KEYS)) as [Hin | _]; [| done].
    exfalso. unfold _ROLE_KEYS, _CLUSTER_KEY in Hin.
    rewrite !elem_of_cons, elem_of_nil in Hin.
    destruct Hin as [? | [? | []]]; done.
  - destruct (decide (key ∈ [_CLUSTER_KEY])) as [Hin | _].
    { apply elem_of_cons in Hin as [? | Hin]; [done |].
      by apply elem_of_nil in Hin. }
    case_bool_decide as Hrole.
    + by rewrite decide_True.
    + by rewrite decide_False.
Qed.

(** X23.  The cluster filter of [get_all_groups].  With a cluster name
    that is not empty, a raw group is kept exactly when the value of its
    last KubernetesCluster tag is that name and the value of its last
    KubernetesRole or Role tag (whichever of the two keys comes last) is
    worker or kubernetes-minion; a group without a role tag is dropped.
    With no cluster name, or the empty one, every group is kept. *)
Theorem cluster_filter (cluster_name : string) (rg : raw_group) :
  cluster_name <> "" ->
  (selected (Some cluster_name) rg = true <->
   last_tag [_CLUSTER_KEY] (Tags rg) = Some cluster_name /\
   exists role, last_tag _ROLE_KEYS (Tags rg) = Some role /\
                role ∈ _WORKER_ROLE_VALUES) /\
  selected None rg = true /\ selected (Some "") rg = true.
Proof.
  intros Hne. split; [| done]. unfold selected.
  destruct (String.eqb_spec cluster_name ""); [done |].
  rewrite scan_tags_last.
  destruct (last_tag _ROLE_KEYS (Tags rg)) as [role|].
  - rewrite negb_true_iff, orb_false_iff, !negb_false_iff,
      !bool_decide_eq_true.
    split; [intros [? ?]; eauto | intros [? (? & [= <-] & ?)]; done].
  - rewrite orb_true_r. simpl. split; [done | intros [_ (? & ? & _)]; done].
Qed.

Lemma cluster_filter_witness :
  selected (Some "prod")
    {| AutoScalingGroupName := "asg"; rg_LaunchConfigurationName := "lc";
       DesiredCapacity := 1; MinSize := 0; MaxSize := 2;
       Tags := [("KubernetesCluster", "test"); ("Role", "master");
                ("KubernetesCluster", "prod"); ("KubernetesRole", "worker")];
       Instances := [] |} = true.
Proof.
  apply (cluster_filter "prod"); [done |].
  split; [vm_compute; reflexivity |].
  exists "worker". split; [vm_compute; reflexivity |].
  apply elem_of_cons. by left.
Defined.

(** ** iter_activities *)

Lemma iter_activities_serves describe fuel next_token l :
  iter_activities fuel describe next_token = Some l <->
  exists pages,
    serves describe (if truthy next_token then next_token else None) pages /\
    (length pages <= fuel)%nat /\
    l = concat (Activities <$> pages).
Proof.
  revert next_token l. induction fuel as [|fuel IH]; intros next_token l.
  - simpl. split; [done |].
    intros (pages & Hs & Hlen & _). destruct Hs; simpl in Hlen; lia.
  - cbn [iter_activities].
    set (kwargs := if truthy next_token then next_token else None).
    destruct (truthy (NextToken (describe kwargs))) eqn:Htok; simpl.
    + split.
      * destruct (iter_activities fuel describe (NextToken (describe kwargs)))
          as [l'|] eqn:Hrest; [| done].
        simpl. intros [= <-].
        apply IH in Hrest as (pages & Hs & Hlen & ->).
        rewrite Htok in Hs.
        exists (describe kwargs :: pages).
        split; [by apply serves_more |]. split; [simpl; lia | done].
      * intros (pages & Hs & Hlen & ->).
        inversion Hs as [kw Hlast | kw pages' _ Hs']; subst; [congruence |].
        assert (iter_activities fuel describe (NextToken (describe kwargs))
                = Some (concat (Activities <$> pages'))) as ->; [| done].
        apply IH. exists pages'. rewrite Htok.
        split; [done |]. split; [simpl in Hlen; lia | done].
    + split.
      * intros [= <-]. exists [describe kwargs].
        split; [by apply serves_last |]. split; [simpl; lia |].
        simpl. by rewrite app_nil_r.
      * intros (pages & Hs & Hlen & ->).
        inversion Hs as [kw Hlast | kw pages' Hmore Hs']; subst;
          [| congruence].
        simpl. by rewrite app_nil_r.
Qed.

(** X24.  [iter_activities] yields the activities of the pages the
    provider serves, in order: the first call is made without a token,
    every later call with the token of the page before, and the
    iteration ends with the first page whose token is missing or empty.
    It comes to an end exactly when the provider serves such a last
    page; a provider that hands out a token with every page keeps it
    running for ever. *)
Theorem iter_activities_yields_pages (describe : option string -> page)
    (fuel : nat) (l : list activity) :
  iter_activities fuel describe None = Some l <->
  exists pages,
    serves describe None pages /\ (length pages <= fuel)%nat /\
    l = concat (Activities <$> pages).
Proof. apply (iter_activities_serves describe fuel None l). Qed.

Example iter_activities_two_pages :
  let describe := fun kwargs : option string =>
    match kwargs with
    | None => {| Activities := [Sample.in_progress]; NextToken := Some "t1" |}
    | Some _ => {| Activities := [Sample.waiting]; NextToken := Some "" |}
    end in
  iter_activities 2 describe None = Some [Sample.in_progress; Sample.waiting] /\
  iter_activities 1 describe None = None.
Proof. vm_compute. split; reflexivity. Qed.

(** ** The patterns on the provider's messages *)

Lemma re_match_eq (p : Re.regex) (s : string) :
  Re.re_match p s = Re.MatchObj p <$> Re.match_here p s.
Proof. reflexivity. Qed.

Lemma group_eq (m : Re.match_obj) (name : string) :
  Re.group m name = default "" (Re.group_text name (Re.m_re m) (Re.m_segs m)).
Proof. reflexivity. Qed.

Lemma append_String (a : ascii) (t s : string) :
  String.append (String a t) s = String a (String.append t s).
Proof. reflexivity. Qed.

Lemma append_nil_l (s : string) : String.append "" s = s.
Proof. reflexivity. Qed.

Lemma match_literal (text : string) (p : Re.regex) (s : string) :
  Re.match_here (literal text ++ p)%list (String.append text s)
  = app (chars text) <$> Re.match_here p s.
Proof.
  induction text as [|a text IH]; cbn [literal chars app];
    rewrite ?append_String, ?append_nil_l.
  - by destruct (Re.match_here p s).
  - cbn [Re.match_here].
    assert (Re.cls_ok (if Ascii.eqb a "." then Re.Dot else Re.Exact a) a
            = true) as ->.
    { destruct (Ascii.eqb_spec a ".") as [-> | _]; [done |].
      simpl. apply Ascii.eqb_refl. }
    rewrite IH. by destruct (Re.match_here p s).
Qed.

Lemma group_text_literal (name text : string) (p : Re.regex)
    (segs : list string) :
  Re.group_text name (literal text ++ p)%list (chars text ++ segs)%list
  = Re.group_text name p segs.
Proof. induction text as [|a text IH]; simpl; done. Qed.

Lemma until_close_literal (text : string) (p : Re.regex)
    (segs : list string) :
  Re.until_close (literal text ++ p)%list (chars text ++ segs)%list
  = String.append text (Re.until_close p segs).
Proof.
  induction text as [|a text IH]; cbn [literal chars app];
    rewrite ?append_String, ?append_nil_l; [done |].
  cbn [Re.until_close]. by rewrite IH.
Qed.

Lemma star_digits (n s : string) (k : string -> option (list string))
    (r : list string) :
  all_digits n = true ->
  match s with
  | String c _ => Re.is_digit c = false
  | EmptyString => True
  end ->
  k s = Some r ->
  Re.star_greedy Re.Digit k (String.append n s) = Some (n, r).
Proof.
  intros Hn Hs Hk. induction n as [|a n IH];
    rewrite ?append_String, ?append_nil_l.
  - destruct s as [|c s]; cbn [Re.star_greedy Re.cls_ok].
    + by rewrite Hk.
    + rewrite Hs. by rewrite Hk.
  - cbn [all_digits] in Hn. apply andb_true_iff in Hn as [Ha Hn].
    cbn [Re.star_greedy Re.cls_ok]. rewrite Ha, (IH Hn). done.
Qed.

Lemma plus_digits (n s : string) (k : string -> option (list string))
    (r : list string) :
  digits n ->
  match s with
  | String c _ => Re.is_digit c = false
  | EmptyString => True
  end ->
  k s = Some r ->
  Re.plus_greedy Re.Digit k (String.append n s) = Some (n :: r).
Proof.
  intros [Hne Hn] Hs Hk. destruct n as [|a n]; [done |].
  cbn [all_digits] in Hn. apply andb_true_iff in Hn as [Ha Hn].
  rewrite append_String. unfold Re.plus_greedy. cbn [Re.cls_ok].
  rewrite Ha, (star_digits n s k r Hn Hs Hk). done.
Qed.

Lemma append_empty (s : string) : String.append s "" = s.
Proof.
  induction s as [|a s IH]; rewrite ?append_String, ?append_nil_l;
    [done | by rewrite IH].
Qed.

Lemma match_literal_end (text tail : string) :
  Re.match_here (literal text) (String.append text tail) = Some (chars text).
Proof.
  rewrite <- (app_nil_r (literal text)), match_literal.
  cbn [Re.match_here]. simpl. by rewrite app_nil_r.
Qed.

Lemma match_here_open (name : option string) (p : Re.regex) (s : string) :
  Re.match_here (Re.Open name :: p) s = cons "" <$> Re.match_here p s.
Proof. reflexivity. Qed.

Lemma match_here_close (p : Re.regex) (s : string) :
  Re.match_here (Re.Close :: p) s = cons "" <$> Re.match_here p s.
Proof. reflexivity. Qed.

Lemma match_here_many (c : Re.cls) (p : Re.regex) (s : string) :
  Re.match_here (Re.Many c :: p) s = Re.plus_greedy c (Re.match_here p) s.
Proof. reflexivity. Qed.

(** A pattern of two named runs of digits between three texts, on a
    subject built the same way: the texts consumed by its items, and the
    texts of the two groups. *)
Lemma two_numbers_match (pre mid post g1 g2 n l tail : string)
    (c1 c2 : ascii) (mid' post' : string) :
  mid = String c1 mid' -> Re.is_digit c1 = false ->
  post = String c2 post' -> Re.is_digit c2 = false ->
  g1 <> g2 ->
  digits n -> digits l ->
  let p :=
    (literal pre ++
     Re.Open (Some g1) :: Re.Many Re.Digit :: Re.Close ::
     literal mid ++
     Re.Open (Some g2) :: Re.Many Re.Digit :: Re.Close ::
     literal post)%list in
  exists segs,
    Re.match_here p
      (String.append pre
         (String.append n
            (String.append mid
               (String.append l (String.append post tail))))) = Some segs /\
    Re.group_text g1 p segs = Some n /\
    Re.group_text g2 p segs = Some l.
Proof.
  intros Hmid Hc1 Hpost Hc2 Hg Hn Hl p. subst p.
  assert (match String.append post tail with
          | String c _ => Re.is_digit c = false
          | EmptyString => True
          end) as Hp.
  { subst post. by rewrite append_String. }
  assert (match String.append mid
                  (String.append l (String.append post tail)) with
          | String c _ => Re.is_digit c = false
          | EmptyString => True
          end) as Hm.
  { subst mid. by rewrite append_String. }
  assert (Re.match_here (Re.Close :: literal post)
            (String.append post tail) = Some ("" :: chars post)) as Hend.
  { by rewrite match_here_close, match_literal_end. }
  assert (Re.match_here
            (Re.Close :: literal mid ++
             Re.Open (Some g2) :: Re.Many Re.Digit :: Re.Close ::
             literal post)%list
            (String.append mid (String.append l (String.append post tail)))
          = Some ("" :: chars mid ++ "" :: l :: "" :: chars post)%list)
    as Hrest.
  { rewrite match_here_close, match_literal, match_here_open,
      match_here_many.
    rewrite (plus_digits l (String.append post tail) _ _ Hl Hp Hend).
    done. }
  exists (chars pre ++ "" :: n :: "" :: chars mid ++
          "" :: l :: "" :: chars post)%list.
  split; [| split].
  - rewrite match_literal, match_here_open, match_here_many.
    rewrite (plus_digits n _ _ _ Hn Hm Hrest).
    done.
  - rewrite group_text_literal. cbn [Re.group_text].
    rewrite String.eqb_refl. cbn [Re.until_close].
    by rewrite append_empty.
  - rewrite group_text_literal. cbn [Re.group_text].
    destruct (String.eqb_spec g1 g2) as [? | _]; [done |].
    cbn [Re.group_text]. rewrite group_text_literal.
    cbn [Re.group_text]. rewrite String.eqb_refl. cbn [Re.until_close].
    by rewrite append_empty.
Qed.

Lemma instance_limit_items :
  AutoScalingErrorMessages.INSTANCE_LIMIT
  = (literal "You have requested more instances (" ++
     Re.Open (Some "requested") :: Re.Many Re.Digit :: Re.Close ::
     literal ") than your current instance limit of " ++
     Re.Open (Some "limit") :: Re.Many Re.Digit :: Re.Close ::
     literal " allows for the specified instance type. Please visit http://aws.amazon.com/contact-us/ec2-request to request an adjustment to this limit. Launching EC2 instance failed.")%list.
Proof. vm_compute. reflexivity. Qed.

(** X25.  INSTANCE_LIMIT on the provider's message.  For every two runs
    of decimal digits [n] and [l] (of any length) the pattern matches
    the message "You have requested more instances (n) than your
    current instance limit of l allows ..." at its start, whatever
    follows the message, and the groups [requested] and [limit] of the
    match are [n] and [l]: the capacity that [reconcile_limits] then
    computes is int(n) - 1. *)
Theorem instance_limit_matches (n l tail : string) :
  digits n -> digits l ->
  exists m,
    Re.re_match AutoScalingErrorMessages.INSTANCE_LIMIT
      (instance_limit_message n l tail) = Some m /\
    Re.group m "requested" = n /\
    Re.group m "limit" = l.
Proof.
  intros Hn Hl. rewrite re_match_eq, instance_limit_items.
  unfold instance_limit_message.
  destruct (two_numbers_match
              "You have requested more instances ("
              ") than your current instance limit of "
              " allows for the specified instance type. Please visit http://aws.amazon.com/contact-us/ec2-request to request an adjustment to this limit. Launching EC2 instance failed."
              "requested" "limit" n l tail _ _ _ _
              eq_refl eq_refl eq_refl eq_refl ltac:(done) Hn Hl)
    as (segs & Hm & Hg1 & Hg2).
  rewrite Hm. eexists. split; [reflexivity |].
  rewrite !group_eq. cbn [Re.m_re Re.m_segs].
  by rewrite Hg1, Hg2.
Qed.

Lemma instance_limit_matches_witness :
  exists m,
    Re.re_match AutoScalingErrorMessages.INSTANCE_LIMIT
      (instance_limit_message "4096" "20" " (request id 7)") = Some m /\
    Re.group m "requested" = "4096" /\
    Re.group m "limit" = "20".
Proof.
  apply (instance_limit_matches "4096" "20" " (request id 7)");
    split; [done | reflexivity | done | reflexivity].
Defined.

(** ** reconcile_limits: spot requests that are left alone *)

(** X26.  A WaitingForSpotInstanceId activity that is an AZ-balance
    launch, or that started no more than 300 s ago, is passed over:
    nothing is stored, called or logged for it, and the pass goes on
    with the next activity. *)
Theorem recent_or_balancing_request_is_skipped
    (describe : string -> string -> list string) (now : Z) (dry_run : bool)
    (s : state) (entry : activity) (rest : list activity) :
  StatusCode entry = "WaitingForSpotInstanceId" ->
  is_Some (Re.re_search AutoScalingCauseMessages.AZ_BALANCE
             (default "" (Cause entry))) \/
  now - StartTime entry <= seconds 300 ->
  reconcile_entry describe now dry_run s entry = (s, Next) /\
  reconcile_limits describe now dry_run s (entry :: rest)
  = reconcile_limits describe now dry_run s rest.
Proof.
  intros Hstatus Hskip.
  assert (reconcile_entry describe now dry_run s entry = (s, Next)) as He.
  { unfold reconcile_entry.
    destruct (status_waiting _ Hstatus) as [-> ->].
    unfold waiting_entry.
    destruct (Re.re_search AutoScalingCauseMessages.AZ_BALANCE _) as [m|];
      [done |].
    destruct Hskip as [[? ?] | Hrecent]; [done |].
    by assert ((now - StartTime entry >? seconds _SPOT_REQUEST_TIMEOUT)
               = false) as -> by (unfold _SPOT_REQUEST_TIMEOUT; lia). }
  split; [done |].
  unfold reconcile_limits. cbn [reconcile_loop]. by rewrite He.
Qed.

Lemma recent_or_balancing_request_is_skipped_witness :
  reconcile_entry Sample.open_requests (seconds 9200) false Sample.start
    Sample.waiting = (Sample.start, Next) /\
  reconcile_limits Sample.open_requests (seconds 9200) false Sample.start
    [Sample.waiting; Sample.limit_failure]
  = reconcile_limits Sample.open_requests (seconds 9200) false Sample.start
      [Sample.limit_failure].
Proof.
  apply (recent_or_balancing_request_is_skipped Sample.open_requests
           (seconds 9200) false Sample.start Sample.waiting
           [Sample.limit_failure]).
  - reflexivity.
  - right. vm_compute. discriminate.
Defined.

Lemma unavailable_request_state
    (describe : string -> string -> list string) (now : Z) (dry_run : bool)
    (s : state) (entry : activity) (rest : list activity) :
  StatusCode entry = "WaitingForSpotInstanceId" ->
  Re.re_search AutoScalingCauseMessages.AZ_BALANCE
    (default "" (Cause entry)) = None ->
  now - StartTime entry > seconds 300 ->
  Re.re_search AutoScalingErrorMessages.SPOT_REQUEST_WAITING
    (default "" (StatusMessage entry)) = None \/
  (dry_run = false /\
   (describe (region (asg s)) (request_id_of entry) = [] \/
    exists st sts,
      describe (region (asg s)) (request_id_of entry) = st :: sts /\
      st <> "open" /\ st <> "active")) ->
  reconcile_entry describe now dry_run s entry = (time_out_asg s entry, Next) /\
  reconcile_limits describe now dry_run s (entry :: rest)
  = reconcile_limits describe now dry_run (time_out_asg s entry) rest.
Proof.
  intros Hstatus Hcause Hlong Hun.
  assert (reconcile_entry describe now dry_run s entry
          = (time_out_asg s entry, Next)) as He.
  { unfold reconcile_entry.
    destruct (status_waiting _ Hstatus) as [-> ->].
    unfold waiting_entry, request_id_of in *. rewrite Hcause.
    assert ((now - StartTime entry >? seconds _SPOT_REQUEST_TIMEOUT) = true)
      as -> by (unfold _SPOT_REQUEST_TIMEOUT; lia).
    destruct (Re.re_search AutoScalingErrorMessages.SPOT_REQUEST_WAITING _)
      as [m|]; [| done].
    destruct Hun as [? | [-> Hdesc]]; [done |].
    cbn [negb default fmap option_fmap option_map] in *.
    unfold id in Hdesc.
    unfold cancel_spot_request. cbn [asg time_out_asg].
    destruct Hdesc as [-> | (st & sts & -> & Ho & Ha)].
    - unfold emit. simpl. by rewrite app_nil_r.
    - destruct (String.eqb_spec st "open"); [done |].
      destruct (String.eqb_spec st "active"); [done |].
      unfold emit. simpl. by rewrite app_nil_r. }
  split; [done |].
  unfold reconcile_limits. cbn [reconcile_loop]. by rewrite He.
Qed.

(** X27.  A spot request waiting for more than 300 s (no AZ-balance
    launch) whose status message holds no request id, or whose request
    the provider, in a real run, does not list or lists in a state other
    than open and active, is not cancelled: the timeout StartTime + 1
    hour is stored, no call but the describe is made, the desired
    capacity stays, and the pass goes on with the next activity. *)
Theorem unavailable_request_is_not_cancelled
    (describe : string -> string -> list string) (now : Z) (dry_run : bool)
    (s : state) (entry : activity) (rest : list activity) :
  StatusCode entry = "WaitingForSpotInstanceId" ->
  Re.re_search AutoScalingCauseMessages.AZ_BALANCE
    (default "" (Cause entry)) = None ->
  now - StartTime entry > seconds 300 ->
  Re.re_search AutoScalingErrorMessages.SPOT_REQUEST_WAITING
    (default "" (StatusMessage entry)) = None \/
  (dry_run = false /\
   (describe (region (asg s)) (request_id_of entry) = [] \/
    exists st sts,
      describe (region (asg s)) (request_id_of entry) = st :: sts /\
      st <> "open" /\ st <> "active")) ->
  let s1 := (reconcile_entry describe now dry_run s entry).1 in
  _timeouts (ts s1) !! _id (asg s)
  = Some (Some (StartTime entry + seconds 3600)) /\
  (forall id, id <> _id (asg s) ->
              _timeouts (ts s1) !! id = _timeouts (ts s) !! id) /\
  same_but_timeouts (ts s1) (ts s) /\
  asg s1 = asg s /\ trace s1 = trace s /\
  (reconcile_entry describe now dry_run s entry).2 = Next /\
  reconcile_limits describe now dry_run s (entry :: rest)
  = reconcile_limits describe now dry_run s1 rest.
Proof.
  intros Hstatus Hcause Hlong Hun. cbv zeta.
  destruct (unavailable_request_state describe now dry_run s entry rest
              Hstatus Hcause Hlong Hun) as [He Hlimits].
  rewrite He. cbn [fst snd ts asg trace time_out_asg].
  split; [apply lookup_insert_eq |].
  split; [intros id Hne; simpl; by apply lookup_insert_ne |].
  done.
Qed.

Lemma unavailable_request_is_not_cancelled_witness :
  let s1 := (reconcile_entry Sample.no_requests Sample.now false Sample.start
               Sample.waiting).1 in
  _timeouts (ts s1) !! ("us-east-1", "workers")
  = Some (Some (seconds 9000 + seconds 3600)) /\
  asg s1 = Sample.group /\ trace s1 = [].
Proof.
  destruct (unavailable_request_is_not_cancelled Sample.no_requests
              Sample.now false Sample.start Sample.waiting [])
    as (Hlook & _ & _ & Hasg & Htr & _).
  - reflexivity.
  - vm_compute. reflexivity.
  - vm_compute. reflexivity.
  - right. split; [reflexivity |]. left. reflexivity.
  - split; [exact Hlook |]. split; [exact Hasg | exact Htr].
Defined.

(** ** refresh_timeouts: what a whole refresh leaves alone *)

Lemma refresh_regions_frame describe activities_of now dry_run self
    (regions : list (string * list AutoScalingGroup.t)) :
  let '(self', _, evs, _) :=
    refresh_regions describe activities_of now dry_run self regions in
  (forall id,
     (forall r gs g, (r, gs) ∈ regions -> g ∈ gs -> _id g <> id) ->
     _timeouts self' !! id = _timeouts self !! id) /\
  (forall r, r ∉ regions.*1 ->
             _last_activities self' !! r = _last_activities self !! r) /\
  _spot_timeouts self' = _spot_timeouts self /\
  _spot_price_history self' = _spot_price_history self /\
  Forall (fun ev => exists r gs g, (r, gs) ∈ regions /\ g ∈ gs /\ about g ev)
    evs.
Proof.
  revert self. induction regions as [|[region regional_asgs] rest IH];
    intros self; cbn [refresh_regions].
  { repeat split; try done. }
  pose proof (refresh_region_frame_aux describe now dry_run self region
                regional_asgs (activities_of region)) as H1.
  destruct (refresh_region describe now dry_run self region regional_asgs
              (activities_of region)) as [[[self1 gs1] evs1] e1].
  destruct H1 as (Ht1 & Hl1 & Hs1 & Hh1 & _ & Hev1).
  assert (forall id,
            (forall r gs g, (r, gs) ∈ (region, regional_asgs) :: rest ->
                            g ∈ gs -> _id g <> id) ->
            _timeouts self1 !! id = _timeouts self !! id) as Ht1'.
  { intros id Hid. apply Ht1. intros (g & -> & Hg)%list_elem_of_fmap.
    eapply (Hid region regional_asgs g); [apply elem_of_cons; by left | done
                                         | done]. }
  assert (Forall (fun ev => exists r gs g,
                    (r, gs) ∈ (region, regional_asgs) :: rest /\ g ∈ gs /\
                    about g ev) evs1) as Hev1'.
  { eapply Forall_impl; [exact Hev1 |]. intros ev (g & Hg & Hab).
    exists region, regional_asgs, g.
    split; [apply elem_of_cons; by left | done]. }
  destruct e1 as [e1|].
  - split; [done |]. split; [| done].
    intros r Hr. apply Hl1. csimpl in Hr.
    by apply not_elem_of_cons in Hr as [? _].
  - specialize (IH self1).
    destruct (refresh_regions describe activities_of now dry_run self1 rest)
      as [[[self2 rest'] evs2] e2].
    destruct IH as (Ht2 & Hl2 & Hs2 & Hh2 & Hev2).
    split; [| split; [| split; [| split]]].
    + intros id Hid. rewrite Ht2; [by apply Ht1' |].
      intros r gs g Hin. apply (Hid r gs g). apply elem_of_cons. by right.
    + intros r Hr. csimpl in Hr. apply not_elem_of_cons in Hr as [Hne Hr].
      rewrite Hl2 by done. by apply Hl1.
    + congruence.
    + congruence.
    + apply Forall_app. split; [done |].
      eapply Forall_impl; [exact Hev2 |]. intros ev (r & gs & g & Hin & ?).
      exists r, gs, g. split; [apply elem_of_cons; by right | done].
Qed.

Lemma asgs_by_region_elem (asgs : list AutoScalingGroup.t) r gs g :
  (r, gs) ∈ asgs_by_region asgs -> g ∈ gs -> g ∈ asgs /\ region g = r.
Proof.
  intros Hin Hg. destruct (asgs_by_region_spec asgs) as [Hk Hget].
  apply dict_elem_get in Hin; [| done].
  rewrite Hget in Hin.
  destruct (filter _ asgs) as [|g0 l0] eqn:Ef; [done |].
  injection Hin as <-. rewrite <- Ef in Hg.
  by apply list_elem_of_filter in Hg as [? ?].
Qed.

(** X28.  What a whole [refresh_timeouts] leaves alone, for every
    provider, with or without dry run, and also when it ends with an
    exception: the ordinary timeout of an id that is not the id of a
    group of the list; the watermark of a region without a group in the
    list; the spot timeout of an id that is not the id of a spot group
    of the list; the price history of a region without a spot group in
    the list.  Every event issued is a capacity change of a group of
    the list, a spot cancellation in the region of one, or a log
    line. *)
Theorem refresh_timeouts_frame
    (fetch : string -> Z -> list string -> list price_item)
    (describe : string -> string -> list string)
    (activities_of : string -> list activity) (now : Z) (dry_run : bool)
    (self : AutoScalingTimeouts.t) (asgs : list AutoScalingGroup.t) :
  let '(self', _, evs, _) :=
    refresh_timeouts fetch describe activities_of now dry_run self asgs in
  (forall id, id ∉ _id <$> asgs ->
              _timeouts self' !! id = _timeouts self !! id) /\
  (forall r, r ∉ region <$> asgs ->
             _last_activities self' !! r = _last_activities self !! r) /\
  (forall id,
     (forall g, g ∈ asgs -> is_spot g = true -> _id g <> id) ->
     _spot_timeouts self' !! id = _spot_timeouts self !! id) /\
  (forall r,
     (forall g, g ∈ asgs -> is_spot g = true -> region g <> r) ->
     _spot_price_history self' !! r = _spot_price_history self !! r) /\
  Forall (fun ev => exists g, g ∈ asgs /\ about g ev) evs.
Proof.
  unfold refresh_timeouts.
  pose proof (refresh_regions_frame describe activities_of now dry_run
                (time_out_spot_asgs fetch now self asgs)
                (asgs_by_region asgs)) as H.
  destruct (refresh_regions describe activities_of now dry_run _ _)
    as [[[self' regions'] evs] e].
  destruct H as (Ht & Hl & Hs & Hh & Hev).
  unfold time_out_spot_asgs in *.
  destruct (region_instance_asg_map_keys asgs) as [Hk _].
  destruct (spot_regions_fold fetch now _ self Hk)
    as (Ht0 & Hl0 & Hh0 & _ & Ho0 & _).
  split; [| split; [| split; [| split]]].
  - intros id Hid. rewrite Ht, Ht0; [done |].
    intros r gs g Hin Hg <-.
    destruct (asgs_by_region_elem asgs r gs g Hin Hg) as [Hga _].
    by apply Hid, list_elem_of_fmap_2.
  - intros r Hr. rewrite Hl, Hl0; [done |].
    intros Hin. apply dict_get_keys in Hin as [gs Hgs].
    apply dict_get_elem in Hgs.
    destruct (asgs_by_region_spec asgs) as [_ Hget].
    pose proof (Hget r) as Hr'.
    destruct (filter (fun g => region g = r) asgs) as [|g l] eqn:Ef.
    + apply dict_elem_get in Hgs;
        [congruence | by destruct (asgs_by_region_spec asgs)].
    + assert (g ∈ filter (fun g => region g = r) asgs) as Hg
        by (rewrite Ef; apply elem_of_cons; by left).
      apply list_elem_of_filter in Hg as [<- Hg].
      by apply Hr, list_elem_of_fmap_2.
  - intros id Hid. rewrite Hs. apply Ho0.
    intros r im ty l g Hin Hentry Hg.
    destruct (spot_map_entry asgs r im ty l g Hin Hentry Hg) as (? & ? & _).
    by apply Hid.
  - intros r Hr. rewrite Hh. apply Hh0. by apply spot_map_no_region.
  - eapply Forall_impl; [exact Hev |]. intros ev (r & gs & g & Hin & Hg & ?).
    exists g. split; [| done].
    by destruct (asgs_by_region_elem asgs r gs g Hin Hg).
Qed.
